(** * JBrowse components: object utilities and the [create] command

    A shallow embedding of
    - the object utilities [deepUpdate], [fillTemplate], [clone] and [mixin]
      (jbrowse-cli utility module), and
    - the [create] command of jbrowse-cli ([run], [checkPath],
      [fetchGithubVersions], [getTagOrLatest]),
    together with the properties stated about them.

    The utilities work on JavaScript objects that are mutated in place and
    may be aliased, so they are modelled over an explicit heap of objects
    with prototype links.  Recursion over object graphs carries fuel:
    running out of fuel is the outcome [Diverge], kept apart from a thrown
    exception.

    Boundary of the object model: properties are data properties (no
    accessors, no proxies: the accessor [__proto__] of [Object.prototype]
    is not modelled), every property is writable (the [name] and the
    [length] of a function are not modelled) and every object extensible;
    a number is an integer, and it is written in full when it is a safe
    integer; strings are sequences of 8-bit code units; the conversion of
    an object to a string is a parameter, its conversion to a number is
    not modelled.  The properties about writes say which objects and
    which keys they are about. *)

From Stdlib Require Import ZArith NArith String Ascii List Lia Bool DecimalString.
From stdpp Require Import base list strings.

Open Scope string_scope.
Open Scope list_scope.
Open Scope Z_scope.
Open Scope nat_scope.

(** ** Values, objects and the heap *)

Abbreviation loc := nat.

Inductive value : Type :=
| VUndef
| VNull
| VBool (b : bool)
| VNum (n : Z)
| VStr (s : string)
| VRef (l : loc).

(** Function objects: the built-in [Object] constructor, or a function
    whose behaviour is supplied from outside (see [Section Utilities]). *)
Inductive func : Type :=
| FObject
| FUser (id : nat).

Inductive okind : Type :=
| KPlain
| KArray (len : N)
| KDate (t : Z)
| KRegExp (source flags : string)
| KFunction (f : func).

Record prop : Type := mkProp { pval : value; penum : bool }.

Record object : Type := mkObject {
  kind : okind;
  proto : option loc;
  props : list (string * prop)
}.

(** One entry per function call made through the heap. *)
Record call : Type := mkCall {
  callee : loc;
  this_arg : value;
  call_args : list value
}.

Record state : Type := mkState {
  heap : list object;
  calls : list call
}.

Inductive exn : Type :=
| TypeError
| RangeError
| Thrown (v : value).

Inductive result (A : Type) : Type :=
| Ok (a : A) (s : state)
| Throw (e : exn) (s : state)
| Diverge.

Arguments Ok {A} a s.
Arguments Throw {A} e s.
Arguments Diverge {A}.

(** The intrinsic objects every heap is expected to start with. *)
Definition ObjectPrototype : loc := 0.
Definition FunctionPrototype : loc := 1.
Definition ObjectConstructor : loc := 2.
Definition ArrayPrototype : loc := 3.
Definition DatePrototype : loc := 4.
Definition RegExpPrototype : loc := 5.

(** ** The state-and-exception monad *)

Definition M (A : Type) : Type := state -> result A.

Definition ret {A} (a : A) : M A := fun s => Ok a s.

Definition bind {A B} (m : M A) (f : A -> M B) : M B :=
  fun s =>
    match m s with
    | Ok a s' => f a s'
    | Throw e s' => Throw e s'
    | Diverge => Diverge
    end.

Definition throw {A} (e : exn) : M A := fun s => Throw e s.

Definition diverge {A} : M A := fun _ => Diverge.

Declare Scope js_scope.
Delimit Scope js_scope with js.
Notation "x <- m ;; k" := (bind m (fun x => k))
  (at level 100, m at next level, right associativity) : js_scope.
Notation "m ;;; k" := (bind m (fun _ => k))
  (at level 100, right associativity) : js_scope.
Open Scope js_scope.

(** Short-circuit [&&] and [||] over computations. *)
Definition and_then (m1 m2 : M bool) : M bool :=
  b <- m1 ;; if b then m2 else ret false.

Definition or_else (m1 m2 : M bool) : M bool :=
  b <- m1 ;; if b then ret true else m2.

Infix "&&&" := and_then (at level 40, left associativity) : js_scope.
Infix "|||" := or_else (at level 50, left associativity) : js_scope.

(** [for (const x of xs) body(x)] *)
Fixpoint for_of {A} (xs : list A) (body : A -> M unit) : M unit :=
  match xs with
  | [] => ret tt
  | x :: xs' => body x ;;; for_of xs' body
  end.

(** ** Property keys *)

Definition is_digit (c : ascii) : bool :=
  let n := nat_of_ascii c in (48 <=? n) && (n <=? 57).

Fixpoint digits_value (s : string) (acc : N) : option N :=
  match s with
  | EmptyString => Some acc
  | String c s' =>
      if is_digit c
      then digits_value s' (10 * acc + N.of_nat (nat_of_ascii c - 48))%N
      else None
  end.

(** A key is an array index when it is the canonical decimal form of an
    integer below 2^32 - 1. *)
Definition array_index (k : string) : option N :=
  match k with
  | EmptyString => None
  | String c rest =>
      if (Ascii.eqb c "0") && negb (String.eqb rest "") then None
      else
        match digits_value k 0%N with
        | Some n => if (n <? 4294967295)%N then Some n else None
        | None => None
        end
  end.

Definition is_index (k : string) : bool :=
  match array_index k with Some _ => true | None => false end.

Definition string_of_N (n : N) : string := NilZero.string_of_uint (N.to_uint n).
Definition string_of_Z (n : Z) : string := NilZero.string_of_int (Z.to_int n).

(** The indices below [len], in ascending order. *)
Definition index_keys (len : N) : list string :=
  map (fun i => string_of_N (N.of_nat i)) (seq 0 (N.to_nat len)).

Section Assoc.
Context {V : Type}.

Fixpoint assoc (k : string) (l : list (string * V)) : option V :=
  match l with
  | [] => None
  | (k', v) :: l' => if String.eqb k k' then Some v else assoc k l'
  end.

(** Place of a new key in the enumeration order: array indices come
    first in ascending order, every other key follows in order of
    creation. *)
Fixpoint insert_new (k : string) (v : V) (l : list (string * V))
  : list (string * V) :=
  match l with
  | [] => [(k, v)]
  | (k', v') :: l' =>
      match array_index k, array_index k' with
      | Some n, Some n' =>
          if (n <? n')%N then (k, v) :: l else (k', v') :: insert_new k v l'
      | Some _, None => (k, v) :: l
      | None, _ => (k', v') :: insert_new k v l'
      end
  end.

Fixpoint replace_assoc (k : string) (f : V -> V) (l : list (string * V))
  : list (string * V) :=
  match l with
  | [] => []
  | (k', v') :: l' =>
      if String.eqb k k' then (k', f v') :: l'
      else (k', v') :: replace_assoc k f l'
  end.

Definition put (k : string) (fresh : V) (upd : V -> V)
           (l : list (string * V)) : list (string * V) :=
  match assoc k l with
  | Some _ => replace_assoc k upd l
  | None => insert_new k fresh l
  end.
End Assoc.

(** ** Object operations *)

Definition typeof_obj (o : object) : string :=
  match kind o with
  | KFunction _ => "function"
  | _ => "object"
  end.

Definition typeof (h : list object) (v : value) : string :=
  match v with
  | VUndef => "undefined"
  | VNull => "object"
  | VBool _ => "boolean"
  | VNum _ => "number"
  | VStr _ => "string"
  | VRef l =>
      match h !! l with
      | Some o => typeof_obj o
      | None => "undefined"
      end
  end.

Definition truthy (v : value) : bool :=
  match v with
  | VUndef | VNull => false
  | VBool b => b
  | VNum n => negb (n =? 0)%Z
  | VStr s => negb (String.eqb s "")
  | VRef _ => true
  end.

(** [===] *)
Definition strict_eq (v w : value) : bool :=
  match v, w with
  | VUndef, VUndef => true
  | VNull, VNull => true
  | VBool a, VBool b => Bool.eqb a b
  | VNum a, VNum b => (a =? b)%Z
  | VStr a, VStr b => String.eqb a b
  | VRef a, VRef b => Nat.eqb a b
  | _, _ => false
  end.

Definition is_undefined (v : value) : bool := strict_eq v VUndef.

(** Own property, including the [length] of an array. *)
Definition own_prop (o : object) (k : string) : option prop :=
  match kind o with
  | KArray len =>
      if String.eqb k "length"
      then Some (mkProp (VNum (Z.of_N len)) false)
      else assoc k (props o)
  | _ => assoc k (props o)
  end.

(** Lookup along the prototype chain.  A chain is never longer than the
    heap, so the heap's length is enough fuel. *)
Fixpoint chain_prop (n : nat) (h : list object) (l : loc) (k : string)
  : option prop :=
  match n with
  | O => None
  | S n' =>
      match h !! l with
      | None => None
      | Some o =>
          match own_prop o k with
          | Some p => Some p
          | None =>
              match proto o with
              | Some l' => chain_prop n' h l' k
              | None => None
              end
          end
      end
  end.

Definition find_prop (h : list object) (l : loc) (k : string) : option prop :=
  chain_prop (length h) h l k.

(** [k in v] *)
Definition has_property (k : string) (v : value) : M bool :=
  fun s =>
    match v with
    | VRef l =>
        Ok (match find_prop (heap s) l k with Some _ => true | None => false end) s
    | _ => Throw TypeError s
    end.

(** [str[k]] for a string: its characters under the indices, and its
    [length]. *)
Definition string_get (str k : string) : value :=
  match array_index k with
  | Some i =>
      match String.get (N.to_nat i) str with
      | Some c => VStr (String c EmptyString)
      | None => VUndef
      end
  | None =>
      if String.eqb k "length" then VNum (Z.of_nat (String.length str))
      else VUndef
  end.

(** [v[k]]; a string has its characters and its length, and the
    prototypes of the booleans, numbers and strings carry no property in
    this model. *)
Definition get (v : value) (k : string) : M value :=
  fun s =>
    match v with
    | VUndef | VNull => Throw TypeError s
    | VRef l =>
        Ok (match find_prop (heap s) l k with
            | Some p => pval p
            | None => VUndef
            end) s
    | VStr str => Ok (string_get str k) s
    | _ => Ok VUndef s
    end.

Definition own_enumerable_keys (o : object) : list string :=
  map fst (List.filter (fun kp => penum (snd kp)) (props o)).

(** [Object.keys(v)] *)
Definition object_keys (v : value) : M (list string) :=
  fun s =>
    match v with
    | VUndef | VNull => Throw TypeError s
    | VRef l =>
        match heap s !! l with
        | Some o => Ok (own_enumerable_keys o) s
        | None => Ok [] s
        end
    | VStr str => Ok (index_keys (N.of_nat (String.length str))) s
    | _ => Ok [] s
    end.

Definition mem (k : string) (ks : list string) : bool :=
  existsb (String.eqb k) ks.

Definition own_names (o : object) : list string :=
  match kind o with
  | KArray _ => "length" :: map fst (props o)
  | _ => map fst (props o)
  end.

(** Keys visited by [for (k in v)]: the enumerable properties of the object
    and then of its prototypes, a name being visited at most once and not
    at all when a nearer object holds it as a non-enumerable property. *)
Fixpoint chain_keys (n : nat) (h : list object) (l : loc)
         (seen : list string) : list string :=
  match n with
  | O => []
  | S n' =>
      match h !! l with
      | None => []
      | Some o =>
          List.filter (fun k => negb (mem k seen)) (own_enumerable_keys o)
          ++ match proto o with
             | Some l' => chain_keys n' h l' (own_names o ++ seen)
             | None => []
             end
      end
  end.

Definition for_in_keys (v : value) : M (list string) :=
  fun s =>
    match v with
    | VRef l => Ok (chain_keys (length (heap s)) (heap s) l []) s
    | VStr str => Ok (index_keys (N.of_nat (String.length str))) s
    | _ => Ok [] s
    end.

(** White space: [\s] of a regular expression and the characters that
    [ToNumber] trims, on 8-bit code units. *)
Definition is_space (c : ascii) : bool :=
  let n := nat_of_ascii c in
  ((9 <=? n) && (n <=? 13)) || (n =? 32) || (n =? 160).

(** *** Numerals

    [ToNumber] of a string, as far as the assignment to an array's
    [length] needs it: the string, trimmed of its whitespace, is empty,
    a decimal numeral with an optional sign, fraction and exponent, or a
    hexadecimal, octal or binary numeral; the number is the double
    nearest to the numeral, and it is a length when it is an integer
    below 2^32. *)

Fixpoint trim_left (s : string) : string :=
  match s with
  | String c s' => if is_space c then trim_left s' else s
  | EmptyString => EmptyString
  end.

Definition string_rev (s : string) : string :=
  string_of_list_ascii (List.rev (list_ascii_of_string s)).

Definition trim (s : string) : string :=
  string_rev (trim_left (string_rev (trim_left s))).

(** The value of a digit in a base up to 16. *)
Definition digit_of (base : N) (c : ascii) : option N :=
  let n := N.of_nat (nat_of_ascii c) in
  let d := if ((48 <=? n) && (n <=? 57))%N then Some (n - 48)%N
           else if ((97 <=? n) && (n <=? 102))%N then Some (n - 87)%N
           else if ((65 <=? n) && (n <=? 70))%N then Some (n - 55)%N
           else None in
  match d with
  | Some v => if (v <? base)%N then Some v else None
  | None => None
  end.

(** The longest run of digits at the head of [s]: its value after [acc],
    the number of its digits, and what follows it. *)
Fixpoint read_digits (base : N) (s : string) (acc : N) (count : nat)
  : N * nat * string :=
  match s with
  | String c s' =>
      match digit_of base c with
      | Some d => read_digits base s' (base * acc + d)%N (S count)
      | None => (acc, count, s)
      end
  | EmptyString => (acc, count, s)
  end.

(** A numeral made of digits only, at least one. *)
Definition whole_numeral (base : N) (s : string) : option N :=
  match read_digits base s 0%N 0 with
  | (n, S _, EmptyString) => Some n
  | _ => None
  end.

(** [e] or [E], an optional sign and digits: the exponent; no exponent
    part is the exponent 0. *)
Definition exponent_part (s : string) : option Z :=
  match s with
  | EmptyString => Some 0%Z
  | String c s' =>
      if Ascii.eqb c "e" || Ascii.eqb c "E" then
        match s' with
        | String "+" d => option_map Z.of_N (whole_numeral 10 d)
        | String "-" d => option_map (fun n => (- Z.of_N n)%Z) (whole_numeral 10 d)
        | d => option_map Z.of_N (whole_numeral 10 d)
        end
      else None
  end.

(** An unsigned decimal numeral as [m * 10 ^ e]. *)
Definition decimal_numeral (s : string) : option (N * Z) :=
  match read_digits 10 s 0%N 0 with
  | (whole, nw, rest) =>
      match rest with
      | String "." rest' =>
          match read_digits 10 rest' whole 0 with
          | (m, nf, rest'') =>
              match (nw + nf)%nat with
              | O => None
              | S _ =>
                  option_map (fun e => (m, (e - Z.of_nat nf)%Z))
                             (exponent_part rest'')
              end
          end
      | _ =>
          match nw with
          | O => None
          | S _ => option_map (fun e => (whole, e)) (exponent_part rest)
          end
      end
  end.

(** The integer that the double nearest to [p / q] is, if it is one:
    the integers below 2^32 are doubles with an even mantissa, so the
    numbers that round to [n] are those within half the distance from
    [n] to its neighbours, ends included. *)
Definition nearest_integer (p q : Z) : option Z :=
  let n := ((2 * p + q) / (2 * q))%Z in
  if (n =? 0)%Z then
    if (p * 2 ^ 1075 <=? q)%Z then Some 0%Z else None
  else
    let k := Z.log2 n in
    let below := (if n =? 2 ^ k then 54 else 53)%Z in
    if (n * q <=? p)%Z
    then if ((p - n * q) * 2 ^ (53 - k) <=? q)%Z then Some n else None
    else if ((n * q - p) * 2 ^ (below - k) <=? q)%Z then Some n else None.

(** The length that a string stands for. *)
Definition string_length_value (str : string) : option N :=
  let s := trim str in
  let in_range (n : Z) :=
    if (n <? 4294967296)%Z then Some (Z.to_N n) else None in
  match s with
  | EmptyString => Some 0%N
  | String "0" (String c rest) =>
      if Ascii.eqb c "x" || Ascii.eqb c "X"
      then match whole_numeral 16 rest with
           | Some n => in_range (Z.of_N n)
           | None => None
           end
      else if Ascii.eqb c "o" || Ascii.eqb c "O"
      then match whole_numeral 8 rest with
           | Some n => in_range (Z.of_N n)
           | None => None
           end
      else if Ascii.eqb c "b" || Ascii.eqb c "B"
      then match whole_numeral 2 rest with
           | Some n => in_range (Z.of_N n)
           | None => None
           end
      else
        match decimal_numeral s with
        | Some (m, e) =>
            match nearest_integer (Z.of_N m * 10 ^ Z.max e 0)
                                  (10 ^ Z.max (- e) 0) with
            | Some n => in_range n
            | None => None
            end
        | None => None
        end
  | String sign rest =>
      let negative := Ascii.eqb sign "-" in
      let digits := if negative || Ascii.eqb sign "+" then rest else s in
      match decimal_numeral digits with
      | Some (m, e) =>
          match nearest_integer (Z.of_N m * 10 ^ Z.max e 0)
                                (10 ^ Z.max (- e) 0) with
          | Some n => if negative && negb (n =? 0)%Z then None else in_range n
          | None => None
          end
      | None => None
      end
  end.

(** Number demanded by an assignment to an array's [length]: [None] when
    the value converts to no integer below 2^32.  The conversion of an
    object runs the object's own code and is not modelled: an object is
    taken for an invalid length. *)
Definition length_value (v : value) : option N :=
  match v with
  | VNum n => if ((0 <=? n) && (n <? 4294967296))%Z then Some (Z.to_N n) else None
  | VNull => Some 0%N
  | VBool b => Some (if b then 1 else 0)%N
  | VStr s => string_length_value s
  | _ => None
  end.

Definition below (len : N) (kp : string * prop) : bool :=
  match array_index (fst kp) with
  | Some i => (i <? len)%N
  | None => true
  end.

(** The object after [o[k] = x], for an ordinary object whose properties
    are writable data properties and for a key that no prototype holds
    as an accessor; [None] stands for the [RangeError] of an invalid
    array length. *)
Definition assign (o : object) (k : string) (x : value) : option object :=
  match kind o with
  | KArray len =>
      if String.eqb k "length" then
        match length_value x with
        | Some len' =>
            Some (mkObject (KArray len') (proto o)
                           (if (len' <? len)%N then List.filter (below len') (props o)
                            else props o))
        | None => None
        end
      else
        let len' :=
          match array_index k with
          | Some i => if (len <=? i)%N then (i + 1)%N else len
          | None => len
          end in
        Some (mkObject (KArray len') (proto o)
                       (put k (mkProp x true) (fun p => mkProp x (penum p)) (props o)))
  | _ =>
      Some (mkObject (kind o) (proto o)
                     (put k (mkProp x true) (fun p => mkProp x (penum p)) (props o)))
  end.

(** [v[k] = x] in strict mode. *)
Definition set (v : value) (k : string) (x : value) : M unit :=
  fun s =>
    match v with
    | VRef l =>
        match heap s !! l with
        | Some o =>
            match assign o k x with
            | Some o' => Ok tt (mkState (<[l := o']> (heap s)) (calls s))
            | None => Throw RangeError s
            end
        | None => Throw TypeError s
        end
    | _ => Throw TypeError s
    end.

Definition alloc (o : object) : M value :=
  fun s => Ok (VRef (length (heap s))) (mkState (heap s ++ [o]) (calls s)).

(** [Object.prototype.toString.call(v)] *)
Definition class_string (h : list object) (v : value) : string :=
  match v with
  | VUndef => "[object Undefined]"
  | VNull => "[object Null]"
  | VBool _ => "[object Boolean]"
  | VNum _ => "[object Number]"
  | VStr _ => "[object String]"
  | VRef l =>
      match h !! l with
      | Some o =>
          match kind o with
          | KPlain => "[object Object]"
          | KArray _ => "[object Array]"
          | KDate _ => "[object Date]"
          | KRegExp _ _ => "[object RegExp]"
          | KFunction _ => "[object Function]"
          end
      | None => "[object Undefined]"
      end
  end.

Definition typeof_is (m : M value) (t : string) : M bool :=
  fun s =>
    match m s with
    | Ok v s' => Ok (String.eqb (typeof (heap s') v) t) s'
    | Throw e s' => Throw e s'
    | Diverge => Diverge
    end.

Definition negate (m : M bool) : M bool :=
  b <- m ;; ret (negb b).

(** [Object.prototype.toString.call(v) === t] *)
Definition class_is (v : value) (t : string) : M bool :=
  fun s => Ok (String.eqb (class_string (heap s) v) t) s.

Definition is_undef (m : M value) : M bool :=
  v <- m ;; ret (is_undefined v).

Definition not_undef (m : M value) : M bool :=
  v <- m ;; ret (negb (is_undefined v)).

(** ** deepUpdate *)

(** Body of the loop of [deepUpdate]; [recur] is the recursive call. *)
(** [arg && arg.label && typeof arg.label === 'string']: the value of
    [&&] is its first falsy operand, or else its last one. *)
Definition isTrack (arg : value) : M value :=
  if truthy arg then
    label <- get arg "label" ;;
    if truthy label then
      b <- typeof_is (get arg "label") "string" ;;
      ret (VBool b)
    else ret label
  else ret arg.

(** [arg && arg.url && typeof arg.url === 'string'] *)
Definition isSource (arg : value) : M value :=
  if truthy arg then
    url <- get arg "url" ;;
    if truthy url then
      b <- typeof_is (get arg "url") "string" ;;
      ret (VBool b)
    else ret url
  else ret arg.

Definition deepUpdate_body (recur : value -> value -> M value)
           (a b : value) (prop : string) : M unit :=
  c <- has_property prop a
       &&& typeof_is (get b prop) "object"
       &&& typeof_is (get a prop) "object" ;;
  if c then
    av <- get a prop ;;
    bv <- get b prop ;;
    recur av bv ;;;
    ret tt
  else
    c' <- is_undef (get a prop) ||| not_undef (get b prop) ;;
    if c' then
      bv <- get b prop ;;
      set a prop bv
    else ret tt.

Fixpoint deepUpdate (fuel : nat) (a b : value) : M value :=
  match fuel with
  | O => diverge
  | S fuel' =>
      ks <- object_keys b ;;
      for_of ks (deepUpdate_body (deepUpdate fuel') a b) ;;;
      ret a
  end.

(** ** Regular expressions of [fillTemplate] *)

(** [\w] *)
Definition is_word (c : ascii) : bool :=
  let n := nat_of_ascii c in
  ((48 <=? n) && (n <=? 57)) || ((65 <=? n) && (n <=? 90))
  || ((97 <=? n) && (n <=? 122)) || (n =? 95).

(** [[\s\w.]] *)
Definition is_var_char (c : ascii) : bool :=
  is_space c || is_word c || (nat_of_ascii c =? 46).

(** Longest prefix of characters satisfying [p], and what follows it. *)
Fixpoint span (p : ascii -> bool) (s : string) : string * string :=
  match s with
  | EmptyString => (EmptyString, EmptyString)
  | String c s' =>
      if p c then let (r, rest) := span p s' in (String c r, rest)
      else (EmptyString, s)
  end.

(** A match of [/{([\s\w.]+)}/] at the head of [s]: the captured group and
    the text after the match.  The class contains neither brace, so only
    the longest run of class characters can be followed by the closing
    brace. *)
Definition match_placeholder (s : string) : option (string * string) :=
  match s with
  | String "{" s' =>
      match span is_var_char s' with
      | (EmptyString, _) => None
      | (var, String "}" rest) => Some (var, rest)
      | _ => None
      end
  | _ => None
  end.

(** [s.replace(/\s+/g, '')] *)
Fixpoint remove_whitespace (s : string) : string :=
  match s with
  | EmptyString => EmptyString
  | String c s' =>
      if is_space c then remove_whitespace s' else String c (remove_whitespace s')
  end.

(** [template.replace(/{([\s\w.]+)}/g, replacer)]: the matches are found
    from left to right, each search starting where the previous match
    ended; the text between matches is kept.  [n] bounds the number of
    positions visited; one more than the length of the string is enough. *)
Fixpoint replace_from (n : nat) (replacer : string -> string -> M string)
         (s : string) : M string :=
  match n with
  | O => ret EmptyString
  | S n' =>
      match s with
      | EmptyString => ret EmptyString
      | String c s' =>
          match match_placeholder s with
          | Some (var, rest) =>
              r <- replacer ("{" +:+ var +:+ "}") var ;;
              out <- replace_from n' replacer rest ;;
              ret (r +:+ out)
          | None =>
              out <- replace_from n' replacer s' ;;
              ret (String c out)
          end
      end
  end.

Definition replace_placeholders (replacer : string -> string -> M string)
           (s : string) : M string :=
  replace_from (S (String.length s)) replacer s.

(** The decomposition of a template that [replace_from] follows: the
    characters it copies and the placeholders it hands to the replacer. *)
Inductive piece : Type :=
| Text (c : ascii)
| Hole (var : string).

Definition piece_text (p : piece) : string :=
  match p with
  | Text c => String c EmptyString
  | Hole var => "{" +:+ var +:+ "}"
  end.

Fixpoint pieces_from (n : nat) (s : string) : list piece :=
  match n with
  | O => []
  | S n' =>
      match s with
      | EmptyString => []
      | String c s' =>
          match match_placeholder s with
          | Some (var, rest) => Hole var :: pieces_from n' rest
          | None => Text c :: pieces_from n' s'
          end
      end
  end.

Definition pieces (s : string) : list piece := pieces_from (S (String.length s)) s.

Definition holes (s : string) : list string :=
  flat_map (fun p => match p with Hole var => [var] | Text _ => [] end) (pieces s).

(** The outputs of the pieces, one after the other. *)
Fixpoint fill_pieces (replacer : string -> string -> M string)
         (ps : list piece) : M string :=
  match ps with
  | [] => ret EmptyString
  | Text c :: ps' =>
      out <- fill_pieces replacer ps' ;;
      ret (String c out)
  | Hole var :: ps' =>
      r <- replacer (piece_text (Hole var)) var ;;
      out <- fill_pieces replacer ps' ;;
      ret (r +:+ out)
  end.

Definition join (l : list string) : string := fold_right append EmptyString l.

(** The text a piece becomes when [resolve] gives the replacement of the
    placeholders it resolves. *)
Definition expand (resolve : string -> option string) (p : piece) : string :=
  match p with
  | Text c => String c EmptyString
  | Hole var =>
      match resolve var with
      | Some o => o
      | None => piece_text p
      end
  end.

(** Whether [target] lies on the prototype chain of the object at [l]. *)
Fixpoint on_proto_chain (n : nat) (h : list object) (l target : loc) : bool :=
  match n with
  | O => false
  | S n' =>
      match h !! l with
      | Some o =>
          match proto o with
          | Some p => Nat.eqb p target || on_proto_chain n' h p target
          | None => false
          end
      | None => false
      end
  end.

(** [v instanceof C] for a built-in [C] whose [prototype] is at [target] *)
Definition instanceof (v : value) (target : loc) : M bool :=
  fun s =>
    match v with
    | VRef l => Ok (on_proto_chain (length (heap s)) (heap s) l target) s
    | _ => Ok false s
    end.

(** [Array.isArray(v)] *)
Definition is_array (v : value) : M bool :=
  fun s =>
    match v with
    | VRef l =>
        match heap s !! l with
        | Some o => Ok (match kind o with KArray _ => true | _ => false end) s
        | None => Ok false s
        end
    | _ => Ok false s
    end.

Definition empty_object : object := mkObject KPlain (Some ObjectPrototype) [].
Definition empty_array : object := mkObject (KArray 0) (Some ArrayPrototype) [].

(** [src.getTime()], with the built-in method *)
Definition getTime (v : value) : M value :=
  fun s =>
    match v with
    | VRef l =>
        match heap s !! l with
        | Some o =>
            match kind o with
            | KDate t => Ok (VNum t) s
            | _ => Throw TypeError s
            end
        | None => Throw TypeError s
        end
    | _ => Throw TypeError s
    end.

(** [new Date(t)] for a number [t] *)
Definition new_Date (t : value) : M value :=
  match t with
  | VNum n => alloc (mkObject (KDate n) (Some DatePrototype) [])
  | _ => throw TypeError
  end.

(** [new RegExp(v)] for a regular expression [v] *)
Definition new_RegExp (v : value) : M value :=
  fun s =>
    match v with
    | VRef l =>
        match heap s !! l with
        | Some o =>
            match kind o with
            | KRegExp src flags =>
                alloc (mkObject (KRegExp src flags) (Some RegExpPrototype)
                                [("lastIndex", mkProp (VNum 0) false)]) s
            | _ => Throw TypeError s
            end
        | None => Throw TypeError s
        end
    | _ => Throw TypeError s
    end.

(** [Number.isSafeInteger(n)] *)
Definition safe_integer (n : Z) : bool := (Z.abs n <=? 9007199254740991)%Z.

(** The values whose conversion to a string runs no code of the program
    and is written here in full: [undefined], [null], the booleans, the
    strings and the safe integers, which are written with all their
    digits. *)
Definition literal (v : value) : bool :=
  match v with
  | VRef _ => false
  | VNum n => safe_integer n
  | _ => true
  end.

Definition literal_text (v : value) : string :=
  match v with
  | VUndef => "undefined"
  | VNull => "null"
  | VBool b => if b then "true" else "false"
  | VNum n => string_of_Z n
  | VStr s => s
  | VRef _ => EmptyString
  end.

(** What the description of [fillTemplate] says of one placeholder, given
    the value [fill] its name looks up and the value [cb] of
    [fillWith.callback].  The function that is called, if any: the
    looked-up value when it is an object, the callback when the lookup
    yields [undefined]. *)
Definition function_called (fill cb : value) : option loc :=
  match fill with
  | VUndef => match cb with
              | VRef lcb => Some lcb
              | _ => None
              end
  | VRef lf => Some lf
  | _ => None
  end.

(** The text put in place of the placeholder, [None] when the placeholder
    stays; [answer] gives what the function called returns. *)
Definition replacement (fill cb : value) (answer : loc -> value)
  : option string :=
  match fill with
  | VUndef =>
      match cb with
      | VRef lcb =>
          if is_undefined (answer lcb) then None
          else Some (literal_text (answer lcb))
      | _ => None
      end
  | VRef lf => Some (literal_text (answer lf))
  | v => Some (literal_text v)
  end.

Section Utilities.

(** Behaviour of the functions found in the heap, other than
    [new Object()]: a call with a receiver and arguments, and a
    construction with arguments. *)
Variable call_fn : func -> value -> list value -> M value.
Variable construct_fn : func -> list value -> M value.

(** Conversion to a string of the other values: of an object, which runs
    the object's own [toString] or [valueOf], and of a number beyond the
    safe integers, which the engine writes with the digits that tell it
    from its neighbours, in exponent form from 1e21 on. *)
Variable host_to_string : value -> M string.

(** [getValue] of the get-value package: the value found in an object
    under a dotted path, [undefined] when there is none. *)
Variable getValue : list object -> value -> string -> value.

(** [f.call(this, ...args)] and [f(...args)]; every call is logged. *)
Definition call_function (f : value) (this : value) (args : list value)
  : M value :=
  fun s =>
    match f with
    | VRef l =>
        match heap s !! l with
        | Some o =>
            match kind o with
            | KFunction fn =>
                call_fn fn this args
                        (mkState (heap s) (calls s ++ [mkCall l this args]))
            | _ => Throw TypeError s
            end
        | None => Throw TypeError s
        end
    | _ => Throw TypeError s
    end.

(** The object at [lf] is a function that, called with the one argument
    [name] in a state whose heap is [h], returns [v] and leaves the state
    as it found it. *)
Definition answers (h : list object) (lf : loc) (name : string) (v : value)
  : Prop :=
  exists o fn,
    h !! lf = Some o /\ kind o = KFunction fn
    /\ forall s, heap s = h -> call_fn fn VUndef [VStr name] s = Ok v s.

(** [new f()] *)
Definition construct (f : value) (args : list value) : M value :=
  fun s =>
    match f with
    | VRef l =>
        match heap s !! l with
        | Some o =>
            match kind o, args with
            | KFunction FObject, [] => alloc empty_object s
            | KFunction fn, _ => construct_fn fn args s
            | _, _ => Throw TypeError s
            end
        | None => Throw TypeError s
        end
    | _ => Throw TypeError s
    end.

(** Conversion to a string of the value a replacer returns. *)
Definition to_string (v : value) : M string :=
  if literal v then ret (literal_text v) else host_to_string v.

(** *** fillTemplate *)

Definition fill_placeholder (fillWith : value) (match_ varName : string)
  : M string :=
  let varName := remove_whitespace varName in
  fun s =>
    (let fill := getValue (heap s) fillWith varName in
     if negb (is_undefined fill) then
       if String.eqb (typeof (heap s) fill) "function" then
         r <- call_function fill VUndef [VStr varName] ;;
         to_string r
       else to_string fill
     else
       cb <- get fillWith "callback" ;;
       if truthy cb then
         cb' <- get fillWith "callback" ;;
         v <- call_function cb' VUndef [VStr varName] ;;
         if negb (is_undefined v) then to_string v else ret match_
       else ret match_) s.

Definition fillTemplate (template : string) (fillWith : value) : M string :=
  replace_placeholders (fill_placeholder fillWith) template.

(** *** mixin and clone *)

Definition differs (m : M value) (v : value) : M bool :=
  w <- m ;; ret (negb (strict_eq w v)).

Definition lacks (k : string) (v : value) : M bool :=
  b <- has_property k v ;; ret (negb b).

Definition mixin (dest source : value) (copyFunc : option (value -> M value))
  : M value :=
  empty <- alloc empty_object ;;
  names <- for_in_keys source ;;
  for_of names (fun name =>
    s <- get source name ;;
    c <- lacks name dest
         ||| (differs (get dest name) s
              &&& (lacks name empty ||| differs (get empty name) s)) ;;
    if c then
      v <- match copyFunc with
           | Some f => f s
           | None => ret s
           end ;;
      set dest name v
    else ret tt) ;;;
  ret dest.

Definition clone_elements (recur : value -> M value) (src r : value)
           (l : value) : M unit :=
  match l with
  | VNum n =>
      for_of (index_keys (Z.to_N n)) (fun i =>
        c <- has_property i src ;;
        if c then
          x <- get src i ;;
          y <- recur x ;;
          set r i y
        else ret tt)
  | _ => ret tt
  end.

(** The body of [clone]; [recur] is [clone] itself, in the recursive
    calls and as the [copyFunc] handed to [mixin]. *)
Definition clone_body (recur : value -> M value) (src : value) : M value :=
  leaf <- ret (negb (truthy src))
          ||| negate (typeof_is (ret src) "object")
          ||| class_is src "[object Function]" ;;
  if leaf then ret src
  else
    nodeType <- get src "nodeType" ;;
    isNode <- ret (truthy nodeType) &&& has_property "cloneNode" src ;;
    if isNode then
      f <- get src "cloneNode" ;;
      call_function f src [VBool true]
    else
      isDate <- instanceof src DatePrototype ;;
      if isDate then
        t <- getTime src ;;
        new_Date t
      else
        isRegExp <- instanceof src RegExpPrototype ;;
        if isRegExp then new_RegExp src
        else
          isArr <- is_array src ;;
          r <- (if isArr then
                  r <- alloc empty_array ;;
                  l <- get src "length" ;;
                  clone_elements recur src r l ;;;
                  ret r
                else
                  ctor <- get src "constructor" ;;
                  if truthy ctor then
                    ctor' <- get src "constructor" ;;
                    construct ctor' []
                  else alloc empty_object) ;;
          mixin r src (Some recur).

Fixpoint clone (fuel : nat) (src : value) : M value :=
  match fuel with
  | O => diverge
  | S fuel' => clone_body (clone fuel') src
  end.

End Utilities.

(** ** Object graphs *)

(** [h'] has every object of [h], unchanged. *)
Definition extends (h h' : list object) : Prop :=
  forall l o, h !! l = Some o -> h' !! l = Some o.

(** The prototype chain of [l] ends within [n] objects of the heap. *)
Fixpoint chain_ends (n : nat) (h : list object) (l : loc) : bool :=
  match n with
  | O => false
  | S n' =>
      match h !! l with
      | None => false
      | Some o =>
          match proto o with
          | None => true
          | Some p => chain_ends n' h p
          end
      end
  end.

(** Prototype chains are finite and stay inside the heap. *)
Definition protos_ok (h : list object) : Prop :=
  forall l, l < length h -> chain_ends (length h) h l = true.


Definition child (h : list object) (l : loc) (k : string) : value :=
  match find_prop h l k with
  | Some p => pval p
  | None => VUndef
  end.



(** ** Data *)

(** The values [clone] is meant for: leaves (the primitive values and the
    functions), dates, regular expressions, arrays and plain objects, the
    last two with the data found under their enumerable keys. *)
Inductive data : Type :=
| DLeaf (v : value)
| DDate (t : Z)
| DRegExp (source flags : string)
| DArray (len : N) (items : list (string * data))
| DObject (fields : list (string * data)).

Fixpoint all_fields {A} (P : string -> A -> Prop) (fs : list (string * A))
  : Prop :=
  match fs with
  | [] => True
  | (k, d) :: fs' => P k d /\ all_fields P fs'
  end.

Definition is_leaf (h : list object) (v : value) : Prop :=
  match v with
  | VRef l => exists o f, h !! l = Some o /\ kind o = KFunction f
  | _ => True
  end.

(** The length of an array whose last index is in use. *)
Fixpoint length_of (ks : list string) : N :=
  match ks with
  | [] => 0
  | k :: ks' =>
      match array_index k with
      | Some i => N.max (i + 1) (length_of ks')
      | None => length_of ks'
      end
  end.

(** The properties [ps] are the fields [fs], key by key, whatever their
    order; [R] relates the values to the data. *)
Definition fields_of (R : value -> data -> Prop) (ps : list (string * prop))
           (fs : list (string * data)) : Prop :=
  (forall k p, assoc k ps = Some p -> In k (map fst fs))
  /\ all_fields (fun k d => exists p, assoc k ps = Some p /\ penum p = true
                                      /\ R (pval p) d) fs.

(** [v] stands for the data [d] in the heap [h], through objects at the
    locations from [n] on (functions apart). *)
Fixpoint repr (n : nat) (h : list object) (v : value) (d : data) : Prop :=
  match d with
  | DLeaf w => v = w /\ is_leaf h w
  | DDate t =>
      exists l o, v = VRef l /\ n <= l /\ h !! l = Some o
                  /\ kind o = KDate t /\ proto o = Some DatePrototype
                  /\ assoc "nodeType" (props o) = None
  | DRegExp source flags =>
      exists l o, v = VRef l /\ n <= l /\ h !! l = Some o
                  /\ kind o = KRegExp source flags
                  /\ proto o = Some RegExpPrototype
                  /\ assoc "nodeType" (props o) = None
  | DArray len items =>
      exists l o, v = VRef l /\ n <= l /\ h !! l = Some o
                  /\ kind o = KArray len /\ proto o = Some ArrayPrototype
                  /\ len = length_of (map fst (props o))
                  /\ (forall k p, assoc k (props o) = Some p -> In k (map fst items))
                  /\ all_fields (fun k d' =>
                                   exists p, assoc k (props o) = Some p
                                             /\ penum p = true
                                             /\ repr n h (pval p) d') items
  | DObject fields =>
      exists l o, v = VRef l /\ n <= l /\ h !! l = Some o
                  /\ kind o = KPlain /\ proto o = Some ObjectPrototype
                  /\ (forall k p, assoc k (props o) = Some p -> In k (map fst fields))
                  /\ all_fields (fun k d' =>
                                   exists p, assoc k (props o) = Some p
                                             /\ penum p = true
                                             /\ repr n h (pval p) d') fields
  end.

(** Not taken for a DOM node: no [cloneNode], or a falsy [nodeType]. *)
Definition not_node (fs : list (string * data)) : Prop :=
  ~ In "cloneNode" (map fst fs)
  \/ (forall d, In ("nodeType", d) fs -> exists v, d = DLeaf v /\ truthy v = false).

(** The keys of the data do not hide a property of the prototypes, and no
    object looks like a DOM node. *)
Fixpoint plain_data (h : list object) (d : data) : Prop :=
  match d with
  | DLeaf _ | DDate _ | DRegExp _ _ => True
  | DArray len items =>
      (forall k, In k (map fst items) ->
                 find_prop h ArrayPrototype k = None /\ k <> "length")
      /\ (forall k, In k (index_keys len) -> find_prop h ArrayPrototype k = None)
      /\ find_prop h ArrayPrototype "cloneNode" = None
      /\ not_node items
      /\ all_fields (fun _ d' => plain_data h d') items
  | DObject fields =>
      (forall k, In k (map fst fields) -> find_prop h ObjectPrototype k = None)
      /\ find_prop h ObjectPrototype "cloneNode" = None
      /\ not_node fields
      /\ all_fields (fun _ d' => plain_data h d') fields
  end.

(** The intrinsic objects are in place. *)
Definition realm_ok (h : list object) : Prop :=
  protos_ok h
  /\ (exists o, h !! ObjectPrototype = Some o /\ proto o = None
                /\ own_enumerable_keys o = [])
  /\ (exists o, h !! ArrayPrototype = Some o /\ proto o = Some ObjectPrototype
                /\ own_enumerable_keys o = [])
  /\ (exists o, h !! DatePrototype = Some o /\ proto o = Some ObjectPrototype)
  /\ (exists o, h !! RegExpPrototype = Some o /\ proto o = Some ObjectPrototype)
  /\ (exists o, h !! ObjectConstructor = Some o /\ kind o = KFunction FObject)
  /\ (exists p, find_prop h ObjectPrototype "constructor" = Some p
                /\ pval p = VRef ObjectConstructor)
  /\ find_prop h ObjectPrototype "nodeType" = None
  /\ find_prop h ArrayPrototype "nodeType" = None
  /\ find_prop h DatePrototype "nodeType" = None
  /\ find_prop h RegExpPrototype "nodeType" = None.

(** ** Outcomes of computations *)

(** [m], run in [s], does not diverge; when it returns, [Q] holds of the
    result and the final state; it may throw only if [T]. *)
Definition wp {A} (T : Prop) (m : M A) (Q : A -> state -> Prop) (s : state)
  : Prop :=
  match m s with
  | Ok a s' => Q a s'
  | Throw _ _ => T
  | Diverge => False
  end.

(** Computations that read the state and leave it as it is. *)
Definition quiet {A} (m : M A) : Prop :=
  forall s, (exists a, m s = Ok a s) \/ (exists e, m s = Throw e s).

(** A check of [protos_ok]. *)
Definition protos_check (h : list object) : bool :=
  forallb (fun l => chain_ends (length h) h l) (seq 0 (length h)).


Definition proto_of (arr : bool) : loc :=
  if arr then ArrayPrototype else ObjectPrototype.

Definition kind_of (arr : bool) (qs : list (string * prop)) : okind :=
  if arr then KArray (length_of (map fst qs)) else KPlain.

(** The copy under construction at [lr]: what it holds so far stands for
    the data of the source, through new objects, and the keys of [done]
    have been copied. *)
Definition copy_inv (arr : bool) (ps : list (string * prop))
           (fs : list (string * data)) (lr : loc) (done : list string)
           (s : state) : Prop :=
  exists qs,
    heap s !! lr = Some (mkObject (kind_of arr qs) (Some (proto_of arr)) qs)
    /\ (forall k q, assoc k qs = Some q ->
          penum q = true /\ In k (map fst ps)
          /\ forall d, In (k, d) fs -> repr (S lr) (heap s) (pval q) d)
    /\ (forall k, In k done -> assoc k qs <> None).

(** What the recursive call does for the property [k] of the source. *)
Definition copies (recur : value -> M value) (hb : list object)
           (ps : list (string * prop)) (fs : list (string * data)) : Prop :=
  forall k p s, assoc k ps = Some p -> extends hb (heap s) ->
    wp False (recur (pval p))
       (fun v' s' => extends (heap s) (heap s') /\ calls s' = calls s
                     /\ forall d, In (k, d) fs ->
                                  repr (length (heap s)) (heap s') v' d) s.

(** The source object: its place, its prototype, and keys that hide no
    property of the prototype. *)
Definition source (h0 : list object) (arr : bool) (l : loc) (o : object) : Prop :=
  h0 !! l = Some o
  /\ proto o = Some (proto_of arr)
  /\ (if arr then exists len, kind o = KArray len else kind o = KPlain)
  /\ (forall k, In k (map fst (props o)) ->
                find_prop h0 (proto_of arr) k = None
                /\ (arr = true -> k <> "length")).

(** The state of the loops of [clone]: what was there stays, except for
    the copy under construction. *)
Definition copying (hb : list object) (cs : list call) (le : option loc)
           (arr : bool) (ps : list (string * prop)) (fs : list (string * data))
           (lr : loc) (done : list string) (s : state) : Prop :=
  extends hb (heap s) /\ calls s = cs /\ lr < length (heap s)
  /\ match le with
     | Some e => e <> lr /\ heap s !! e = Some empty_object
     | None => True
     end
  /\ copy_inv arr ps fs lr done s.

Definition intrinsic_proto (P : loc) : Prop :=
  P = ObjectPrototype \/ P = ArrayPrototype \/ P = DatePrototype
  \/ P = RegExpPrototype.

(** The outcome wanted of [clone]: a value that stands for the same data
    through objects that did not exist, the existing objects being what
    they were, and no function having been called. *)
Definition cloned (d : data) (s : state) (v' : value) (s' : state) : Prop :=
  repr (length (heap s)) (heap s') v' d
  /\ extends (heap s) (heap s') /\ calls s' = calls s.

Definition node_data (arr : bool) (len : N) (fs : list (string * data)) : data :=
  if arr then DArray len fs else DObject fs.

(** The facts [repr] and [plain_data] give about an array or an object. *)
Definition node_facts (h0 : list object) (arr : bool) (l : loc) (o : object)
           (len : N) (fs : list (string * data)) : Prop :=
  h0 !! l = Some o
  /\ kind o = (if arr then KArray len else KPlain)
  /\ proto o = Some (proto_of arr)
  /\ (arr = true -> len = length_of (map fst (props o)))
  /\ fields_of (repr 0 h0) (props o) fs
  /\ (forall k, In k (map fst fs) ->
                find_prop h0 (proto_of arr) k = None
                /\ (arr = true -> k <> "length"))
  /\ (arr = true ->
      forall k, In k (index_keys len) -> find_prop h0 ArrayPrototype k = None)
  /\ find_prop h0 (proto_of arr) "cloneNode" = None
  /\ not_node fs.

(** ** Trees of plain objects *)

(** A plain object at a location with the trees under its keys, or a leaf:
    a primitive value or a function. *)
Inductive tree : Type :=
| TLeaf (v : value)
| TNode (l : loc) (kids : list (string * tree)).

Definition root (t : tree) : value :=
  match t with
  | TLeaf v => v
  | TNode l _ => VRef l
  end.

Definition entry (kt : string * tree) : string * prop :=
  (fst kt, mkProp (root (snd kt)) true).

Fixpoint locs (t : tree) : list loc :=
  match t with
  | TLeaf _ => []
  | TNode l kids => l :: flat_map (fun kt => locs (snd kt)) kids
  end.

Fixpoint tree_keys (t : tree) : list string :=
  match t with
  | TLeaf _ => []
  | TNode _ kids => flat_map (fun kt => fst kt :: tree_keys (snd kt)) kids
  end.

Fixpoint depth (t : tree) : nat :=
  match t with
  | TLeaf _ => 0
  | TNode _ kids => S (fold_right (fun kt m => Nat.max (depth (snd kt)) m) 0 kids)
  end.

(** The heap holds the tree. *)
Fixpoint shaped (h : list object) (t : tree) : Prop :=
  match t with
  | TLeaf v => is_leaf h v
  | TNode l kids =>
      h !! l = Some (mkObject KPlain (Some ObjectPrototype) (map entry kids))
      /\ List.NoDup (map fst kids)
      /\ all_fields (fun _ t' => shaped h t') kids
  end.

(** [typeof v === 'object'] and [v === undefined], on trees *)
Definition object_typed (t : tree) : bool :=
  match t with
  | TNode _ _ | TLeaf VNull => true
  | TLeaf _ => false
  end.

Definition undefined_tree (t : tree) : bool :=
  match t with
  | TLeaf VUndef => true
  | _ => false
  end.

(** The deep merge as the specification words it.  The value under a key
    of [b], where [b] has [tb] and [a] had [old]: if the key is present in
    [a] and both values are object-typed, the merge recurses; otherwise
    the value of [a] is overwritten exactly when it is undefined or the
    value of [b] is not. *)
Definition overlay (recur : tree -> tree -> option tree)
           (old : option tree) (tb : tree) : option tree :=
  match old with
  | Some ta =>
      if object_typed ta && object_typed tb then recur ta tb
      else if undefined_tree ta || negb (undefined_tree tb) then Some tb
           else Some ta
  | None => Some tb
  end.

Definition merge_key (recur : tree -> tree -> option tree)
           (kids : list (string * tree)) (k : string) (tb : tree)
  : option (list (string * tree)) :=
  option_map (fun t => put k t (fun _ => t) kids)
             (overlay recur (assoc k kids) tb).

Fixpoint merge_kids (recur : tree -> tree -> option tree)
         (kids bkids : list (string * tree)) : option (list (string * tree)) :=
  match bkids with
  | [] => Some kids
  | (k, tb) :: bkids' =>
      match merge_key recur kids k tb with
      | Some kids' => merge_kids recur kids' bkids'
      | None => None
      end
  end.

(** The recursively merged tree, the keys of [b] taken in order; [None]
    where the rule has no answer: the recursion would enter [null]. *)
Fixpoint merge (a b : tree) {struct b} : option tree :=
  match b with
  | TLeaf _ => None
  | TNode _ bkids =>
      match a with
      | TNode la akids =>
          option_map (TNode la)
            ((fix go (kids bs : list (string * tree)) {struct bs} :=
                match bs with
                | [] => Some kids
                | (k, tb) :: bs' =>
                    match merge_key (fun ta _ => merge ta tb) kids k tb with
                    | Some kids' => go kids' bs'
                    | None => None
                    end
                end) akids bkids)
      | TLeaf VNull =>
          match bkids with
          | [] => Some a
          | _ :: _ => None
          end
      | TLeaf _ => None
      end
  end.

(** The objects outside [m] are as they were, those in [m] of the kind
    they were. *)
Definition frame (m : list loc) (h h' : list object) : Prop :=
  forall l o, h !! l = Some o ->
    exists o', h' !! l = Some o' /\ kind o' = kind o /\ (~ In l m -> o' = o).

(** Two trees of the heap that share no object, the first one without an
    object that occurs twice; [Object.prototype] is [op] and has no
    property named as a key of the second. *)
Definition apart (op : object) (ta tb : tree) (s : state) : Prop :=
  heap s !! ObjectPrototype = Some op
  /\ proto op = None
  /\ (forall k, In k (tree_keys tb) -> own_prop op k = None)
  /\ shaped (heap s) ta
  /\ shaped (heap s) tb
  /\ List.NoDup (locs ta)
  /\ (forall l, In l (locs ta) -> ~ In l (locs tb)).

(** [ta] has become [t] in place, and nothing else has changed. *)
Definition merged (ta tb t : tree) (s : state) (v : value) (s' : state) : Prop :=
  v = root ta
  /\ root t = root ta
  /\ shaped (heap s') t
  /\ (forall l, In l (locs t) -> In l (locs ta) \/ In l (locs tb))
  /\ frame (locs ta) (heap s) (heap s')
  /\ calls s' = calls s.

(** The state of [deepUpdate] on the object at [la], that had [akids], and
    [tb], begun in [s0], when the object has [acc] and the keys of [rest]
    are still to be visited. *)
Definition updating (op : object) (la : loc) (akids : list (string * tree))
           (tb : tree) (s0 : state) (acc rest : list (string * tree))
           (s : state) : Prop :=
  heap s !! ObjectPrototype = Some op
  /\ heap s !! la = Some (mkObject KPlain (Some ObjectPrototype) (map entry acc))
  /\ List.NoDup (map fst acc)
  /\ all_fields (fun _ t => shaped (heap s) t) acc
  /\ (forall k t l, In (k, t) acc -> In l (locs t) ->
        In l (locs tb) \/ exists t0, In (k, t0) akids /\ In l (locs t0))
  /\ (forall k, In k (map fst rest) -> assoc k acc = assoc k akids)
  /\ frame (locs (TNode la akids)) (heap s0) (heap s)
  /\ calls s = calls s0.

(** ** A standard heap *)

Definition hidden (v : value) : prop := mkProp v false.
Definition shown (v : value) : prop := mkProp v true.

(** An object literal [{k1: v1, ...}] *)
Definition plain (kvs : list (string * value)) : object :=
  mkObject KPlain (Some ObjectPrototype) (map (fun kv => (fst kv, shown (snd kv))) kvs).

(** An array literal without holes *)
Definition array_of (vs : list value) : object :=
  mkObject (KArray (N.of_nat (length vs))) (Some ArrayPrototype)
           (map (fun iv => (string_of_N (N.of_nat (fst iv)), shown (snd iv)))
                (combine (seq 0 (length vs)) vs)).

(** A small realm for the examples: [Object.prototype],
    [Function.prototype], [Object], [Array.prototype], [Date.prototype],
    [RegExp.prototype] and three methods of [Object.prototype].  Of the
    properties of the prototypes only those listed are present; the
    examples use no other. *)
Definition intrinsics : list object :=
  [ mkObject KPlain None
      [("constructor", hidden (VRef ObjectConstructor));
       ("toString", hidden (VRef 6));
       ("valueOf", hidden (VRef 7));
       ("hasOwnProperty", hidden (VRef 8))];
    mkObject (KFunction (FUser 0)) (Some ObjectPrototype) [];
    mkObject (KFunction FObject) (Some FunctionPrototype)
      [("prototype", hidden (VRef ObjectPrototype))];
    mkObject (KArray 0) (Some ObjectPrototype) [];
    mkObject KPlain (Some ObjectPrototype) [];
    mkObject KPlain (Some ObjectPrototype) [];
    mkObject (KFunction (FUser 1)) (Some FunctionPrototype) [];
    mkObject (KFunction (FUser 2)) (Some FunctionPrototype) [];
    mkObject (KFunction (FUser 3)) (Some FunctionPrototype) [] ].

Definition initial (objs : list object) : state :=
  mkState (intrinsics ++ objs) [].

(** The state in which the function at [l] starts running when it is
    called with [args]. *)
Definition called (s : state) (l : loc) (args : list value) : state :=
  mkState (heap s) (calls s ++ [mkCall l VUndef args]).

(** *** Functions and lookups for the examples *)

(** Modelled from the spec: the dotted-path lookup of [getValue] (package
    get-value, which is not part of the sources): the path is cut at its
    dots and followed property by property; the result is [undefined] as
    soon as a step finds no property. *)
Fixpoint dotted_from (h : list object) (v : value) (seg path : string) : value :=
  match path with
  | EmptyString =>
      match v with
      | VRef l =>
          match find_prop h l seg with
          | Some p => pval p
          | None => VUndef
          end
      | _ => VUndef
      end
  | String c rest =>
      if Ascii.eqb c "."
      then match v with
           | VRef l =>
               match find_prop h l seg with
               | Some p => dotted_from h (pval p) EmptyString rest
               | None => VUndef
               end
           | _ => VUndef
           end
      else dotted_from h v (seg +:+ String c EmptyString) rest
  end.

Definition dotted_get (h : list object) (v : value) (path : string) : value :=
  dotted_from h v EmptyString path.

(** Function 10 answers every name but [nothing] with the name between
    angle brackets and [nothing] with [undefined]; function 11 throws;
    the other functions return [undefined]. *)
Definition sample_call (f : func) (this : value) (args : list value) : M value :=
  match f, args with
  | FUser 10, VStr name :: _ =>
      if String.eqb name "nothing" then ret VUndef
      else ret (VStr ("<" +:+ name +:+ ">"))
  | FUser 11, _ => throw (Thrown (VStr "no"))
  | _, _ => ret VUndef
  end.

Definition sample_construct (f : func) (args : list value) : M value :=
  throw TypeError.


(** Every object is written as a plain object is; the examples convert
    no number beyond the safe integers. *)
Definition sample_to_string (v : value) : M string := ret "[object Object]".

(** [{bar: 'someurl', baz: {foo: 42}, callback: f}] at 9, where [f], at
    11, is function 10. *)
Definition fill_case : state :=
  initial [ plain [("bar", VStr "someurl"); ("baz", VRef 10); ("callback", VRef 11)];
            plain [("foo", VNum 42)];
            mkObject (KFunction (FUser 10)) (Some FunctionPrototype) [] ].

(** [{callback: 5, k: 'v'}] at 9 *)
Definition number_callback_case : state :=
  initial [ plain [("callback", VNum 5); ("k", VStr "v")] ].

(** The same mapping without the callback. *)
Definition plain_fill_case : state :=
  initial [ plain [("bar", VStr "someurl"); ("baz", VRef 10)];
            plain [("foo", VNum 42)] ].

(** [{a: 1, b: [1, {c: 2}], d: new Date(5), e: /x/g, f: function}] at 9 *)
Definition clone_case : state :=
  initial [ plain [("a", VNum 1); ("b", VRef 10); ("d", VRef 12); ("e", VRef 13);
                   ("f", VRef 14)];
            array_of [VNum 1; VRef 11];
            plain [("c", VNum 2)];
            mkObject (KDate 5) (Some DatePrototype) [];
            mkObject (KRegExp "x" "g") (Some RegExpPrototype)
                     [("lastIndex", hidden (VNum 3))];
            mkObject (KFunction (FUser 10)) (Some FunctionPrototype) [] ].

(** [{nodeType: 1, cloneNode: 1}] at 9 *)
Definition node_like_case : state :=
  initial [ plain [("nodeType", VNum 1); ("cloneNode", VNum 1)] ].


(** [[7, , ]], an array of length 3 whose last two indices are holes, at 9 *)
Definition sparse_case : state :=
  initial [ mkObject (KArray 3) (Some ArrayPrototype) [("0", shown (VNum 7))] ].

(** The data of [clone_case]. *)
Definition clone_case_data : data :=
  DObject [ ("a", DLeaf (VNum 1));
            ("b", DArray 2 [("0", DLeaf (VNum 1));
                            ("1", DObject [("c", DLeaf (VNum 2))])]);
            ("d", DDate 5);
            ("e", DRegExp "x" "g");
            ("f", DLeaf (VRef 14)) ].

(** [a = {p: 1, x: {q: 1}}] at 9 and [b = {p: 2, x: null, y: 5}] at 11. *)
Definition null_case : state :=
  initial [ plain [("p", VNum 1); ("x", VRef 10)];
            plain [("q", VNum 1)];
            plain [("p", VNum 2); ("x", VNull); ("y", VNum 5)] ].

(** The same heap once [a.p] has been overwritten. *)
Definition null_case_after : state :=
  initial [ plain [("p", VNum 2); ("x", VRef 10)];
            plain [("q", VNum 1)];
            plain [("p", VNum 2); ("x", VNull); ("y", VNum 5)] ].

(** [a = {p: 1, x: {q: 1, r: 2}, u: undefined, n: null}] at 9 and
    [b = {p: undefined, x: {q: 5, s: 6}, u: 7, y: {z: 1}, n: {}}] at 11. *)
Definition merge_case : state :=
  initial [ plain [("p", VNum 1); ("x", VRef 10); ("u", VUndef); ("n", VNull)];
            plain [("q", VNum 1); ("r", VNum 2)];
            plain [("p", VUndef); ("x", VRef 12); ("u", VNum 7); ("y", VRef 13);
                   ("n", VRef 14)];
            plain [("q", VNum 5); ("s", VNum 6)];
            plain [("z", VNum 1)];
            plain [] ].

Definition merge_case_a : tree :=
  TNode 9 [ ("p", TLeaf (VNum 1));
            ("x", TNode 10 [("q", TLeaf (VNum 1)); ("r", TLeaf (VNum 2))]);
            ("u", TLeaf VUndef);
            ("n", TLeaf VNull) ].

Definition merge_case_b : tree :=
  TNode 11 [ ("p", TLeaf VUndef);
             ("x", TNode 12 [("q", TLeaf (VNum 5)); ("s", TLeaf (VNum 6))]);
             ("u", TLeaf (VNum 7));
             ("y", TNode 13 [("z", TLeaf (VNum 1))]);
             ("n", TNode 14 []) ].

(** [{p: 1, x: {q: 5, r: 2, s: 6}, u: 7, n: null, y: b.y}] *)
Definition merge_case_result : tree :=
  TNode 9 [ ("p", TLeaf (VNum 1));
            ("x", TNode 10 [("q", TLeaf (VNum 5)); ("r", TLeaf (VNum 2));
                            ("s", TLeaf (VNum 6))]);
            ("u", TLeaf (VNum 7));
            ("n", TLeaf VNull);
            ("y", TNode 13 [("z", TLeaf (VNum 1))]) ].

(** [null_case] as two trees *)
Definition null_case_a : tree :=
  TNode 9 [("p", TLeaf (VNum 1)); ("x", TNode 10 [("q", TLeaf (VNum 1))])].

Definition null_case_b : tree :=
  TNode 11 [("p", TLeaf (VNum 2)); ("x", TLeaf VNull); ("y", TLeaf (VNum 5))].


(** [a = {name: 'a', self: a}] at 9 *)
Definition cyclic_case : state :=
  initial [ plain [("name", VStr "a"); ("self", VRef 9)] ].

(** A date at 9 that has a [nodeType] and, at 10, a [cloneNode] that is
    function 10 *)
Definition node_date_case : state :=
  initial [ mkObject (KDate 5) (Some DatePrototype)
                     [("nodeType", shown (VNum 1)); ("cloneNode", shown (VRef 10))];
            mkObject (KFunction (FUser 10)) (Some FunctionPrototype) [] ].

(** A heap whose [Object.prototype] has been given the enumerable
    property [each]; [{a: 1}] at 9 and [{each: 2}] at 10 *)
Definition extended_case : state :=
  mkState (<[ObjectPrototype :=
               mkObject KPlain None
                 [("constructor", hidden (VRef ObjectConstructor));
                  ("each", shown (VNum 1))]]> intrinsics
           ++ [ plain [("a", VNum 1)]; plain [("each", VNum 2)] ])
          [].


(** ** The [create] command *)

Module Create.

Record asset : Type := mkAsset { browser_download_url : string }.

Record GithubRelease : Type := mkRelease {
  tag_name : string;
  prerelease : bool;
  assets : list asset
}.

(** What the command reads of an HTTP response; [json] is [None] when
    the body is not a release listing. *)
Record response : Type := mkResponse {
  ok : bool;
  content_type : option string;
  json : option (list GithubRelease)
}.

Record flags : Type := mkFlags {
  force : bool;
  listVersions : bool;
  url : option string;
  tag : option string
}.

(** How the command ends when it does not return: [this.error] or
    [this.exit] with an explicit code, [this.error] without an [exit]
    option (the framework's default status), or an exception that
    nothing of the command catches. *)
Inductive exit : Type :=
| ExitCode (n : Z)
| ErrorDefault
| Uncaught.

Definition releases_url : string :=
  "https://api.github.com/repos/GMOD/jbrowse-components/releases".

(** A flag of type [string | undefined] used as a condition. *)
Definition given (o : option string) : bool :=
  match o with
  | Some s => negb (String.eqb s "")
  | None => false
  end.

(** What [catch] reads of the error it is given, the flag
    [error.parse.output.flags.listVersions] ([None] when [error.parse] is
    falsy), and how the error ends the command when it is thrown. *)
Record thrown : Type := mkThrown {
  parse_listVersions : option bool;
  status : exit;
  message : option string
}.

(** What the handler of the unzip stream reads of an entry of the
    archive. *)
Record zip_entry : Type := mkEntry {
  path : string;
  type : string
}.

Section Command.

(** The file system and the network are outside the program. *)
Variable FS : Type.
(** [fsPromises.mkdir(p, { recursive: true })]; [None] when it rejects *)
Variable mkdir : string -> FS -> option FS.
(** [fsPromises.readdir(p)]; [None] when it rejects *)
Variable readdir : string -> FS -> option (list string).
(** [fetch(u)]; [None] when the request itself fails *)
Variable fetch : string -> option response.
(** [path.join(a, b)] and [path.dirname(p)] *)
Variable path_join : string -> string -> string.
Variable path_dirname : string -> string.
(** [entry.pipe(fs.createWriteStream(p))]: the entry written at [p];
    [None] when the file cannot be written *)
Variable write : string -> zip_entry -> FS -> option FS.
(** [fs.unlink(p, () => {})]: the file system it leaves; the empty
    callback drops a failure *)
Variable unlink : string -> FS -> FS.

Record world : Type := mkWorld {
  fs : FS;
  requests : list string;
  output : list string
}.

Inductive outcome (A : Type) : Type :=
| Returned (a : A) (w : world)
| Exited (e : exit) (message : option string) (w : world).

Arguments Returned {A} a w.
Arguments Exited {A} e message w.

Definition C (A : Type) : Type := world -> outcome A.

Definition creturn {A} (a : A) : C A := fun w => Returned a w.

Definition cbind {A B} (m : C A) (f : A -> C B) : C B :=
  fun w =>
    match m w with
    | Returned a w' => f a w'
    | Exited e msg w' => Exited e msg w'
    end.

Notation "x <~ m ;; k" := (cbind m (fun x => k))
  (at level 100, m at next level, right associativity).
Notation "m ~~ k" := (cbind m (fun _ => k))
  (at level 100, right associativity).

(** [this.error(message, { exit: n })] *)
Definition error_exit {A} (message : string) (n : Z) : C A :=
  fun w => Exited (ExitCode n) (Some message) w.

(** [this.error(message)] *)
Definition error {A} (message : string) : C A :=
  fun w => Exited ErrorDefault (Some message) w.

(** [this.error(error)] for a caught [error] *)
Definition error_caught {A} : C A :=
  fun w => Exited ErrorDefault None w.

(** an exception nobody catches *)
Definition uncaught {A} : C A :=
  fun w => Exited Uncaught None w.

(** [this.exit()] *)
Definition exit0 {A} : C A :=
  fun w => Exited (ExitCode 0) None w.

(** [this.log(line)] *)
Definition log (line : string) : C unit :=
  fun w => Returned tt (mkWorld (fs w) (requests w) (output w ++ [line])).

(** [try { m } catch (error) { this.error(error) }] *)
Definition try_or_error {A} (m : C A) : C A :=
  fun w =>
    match m w with
    | Returned a w' => Returned a w'
    | Exited _ _ w' => Exited ErrorDefault None w'
    end.

(** [await fetch(u)]; a failed request is an exception *)
Definition do_fetch (u : string) : C response :=
  fun w =>
    let w' := mkWorld (fs w) (requests w ++ [u]) (output w) in
    match fetch u with
    | Some r => Returned r w'
    | None => Exited Uncaught None w'
    end.

Definition do_mkdir (p : string) : C unit :=
  fun w =>
    match mkdir p (fs w) with
    | Some fs' => Returned tt (mkWorld fs' (requests w) (output w))
    | None => Exited Uncaught None w
    end.

Definition do_readdir (p : string) : C (list string) :=
  fun w =>
    match readdir p (fs w) with
    | Some l => Returned l w
    | None => Exited Uncaught None w
    end.

(** [try { m } catch (error) { handler }] *)
Definition try_catch {A} (m : C A) (handler : C A) : C A :=
  fun w =>
    match m w with
    | Returned a w' => Returned a w'
    | Exited _ _ w' => handler w'
    end.

Definition checkPath (userPath : string) : C unit :=
  allFiles <~ try_catch (do_readdir userPath)
                        (error_exit "Directory does not exist" 20) ;;
  if (0 <? length allFiles)%nat then
    error_exit
      (userPath +:+ " This directory has existing files and could cause conflicts with create. Please choose another directory or use the force flag to overwrite existing files")
      10
  else creturn tt.

Definition fetchGithubVersions : C (list GithubRelease) :=
  response <~ do_fetch releases_url ;;
  (if negb (ok response) then error "Failed to fetch version from server"
   else creturn tt) ~~
  jb2releases <~ match json response with
                 | Some l => creturn l
                 | None => uncaught
                 end ;;
  let versions :=
    List.filter (fun release => String.prefix "@gmod/jbrowse-web" (tag_name release))
           jb2releases in
  let nonprereleases :=
    List.filter (fun release => Bool.eqb (prerelease release) false) versions in
  creturn (if (length nonprereleases =? 0)%nat then jb2releases
           else nonprereleases).

Definition getTagOrLatest (tag : option string) : C string :=
  response <~ fetchGithubVersions ;;
  let versions :=
    if given tag
    then find (fun version =>
                 String.eqb (tag_name version)
                            (match tag with Some t => t | None => "" end))
              response
    else nth_error response 0 in
  match versions with
  | Some v =>
      match assets v with
      | a :: _ => creturn (browser_download_url a)
      | [] => uncaught
      end
  | None =>
      error_exit
        "Could not find version specified. Use --listVersions to see all available versions"
        40
  end.

(** [response.body.pipe(unzip.Parse()).on('entry', ...).on('error', ...)
    .on('close', ...)]: the stream is set up with its handlers
    ([on_entry], [on_error] and [on_close] below) and left to itself;
    nothing is read, written or printed before [run] resolves. *)
Definition start_stream (argsPath : string) (response : response) : C unit :=
  creturn tt.

Definition run (argsPath : string) (runFlags : flags) : C unit :=
  (if listVersions runFlags then
     try_or_error
       (versions <~ fetchGithubVersions ;;
        log ("All JBrowse versions: "
             +:+ String.concat ", " (map tag_name versions)) ~~
        exit0)
   else creturn tt) ~~
  try_or_error (do_mkdir argsPath) ~~
  (if negb (force runFlags) then checkPath argsPath else creturn tt) ~~
  locationUrl <~ (if given (url runFlags)
                  then creturn (match url runFlags with
                                | Some u => u
                                | None => ""
                                end)
                  else getTagOrLatest (tag runFlags)) ;;
  response <~ try_or_error (do_fetch locationUrl) ;;
  (if negb (ok response)
   then error_exit "Failed to fetch JBrowse2 from server" 50
   else creturn tt) ~~
  (if given (url runFlags)
      && negb (bool_decide (content_type response = Some "application/zip"))
      && negb (bool_decide (content_type response = Some "application/octet-stream"))
   then error "The URL provided does not seem to be a JBrowse installation URL"
   else creturn tt) ~~
  start_stream argsPath response.

(** *** The handlers of the unzip stream

    They run from the stream, after [run] has resolved: what
    [this.error] throws in one of them reaches no [catch] of the
    command. *)
Definition in_handler {A} (m : C A) : C A :=
  fun w =>
    match m w with
    | Returned a w' => Returned a w'
    | Exited _ msg w' => Exited Uncaught msg w'
    end.

Definition do_write (p : string) (e : zip_entry) : C unit :=
  fun w =>
    match write p e (fs w) with
    | Some fs' => Returned tt (mkWorld fs' (requests w) (output w))
    | None => Exited Uncaught None w
    end.

Definition do_unlink (p : string) : C unit :=
  fun w => Returned tt (mkWorld (unlink p (fs w)) (requests w) (output w)).

(** [.on('entry', async entry => ...)] *)
Definition on_entry (argsPath : string) (e : zip_entry) : C unit :=
  in_handler
    (if String.eqb (type e) "File" then
       try_or_error
         (let location := path_join argsPath (path e) in
          do_mkdir (path_dirname location) ~~
          do_write (path_join argsPath (path e)) e)
     else creturn tt).

(** [.on('error', err => ...)]; [err] is the error as the message
    shows it *)
Definition on_error (argsPath : string) (err : string) : C unit :=
  in_handler
    (do_unlink argsPath ~~
     error ("Failed to download JBrowse 2 with " +:+ err
            +:+ ". Please try again later")).

(** [.on('close', () => ...)] *)
Definition on_close (argsPath : string) : C unit :=
  log ("Your JBrowse 2 setup has been created at " +:+ argsPath).

(** The [catch] method of the command. *)
Definition catch (error : thrown) : C unit :=
  (if match parse_listVersions error with
      | Some b => b
      | None => false
      end
   then
     versions <~ fetchGithubVersions ;;
     log ("All JBrowse versions: "
          +:+ String.concat ", " (map tag_name versions)) ~~
     exit0
   else creturn tt) ~~
  (fun w => Exited (status error) (message error) w).

(** The world in which a computation ended. *)
Definition final {A} (o : outcome A) : world :=
  match o with
  | Returned _ w => w
  | Exited _ _ w => w
  end.

End Command.

Arguments Returned {FS A} a w.
Arguments Exited {FS A} e message w.
Arguments mkWorld {FS} fs requests output.
Arguments fs {FS} w.
Arguments requests {FS} w.
Arguments output {FS} w.
Arguments creturn {FS A} a w.
Arguments cbind {FS A B} m f w.
Arguments try_or_error {FS A} m w.
Arguments try_catch {FS A} m handler w.
Arguments error_exit {FS A} message n w.
Arguments error {FS A} message w.
Arguments exit0 {FS A} w.
Arguments uncaught {FS A} w.
Arguments final {FS A} o.
Arguments log {FS} line w.
Arguments in_handler {FS A} m w.

(** A release of the jbrowse-web family that is not a prerelease. *)
Definition web_release (r : GithubRelease) : bool :=
  String.prefix "@gmod/jbrowse-web" (tag_name r) && negb (prerelease r).

Definition nonempty_message (userPath : string) : string :=
  userPath +:+ " This directory has existing files and could cause conflicts with create. Please choose another directory or use the force flag to overwrite existing files".

End Create.

(** ** A concrete disk and network *)

Module Disk.

(** A directory with its entries, a directory that cannot be read, or a
    regular file. *)
Inductive node : Type :=
| Dir (entries : list string)
| Locked
| File.

Definition disk := list (string * node).

(** [mkdir -p]: nothing happens when the directory exists, a missing
    directory is created empty, a file in the way is an error. *)
Definition mkdir (p : string) (d : disk) : option disk :=
  match assoc p d with
  | Some File => None
  | Some _ => Some d
  | None => Some (d ++ [(p, Dir [])])
  end.

Definition readdir (p : string) (d : disk) : option (list string) :=
  match assoc p d with
  | Some (Dir l) => Some l
  | _ => None
  end.

(** [unlink] removes a regular file and fails on anything else. *)
Definition unlink (p : string) (d : disk) : disk :=
  match assoc p d with
  | Some File => List.filter (fun kn => negb (String.eqb (fst kn) p)) d
  | _ => d
  end.

Definition release (t : string) (pre : bool) (u : string) : Create.GithubRelease :=
  Create.mkRelease t pre [Create.mkAsset u].

Definition listing : list Create.GithubRelease :=
  [ release "@gmod/jbrowse-web@v0.0.2" false "https://example.org/web-0.0.2.zip";
    release "@gmod/jbrowse-desktop@v0.0.2" false "https://example.org/desktop-0.0.2.zip";
    release "@gmod/jbrowse-web@v0.0.3-beta" true "https://example.org/web-0.0.3-beta.zip";
    release "@gmod/jbrowse-web@v0.0.1" false "https://example.org/web-0.0.1.zip" ].

(** A network that serves [releases] as the release listing, archives
    under [example.org], a web page under [example.com] and an error
    page anywhere else. *)
Definition serve (releases : list Create.GithubRelease) (u : string)
  : option Create.response :=
  if String.eqb u Create.releases_url
  then Some (Create.mkResponse true (Some "application/json") (Some releases))
  else if String.prefix "https://example.org/" u
  then Some (Create.mkResponse true (Some "application/octet-stream") None)
  else if String.prefix "https://example.com/" u
  then Some (Create.mkResponse true (Some "text/html") None)
  else Some (Create.mkResponse false (Some "text/html") None).

Definition run (releases : list Create.GithubRelease) :=
  Create.run disk mkdir readdir (serve releases).

Definition start (d : disk) : Create.world disk := Create.mkWorld d [] [].

(** A listing with prereleases only, and one whose only archive is served
    as a web page. *)
Definition early_listing : list Create.GithubRelease :=
[ release "@gmod/jbrowse-web@v0.0.1-beta" true "https://example.org/web-0.0.1-beta.zip";
  release "@gmod/jbrowse-desktop@v0.0.1" false "https://example.org/desktop-0.0.1.zip" ].


End Disk.

(** * Properties *)

(** ** The monad and the loops *)

Lemma bind_ok {A B} (m : M A) (f : A -> M B) (s s' : state) (a : A) :
  m s = Ok a s' -> bind m f s = f a s'.
Proof. intros H. unfold bind. rewrite H. reflexivity. Qed.

Lemma bind_throw {A B} (m : M A) (f : A -> M B) (s s' : state) (e : exn) :
  m s = Throw e s' -> bind m f s = Throw e s'.
Proof. intros H. unfold bind. rewrite H. reflexivity. Qed.

Lemma and_then_true (m1 m2 : M bool) (s s' : state) :
  m1 s = Ok true s' -> (m1 &&& m2) s = m2 s'.
Proof. intros H. unfold and_then. rewrite (bind_ok _ _ _ _ _ H). reflexivity. Qed.

Lemma and_then_false (m1 m2 : M bool) (s s' : state) :
  m1 s = Ok false s' -> (m1 &&& m2) s = Ok false s'.
Proof. intros H. unfold and_then. rewrite (bind_ok _ _ _ _ _ H). reflexivity. Qed.

Lemma or_else_true (m1 m2 : M bool) (s s' : state) :
  m1 s = Ok true s' -> (m1 ||| m2) s = Ok true s'.
Proof. intros H. unfold or_else. rewrite (bind_ok _ _ _ _ _ H). reflexivity. Qed.

Lemma or_else_false (m1 m2 : M bool) (s s' : state) :
  m1 s = Ok false s' -> (m1 ||| m2) s = m2 s'.
Proof. intros H. unfold or_else. rewrite (bind_ok _ _ _ _ _ H). reflexivity. Qed.

Lemma typeof_is_ok (m : M value) (t : string) (s s' : state) (v : value) :
  m s = Ok v s' -> typeof_is m t s = Ok (String.eqb (typeof (heap s') v) t) s'.
Proof. intros H. unfold typeof_is. rewrite H. reflexivity. Qed.

Lemma for_of_app {A} (xs ys : list A) (body : A -> M unit) (s : state) :
  for_of (xs ++ ys) body s =
  match for_of xs body s with
  | Ok _ s' => for_of ys body s'
  | Throw e s' => Throw e s'
  | Diverge => Diverge
  end.
Proof.
  revert s. induction xs as [|x xs IH]; intros s; simpl; [reflexivity|].
  unfold bind. destruct (body x s) as [[] s'| |]; [apply IH|reflexivity|reflexivity].
Qed.

(** ** deepUpdate *)

(** C9. [deepUpdate] has an error branch.  Let [k] be a key of [b] such
    that, once the keys before it have been processed, [k] is in [a],
    [b[k]] is [null] and [a[k]] is an object: the recursive call on
    [a[k]] and [null] throws a [TypeError] when it enumerates the keys of
    [null], and so does the whole call, in the state reached after the
    earlier keys, which keeps their updates of [a]. *)
Theorem deepUpdate_null_throws (fuel : nat) (a b : value) (st st1 : state)
        (pre post : list string) (k : string) (la : loc) :
  object_keys b st = Ok (pre ++ k :: post) st ->
  for_of pre (deepUpdate_body (deepUpdate (S fuel)) a b) st = Ok tt st1 ->
  has_property k a st1 = Ok true st1 ->
  get b k st1 = Ok VNull st1 ->
  get a k st1 = Ok (VRef la) st1 ->
  typeof (heap st1) (VRef la) = "object" ->
  deepUpdate (S fuel) (VRef la) VNull st1 = Throw TypeError st1
  /\ deepUpdate (S (S fuel)) a b st = Throw TypeError st1.
Proof.
  intros Hkeys Hpre Hin Hb Ha Hty.
  assert (Hrec : deepUpdate (S fuel) (VRef la) VNull st1 = Throw TypeError st1)
    by reflexivity.
  split; [exact Hrec|].
  change (deepUpdate (S (S fuel)) a b)
    with (ks <- object_keys b ;;
          for_of ks (deepUpdate_body (deepUpdate (S fuel)) a b) ;;; ret a).
  rewrite (bind_ok _ _ _ _ _ Hkeys).
  apply bind_throw. rewrite for_of_app, Hpre.
  change (for_of (k :: post) ?body)
    with (body k ;;; for_of post body).
  apply bind_throw.
  unfold deepUpdate_body.
  assert (Hc : (has_property k a &&& typeof_is (get b k) "object"
                &&& typeof_is (get a k) "object") st1 = Ok true st1).
  { rewrite (and_then_true _ _ st1 st1).
    - rewrite (typeof_is_ok _ _ _ _ _ Ha), Hty. reflexivity.
    - rewrite (and_then_true _ _ _ _ Hin).
      rewrite (typeof_is_ok _ _ _ _ _ Hb). reflexivity. }
  rewrite (bind_ok _ _ _ _ _ Hc).
  rewrite (bind_ok _ _ _ _ _ Ha), (bind_ok _ _ _ _ _ Hb).
  apply bind_throw. exact Hrec.
Qed.

Lemma deepUpdate_null_throws_witness :
  deepUpdate 2 (VRef 9) (VRef 11) null_case = Throw TypeError null_case_after
  /\ get (VRef 9) "p" null_case = Ok (VNum 1) null_case
  /\ get (VRef 9) "p" null_case_after = Ok (VNum 2) null_case_after
  /\ get (VRef 9) "y" null_case_after = Ok VUndef null_case_after.
Proof.
  split; [|repeat split].
  apply (proj2 (deepUpdate_null_throws 0 (VRef 9) (VRef 11)
                  null_case null_case_after ["p"] ["y"] "x" 10
                  eq_refl eq_refl eq_refl eq_refl eq_refl eq_refl)).
Defined.

(** C1, as stated for every pair of objects, fails: on
    [a = {p: 1, x: {q: 1}}] and [b = {p: 2, x: null, y: 5}] the call never
    returns [a], whatever the fuel. *)
Lemma deepUpdate_not_always_returning :
  ~ (forall (st : state) (la lb : loc),
       is_Some (heap st !! la) -> is_Some (heap st !! lb) ->
       exists fuel st', deepUpdate fuel (VRef la) (VRef lb) st = Ok (VRef la) st').
Proof.
  intros H.
  destruct (H null_case 9 11) as (fuel & st' & Hrun).
  - eexists; reflexivity.
  - eexists; reflexivity.
  - destruct fuel as [|[|fuel]]; discriminate Hrun.
Qed.

(** ** fillTemplate *)

Lemma append_cons (c : ascii) (a b : string) :
  String c a +:+ b = String c (a +:+ b).
Proof. reflexivity. Qed.

Lemma append_nil (b : string) : EmptyString +:+ b = b.
Proof. reflexivity. Qed.

Lemma append_assoc (a b c : string) : (a +:+ b) +:+ c = a +:+ (b +:+ c).
Proof.
  induction a as [|x a IH]; [reflexivity|].
  rewrite !append_cons. f_equal. exact IH.
Qed.

Lemma span_eq (p : ascii -> bool) (s r rest : string) :
  span p s = (r, rest) -> s = r +:+ rest.
Proof.
  revert r rest. induction s as [|c s IH]; intros r rest; simpl.
  - intros [= <- <-]. reflexivity.
  - destruct (p c).
    + destruct (span p s) as [r' rest']. intros [= <- <-].
      rewrite append_cons. f_equal. apply IH. reflexivity.
    + intros [= <- <-]. reflexivity.
Qed.

Lemma match_placeholder_eq (s var rest : string) :
  match_placeholder s = Some (var, rest) ->
  s = piece_text (Hole var) +:+ rest.
Proof.
  unfold match_placeholder. destruct s as [|c s]; [discriminate|].
  destruct (Ascii.eqb c "{") eqn:Ec.
  2:{ intros H. exfalso. apply Ascii.eqb_neq in Ec.
      destruct c as [[] [] [] [] [] [] [] []]; try discriminate H.
      apply Ec. reflexivity. }
  apply Ascii.eqb_eq in Ec. subst c.
  destruct (span is_var_char s) as [r rest'] eqn:E.
  apply span_eq in E. subst s.
  destruct r as [|c r]; [discriminate|].
  destruct rest' as [|c' rest']; [discriminate|].
  destruct (Ascii.eqb c' "}") eqn:Ec.
  2:{ intros H. exfalso. apply Ascii.eqb_neq in Ec.
      destruct c' as [[] [] [] [] [] [] [] []]; try discriminate H.
      apply Ec. reflexivity. }
  apply Ascii.eqb_eq in Ec. subst c'.
  intros [= <- <-]. unfold piece_text.
  rewrite !append_assoc. reflexivity.
Qed.

Lemma length_append (a b : string) :
  String.length (a +:+ b) = String.length a + String.length b.
Proof.
  induction a as [|c a IH]; [reflexivity|].
  rewrite append_cons. simpl. rewrite IH. reflexivity.
Qed.

Lemma join_pieces (n : nat) (s : string) :
  String.length s < n -> join (map piece_text (pieces_from n s)) = s.
Proof.
  revert s. induction n as [|n IH]; intros s Hn; [lia|].
  destruct s as [|c s]; [reflexivity|].
  cbn [pieces_from].
  destruct (match_placeholder (String c s)) as [[var rest]|] eqn:E.
  - pose proof (match_placeholder_eq _ _ _ E) as Hs.
    cbn [map join fold_right]. fold (join (map piece_text (pieces_from n rest))).
    rewrite IH; [symmetry; exact Hs|].
    rewrite Hs in Hn. rewrite length_append in Hn. simpl in Hn. lia.
  - cbn [map join fold_right piece_text].
    fold (join (map piece_text (pieces_from n s))).
    rewrite IH; [reflexivity|]. simpl in Hn. lia.
Qed.

(** The pieces of a template make up the template. *)
Lemma pieces_template (s : string) : join (map piece_text (pieces s)) = s.
Proof. apply join_pieces. lia. Qed.

Lemma replace_from_pieces (replacer : string -> string -> M string)
      (n : nat) (s : string) (st : state) :
  replace_from n replacer s st = fill_pieces replacer (pieces_from n s) st.
Proof.
  revert s st. induction n as [|n IH]; intros s st; [reflexivity|].
  destruct s as [|c s]; [reflexivity|].
  cbn [replace_from pieces_from].
  destruct (match_placeholder (String c s)) as [[var rest]|]; cbn [fill_pieces].
  - unfold bind. change ("{" +:+ var +:+ "}") with (piece_text (Hole var)).
    destruct (replacer (piece_text (Hole var)) var st); try reflexivity.
    rewrite IH. reflexivity.
  - unfold bind. rewrite IH. reflexivity.
Qed.

Section FillTemplateFacts.

Variable call_fn : func -> value -> list value -> M value.
Variable host_to_string : value -> M string.
Variable getValue : list object -> value -> string -> value.

Local Abbreviation fillTemplate' := (fillTemplate call_fn host_to_string getValue).
Local Abbreviation fill_placeholder' := (fill_placeholder call_fn host_to_string getValue).
Local Abbreviation call_function' := (call_function call_fn).
Local Abbreviation to_string' := (to_string host_to_string).

(** [fillTemplate'] handles the pieces of the template from left to right,
    each placeholder once. *)
Lemma fillTemplate_pieces (template : string) (fillWith : value) (st : state) :
  fillTemplate' template fillWith st =
  fill_pieces (fill_placeholder' fillWith) (pieces template) st.
Proof. apply replace_from_pieces. Qed.

Lemma to_string_literal (v : value) (s : state) :
  literal v = true -> to_string' v s = Ok (literal_text v) s.
Proof. intros H. unfold to_string. rewrite H. reflexivity. Qed.

Lemma state_eta (s : state) : mkState (heap s) (calls s ++ []) = s.
Proof. destruct s. cbn [heap calls]. rewrite app_nil_r. reflexivity. Qed.

Lemma flat_map_holes {B} (log : string -> list B) (ps : list piece) :
  flat_map (fun p => match p with Hole var => log var | Text _ => [] end) ps
  = flat_map log
      (flat_map (fun p => match p with Hole var => [var] | Text _ => [] end) ps).
Proof.
  induction ps as [|[c|var] ps IH]; [reflexivity|exact IH|].
  cbn [flat_map app]. f_equal. exact IH.
Qed.

(** The pieces are handled one after the other, each placeholder once:
    when the replacer leaves the heap [h] as it is, gives [res] for the
    placeholders and logs [log], the outputs and the logs follow the
    pieces. *)
Lemma fill_pieces_run (replacer : string -> string -> M string)
      (h : list object) (res : string -> option string)
      (log : string -> list call) (ps : list piece) :
  (forall var s, In (Hole var) ps -> heap s = h ->
     replacer (piece_text (Hole var)) var s
     = Ok (expand res (Hole var)) (mkState h (calls s ++ log var))) ->
  forall s, heap s = h ->
    fill_pieces replacer ps s
    = Ok (join (map (expand res) ps))
         (mkState h (calls s
                     ++ flat_map (fun p => match p with
                                           | Hole var => log var
                                           | Text _ => []
                                           end) ps)).
Proof.
  induction ps as [|p ps IH]; intros Hstep s Hs.
  - cbn. rewrite <- Hs. rewrite state_eta. reflexivity.
  - assert (Hrest : forall var s, In (Hole var) ps -> heap s = h ->
              replacer (piece_text (Hole var)) var s
              = Ok (expand res (Hole var)) (mkState h (calls s ++ log var)))
      by (intros var s' Hin; apply Hstep; right; exact Hin).
    destruct p as [c|var]; cbn [fill_pieces].
    + rewrite (bind_ok _ _ _ _ _ (IH Hrest s Hs)). reflexivity.
    + rewrite (bind_ok _ _ _ _ _ (Hstep var s (or_introl eq_refl) Hs)).
      rewrite (bind_ok _ _ _ _ _
                 (IH Hrest (mkState h (calls s ++ log var)) eq_refl)).
      cbn [calls flat_map]. rewrite <- app_assoc. reflexivity.
Qed.

Lemma call_function_answers (h : list object) (lf : loc) (name : string)
      (v : value) (s : state) :
  answers call_fn h lf name v -> heap s = h ->
  call_function' (VRef lf) VUndef [VStr name] s
  = Ok v (mkState h (calls s ++ [mkCall lf VUndef [VStr name]])).
Proof.
  intros (o & fn & Ho & Hk & Hcall) Hs. unfold call_function.
  rewrite Hs, Ho, Hk. apply Hcall. reflexivity.
Qed.

Lemma answers_function (h : list object) (lf : loc) (name : string) (v : value) :
  answers call_fn h lf name v -> typeof h (VRef lf) = "function".
Proof.
  intros (o & fn & Ho & Hk & _). cbn [typeof]. rewrite Ho.
  unfold typeof_obj. rewrite Hk. reflexivity.
Qed.

Lemma literal_not_function (h : list object) (v : value) :
  literal v = true -> String.eqb (typeof h v) "function" = false.
Proof. destruct v; try reflexivity. discriminate. Qed.

(** One placeholder, in a heap [h] that the functions called leave as it
    is: the text and the call are those of [replacement] and [function_called]. *)
Lemma fill_placeholder_run (l : loc) (h : list object)
      (answer : loc -> value) (match_ var : string) (s : state) :
  let name := remove_whitespace var in
  let fill := getValue h (VRef l) name in
  let cb := child h l "callback" in
  heap s = h ->
  (truthy cb = false \/ exists lcb, cb = VRef lcb) ->
  (literal fill = true \/ exists lf, fill = VRef lf) ->
  (forall lf, function_called fill cb = Some lf ->
     literal (answer lf) = true /\ answers call_fn h lf name (answer lf)) ->
  fill_placeholder' (VRef l) match_ var s
  = Ok (match replacement fill cb answer with
        | Some t => t
        | None => match_
        end)
       (mkState h (calls s ++ match function_called fill cb with
                              | Some lf => [mkCall lf VUndef [VStr name]]
                              | None => []
                              end)).
Proof.
  intros name fill cb Hs Hcb Hfill Hfun.
  assert (Hget : get (VRef l) "callback" s = Ok cb s)
    by (unfold get, cb, child; rewrite Hs; reflexivity).
  unfold fill_placeholder. rewrite Hs. fold name. fold fill.
  destruct Hfill as [Hlit|[lf Hlf]].
  - destruct (is_undefined fill) eqn:Hu.
    + assert (Hf : fill = VUndef) by (destruct fill; try discriminate; reflexivity).
      revert Hfun. rewrite Hf. cbn [negb function_called replacement]. intros Hfun.
      rewrite (bind_ok _ _ _ _ _ Hget).
      destruct Hcb as [Hfalse|[lcb Hlcb]].
      * rewrite Hfalse. destruct cb; try discriminate Hfalse;
          cbn [function_called]; rewrite <- Hs, state_eta; reflexivity.
      * revert Hget Hfun. rewrite Hlcb. intros Hget Hfun. cbn [truthy].
        destruct (Hfun lcb eq_refl) as [Hal Han].
        rewrite (bind_ok _ _ _ _ _ Hget).
        rewrite (bind_ok _ _ _ _ _ (call_function_answers h lcb name _ s Han Hs)).
        destruct (is_undefined (answer lcb)); cbn [negb]; [reflexivity|].
        apply to_string_literal. exact Hal.
    + cbn [negb]. rewrite (literal_not_function h fill Hlit).
      rewrite (to_string_literal fill s Hlit).
      destruct fill; try discriminate Hu; try discriminate Hlit;
        cbn [function_called replacement literal_text]; rewrite <- Hs, state_eta;
        reflexivity.
  - revert Hfun. rewrite Hlf. cbn [is_undefined strict_eq negb function_called replacement].
    intros Hfun. destruct (Hfun lf eq_refl) as [Hal Han].
    rewrite (answers_function h lf name _ Han). rewrite String.eqb_refl.
    rewrite (bind_ok _ _ _ _ _ (call_function_answers h lf name _ s Han Hs)).
    apply to_string_literal. exact Hal.
Qed.

(** [fillTemplate] on a mapping at [l], in a heap that the functions
    called leave as it is: the output and the calls are those of
    [replacement] and [function_called], placeholder by placeholder. *)
Lemma fillTemplate_run (template : string) (l : loc) (st : state)
      (answer : loc -> string -> value) :
  let lookup name := getValue (heap st) (VRef l) name in
  let cb := child (heap st) l "callback" in
  (truthy cb = false \/ exists lcb, cb = VRef lcb) ->
  (forall var, In var (holes template) ->
     literal (lookup (remove_whitespace var)) = true
     \/ exists lf, lookup (remove_whitespace var) = VRef lf) ->
  (forall var lf, In var (holes template) ->
     function_called (lookup (remove_whitespace var)) cb = Some lf ->
     literal (answer lf (remove_whitespace var)) = true
     /\ answers call_fn (heap st) lf (remove_whitespace var)
                (answer lf (remove_whitespace var))) ->
  fillTemplate' template (VRef l) st
  = Ok (join (map (expand (fun var =>
                             replacement (lookup (remove_whitespace var)) cb
                               (fun lf => answer lf (remove_whitespace var))))
                  (pieces template)))
       (mkState (heap st)
          (calls st
           ++ flat_map (fun var =>
                          match function_called (lookup (remove_whitespace var)) cb with
                          | Some lf =>
                              [mkCall lf VUndef [VStr (remove_whitespace var)]]
                          | None => []
                          end) (holes template))).
Proof.
  intros lookup cb Hcb Hlook Hfun.
  rewrite fillTemplate_pieces. unfold holes. rewrite <- flat_map_holes.
  apply (fill_pieces_run _ (heap st)); [|reflexivity].
  intros var s Hin Hs.
  assert (Hvar : In var (holes template)).
  { unfold holes. apply in_flat_map. exists (Hole var).
    split; [exact Hin|left; reflexivity]. }
  cbn [expand].
  apply (fill_placeholder_run l (heap st)
           (fun lf => answer lf (remove_whitespace var))
           (piece_text (Hole var)) var s Hs Hcb (Hlook var Hvar)).
  intros lf Hlf. exact (Hfun var lf Hvar Hlf).
Qed.

(** C2 (amended). Let [fillWith] be an object whose [callback] is falsy
    or an object, in a heap where each placeholder's name, without its
    whitespace, looks up a literal value or a function, and where every
    function that is to be called (a looked-up function, or the callback
    for a name that looks up [undefined]) returns a literal value
    ([answer]) and leaves the state as it is.  Then [fillTemplate]
    returns, without throwing, the template in which the text between
    placeholders is what it was and each placeholder is replaced as
    [replacement] says; a placeholder whose lookup yields [undefined],
    with a falsy callback or one that answers [undefined], stays as it
    was written, character for character, and when all are such the
    result is the template itself. *)
Theorem fillTemplate_unresolved_verbatim (template : string) (l : loc)
        (st : state) (answer : loc -> string -> value) :
  let lookup name := getValue (heap st) (VRef l) name in
  let cb := child (heap st) l "callback" in
  let resolve var :=
    replacement (lookup (remove_whitespace var)) cb
                (fun lf => answer lf (remove_whitespace var)) in
  let unresolved var :=
    lookup (remove_whitespace var) = VUndef
    /\ (truthy cb = false
        \/ exists lcb, cb = VRef lcb
                       /\ answer lcb (remove_whitespace var) = VUndef) in
  (truthy cb = false \/ exists lcb, cb = VRef lcb) ->
  (forall var, In var (holes template) ->
     literal (lookup (remove_whitespace var)) = true
     \/ exists lf, lookup (remove_whitespace var) = VRef lf) ->
  (forall var lf, In var (holes template) ->
     function_called (lookup (remove_whitespace var)) cb = Some lf ->
     literal (answer lf (remove_whitespace var)) = true
     /\ answers call_fn (heap st) lf (remove_whitespace var)
                (answer lf (remove_whitespace var))) ->
  join (map piece_text (pieces template)) = template
  /\ (exists st',
        fillTemplate' template (VRef l) st
        = Ok (join (map (expand resolve) (pieces template))) st')
  /\ (forall var, unresolved var ->
        expand resolve (Hole var) = "{" +:+ var +:+ "}")
  /\ ((forall var, In var (holes template) -> unresolved var) ->
      exists st', fillTemplate' template (VRef l) st = Ok template st').
Proof.
  intros lookup cb resolve unresolved Hcb Hlook Hfun.
  pose proof (fillTemplate_run template l st answer Hcb Hlook Hfun) as Hrun.
  assert (Hstay : forall var, unresolved var ->
            expand resolve (Hole var) = "{" +:+ var +:+ "}").
  { intros var [Hu Hc]. cbn [expand]. unfold resolve. rewrite Hu.
    cbn [replacement].
    destruct Hc as [Hfalse|(lcb & Hlcb & Hans)].
    - destruct cb; try discriminate Hfalse; reflexivity.
    - rewrite Hlcb, Hans. reflexivity. }
  split; [apply pieces_template|]. split; [eexists; exact Hrun|].
  split; [exact Hstay|].
  intros Hall. eexists. rewrite Hrun. f_equal.
  rewrite <- (pieces_template template) at 2. f_equal.
  apply map_ext_in. intros [c|var] Hin; [reflexivity|].
  apply Hstay, Hall. unfold holes. apply in_flat_map.
  exists (Hole var). split; [exact Hin|left; reflexivity].
Qed.

(** C3 (amended). In the same setting, the calls that [fillTemplate]
    makes are, placeholder by placeholder and in the order of the
    template: one call of the callback, with the name without its
    whitespace, for a placeholder whose lookup yields [undefined] when
    the callback is there; one call of the looked-up value, with that
    name, when it is a function; and no call otherwise, the callback
    not being consulted when the lookup succeeds.  For a placeholder
    whose lookup yields [undefined] the result of the callback is
    substituted unless it is [undefined]. *)
Theorem fillTemplate_calls (template : string) (l : loc) (st : state)
        (answer : loc -> string -> value) :
  let lookup name := getValue (heap st) (VRef l) name in
  let cb := child (heap st) l "callback" in
  let resolve var :=
    replacement (lookup (remove_whitespace var)) cb
                (fun lf => answer lf (remove_whitespace var)) in
  (truthy cb = false \/ exists lcb, cb = VRef lcb) ->
  (forall var, In var (holes template) ->
     literal (lookup (remove_whitespace var)) = true
     \/ exists lf, lookup (remove_whitespace var) = VRef lf) ->
  (forall var lf, In var (holes template) ->
     function_called (lookup (remove_whitespace var)) cb = Some lf ->
     literal (answer lf (remove_whitespace var)) = true
     /\ answers call_fn (heap st) lf (remove_whitespace var)
                (answer lf (remove_whitespace var))) ->
  fillTemplate' template (VRef l) st
  = Ok (join (map (expand resolve) (pieces template)))
       (mkState (heap st)
          (calls st
           ++ flat_map
                (fun var =>
                   let name := remove_whitespace var in
                   match lookup name with
                   | VUndef =>
                       match cb with
                       | VRef lcb => [mkCall lcb VUndef [VStr name]]
                       | _ => []
                       end
                   | VRef lf => [mkCall lf VUndef [VStr name]]
                   | _ => []
                   end) (holes template)))
  /\ (forall var lcb,
        lookup (remove_whitespace var) = VUndef -> cb = VRef lcb ->
        resolve var
        = if is_undefined (answer lcb (remove_whitespace var)) then None
          else Some (literal_text (answer lcb (remove_whitespace var)))).
Proof.
  intros lookup cb resolve Hcb Hlook Hfun. split.
  - rewrite (fillTemplate_run template l st answer Hcb Hlook Hfun).
    do 3 f_equal. apply flat_map_ext. intros var. cbv zeta.
    fold (lookup (remove_whitespace var)). fold cb.
    destruct (lookup (remove_whitespace var)); try reflexivity.
    destruct cb; reflexivity.
  - intros var lcb Hu Hlcb. unfold resolve. rewrite Hu, Hlcb. reflexivity.
Qed.

End FillTemplateFacts.

Lemma sample_answers (name : string) :
  answers sample_call (heap fill_case) 11 name
    (if String.eqb name "nothing" then VUndef
     else VStr ("<" +:+ name +:+ ">")).
Proof.
  exists (mkObject (KFunction (FUser 10)) (Some FunctionPrototype) []), (FUser 10).
  split; [reflexivity|]. split; [reflexivity|].
  intros s _. cbn [sample_call]. destruct (String.eqb name "nothing"); reflexivity.
Qed.

Lemma fillTemplate_unresolved_verbatim_witness :
  exists st',
    fillTemplate sample_call sample_to_string dotted_get
      "http://foo/{ bar }?arg={no thing}&x={baz.foo}" (VRef 9) fill_case
    = Ok "http://foo/someurl?arg={no thing}&x=42" st'.
Proof.
  assert (Hh : holes "http://foo/{ bar }?arg={no thing}&x={baz.foo}"
               = [" bar "; "no thing"; "baz.foo"]) by (vm_compute; reflexivity).
  destruct (fillTemplate_unresolved_verbatim sample_call sample_to_string
              dotted_get "http://foo/{ bar }?arg={no thing}&x={baz.foo}" 9
              fill_case
              (fun _ name => if String.eqb name "nothing" then VUndef
                             else VStr ("<" +:+ name +:+ ">")))
    as (_ & (st' & Hrun) & _).
  - right. exists 11. vm_compute. reflexivity.
  - intros var Hin. rewrite Hh in Hin.
    destruct Hin as [<-|[<-|[<-|[]]]]; left; vm_compute; reflexivity.
  - intros var lf Hin. rewrite Hh in Hin.
    destruct Hin as [<-|[<-|[<-|[]]]]; vm_compute; intros [= <-].
    split; [reflexivity|]. exact (sample_answers "nothing").
  - exists st'. rewrite Hrun. vm_compute. reflexivity.
Defined.

(** C2, as stated, fails for a mapping whose [callback] is no function:
    the lookup of [q] yields [undefined] and there is no callback to
    call, yet [fillTemplate] throws a [TypeError]. *)
Lemma fillTemplate_throws_on_number_callback :
  dotted_get (heap number_callback_case) (VRef 9) "q" = VUndef
  /\ get (VRef 9) "callback" number_callback_case
     = Ok (VNum 5) number_callback_case
  /\ fillTemplate sample_call sample_to_string dotted_get "{q}" (VRef 9)
       number_callback_case
     = Throw TypeError number_callback_case.
Proof. repeat split. Qed.

Lemma fillTemplate_calls_witness :
  fillTemplate sample_call sample_to_string dotted_get
    "{q x}/{no thing}/{baz.foo}/{callback}" (VRef 9) fill_case
  = Ok "<qx>/{no thing}/42/<callback>"
       (mkState (heap fill_case)
          [mkCall 11 VUndef [VStr "qx"]; mkCall 11 VUndef [VStr "nothing"];
           mkCall 11 VUndef [VStr "callback"]]).
Proof.
  assert (Hh : holes "{q x}/{no thing}/{baz.foo}/{callback}"
               = ["q x"; "no thing"; "baz.foo"; "callback"])
    by (vm_compute; reflexivity).
  destruct (fillTemplate_calls sample_call sample_to_string dotted_get
              "{q x}/{no thing}/{baz.foo}/{callback}" 9 fill_case
              (fun _ name => if String.eqb name "nothing" then VUndef
                             else VStr ("<" +:+ name +:+ ">")))
    as (Hrun & _).
  - right. exists 11. vm_compute. reflexivity.
  - intros var Hin. rewrite Hh in Hin.
    destruct Hin as [<-|[<-|[<-|[<-|[]]]]];
      first [left; vm_compute; reflexivity
            | right; exists 11; vm_compute; reflexivity].
  - intros var lf Hin. rewrite Hh in Hin.
    destruct Hin as [<-|[<-|[<-|[<-|[]]]]]; vm_compute; intros [= <-];
      (split; [reflexivity|]).
    + exact (sample_answers "qx").
    + exact (sample_answers "nothing").
    + exact (sample_answers "callback").
  - rewrite Hrun. vm_compute. reflexivity.
Defined.

(** C3, as stated, fails for the placeholder [{callback}]: its lookup
    succeeds, it yields the callback, and the callback is invoked. *)
Lemma callback_invoked_on_resolved_placeholder :
  dotted_get (heap fill_case) (VRef 9) "callback" = VRef 11
  /\ get (VRef 9) "callback" fill_case = Ok (VRef 11) fill_case
  /\ fillTemplate sample_call sample_to_string dotted_get "{callback}" (VRef 9)
       fill_case
     = Ok "<callback>" (called fill_case 11 [VStr "callback"])
  /\ calls (called fill_case 11 [VStr "callback"])
     = [mkCall 11 VUndef [VStr "callback"]].
Proof. repeat split. Qed.

(** ** clone *)

(** ** Rules for [wp] *)

Lemma wp_ret {A} (T : Prop) (a : A) (Q : A -> state -> Prop) (s : state) :
  Q a s -> wp T (ret a) Q s.
Proof. intros H. exact H. Qed.

Lemma wp_bind {A B} (T : Prop) (m : M A) (f : A -> M B)
      (Q : B -> state -> Prop) (s : state) :
  wp T m (fun a s' => wp T (f a) Q s') s -> wp T (bind m f) Q s.
Proof.
  unfold wp, bind. destruct (m s) as [a s'| |]; intros H; exact H.
Qed.

Lemma wp_mono {A} (T : Prop) (m : M A) (Q Q' : A -> state -> Prop) (s : state) :
  (forall a s', Q a s' -> Q' a s') -> wp T m Q s -> wp T m Q' s.
Proof.
  unfold wp. intros HQ. destruct (m s) as [a s'| |]; [apply HQ|exact id|exact id].
Qed.

Lemma wp_for_of {A} (T : Prop) (I : state -> Prop) (xs : list A)
      (body : A -> M unit) (s : state) :
  I s ->
  (forall x s, In x xs -> I s -> wp T (body x) (fun _ s' => I s') s) ->
  wp T (for_of xs body) (fun _ s' => I s') s.
Proof.
  revert s. induction xs as [|x xs IH]; intros s HI Hbody.
  - exact HI.
  - cbn [for_of]. apply wp_bind.
    eapply wp_mono; [|apply Hbody; [left; reflexivity|exact HI]].
    intros a s' HI'. apply IH; [exact HI'|].
    intros y s'' Hy. apply Hbody. right; exact Hy.
Qed.

Lemma wp_quiet {A} (m : M A) (Q : A -> state -> Prop) (s : state) :
  quiet m -> (forall a, m s = Ok a s -> Q a s) -> wp True m Q s.
Proof.
  intros Hq HQ. unfold wp. destruct (Hq s) as [[a Ha]|[e He]].
  - rewrite Ha. apply HQ. exact Ha.
  - rewrite He. exact I.
Qed.

Lemma quiet_ret {A} (a : A) : quiet (ret a).
Proof. intros s. left. exists a. reflexivity. Qed.

Lemma quiet_bind {A B} (m : M A) (f : A -> M B) :
  quiet m -> (forall a, quiet (f a)) -> quiet (bind m f).
Proof.
  intros Hm Hf s. unfold bind. destruct (Hm s) as [[a Ha]|[e He]].
  - rewrite Ha. apply Hf.
  - rewrite He. right. exists e. reflexivity.
Qed.

Lemma quiet_get (v : value) (k : string) : quiet (get v k).
Proof.
  intros s. unfold get. destruct v; eauto.
Qed.

Lemma quiet_has_property (k : string) (v : value) : quiet (has_property k v).
Proof. intros s. unfold has_property. destruct v; eauto. Qed.

Lemma quiet_and_then (m1 m2 : M bool) : quiet m1 -> quiet m2 -> quiet (m1 &&& m2).
Proof.
  intros H1 H2. apply quiet_bind; [exact H1|]. intros [|]; [exact H2|apply quiet_ret].
Qed.

Lemma quiet_or_else (m1 m2 : M bool) : quiet m1 -> quiet m2 -> quiet (m1 ||| m2).
Proof.
  intros H1 H2. apply quiet_bind; [exact H1|]. intros [|]; [apply quiet_ret|exact H2].
Qed.

Lemma quiet_lacks (k : string) (v : value) : quiet (lacks k v).
Proof. apply quiet_bind; [apply quiet_has_property|]. intros b. apply quiet_ret. Qed.

Lemma quiet_differs (m : M value) (v : value) : quiet m -> quiet (differs m v).
Proof. intros H. apply quiet_bind; [exact H|]. intros b. apply quiet_ret. Qed.

Lemma quiet_instanceof (v : value) (t : loc) : quiet (instanceof v t).
Proof. intros s. unfold instanceof. destruct v; eauto. Qed.

Lemma quiet_is_array (v : value) : quiet (is_array v).
Proof.
  intros s. unfold is_array. destruct v; eauto. destruct (heap s !! l); eauto.
Qed.

Lemma quiet_getTime (v : value) : quiet (getTime v).
Proof.
  intros s. unfold getTime. destruct v; eauto.
  destruct (heap s !! l) as [o|]; eauto. destruct (kind o); eauto.
Qed.

Lemma quiet_for_in_keys (v : value) : quiet (for_in_keys v).
Proof. intros s. unfold for_in_keys. destruct v; eauto. Qed.

(** ** Heaps that grow *)

Lemma extends_refl (h : list object) : extends h h.
Proof. intros l o H. exact H. Qed.

Lemma extends_trans (h1 h2 h3 : list object) :
  extends h1 h2 -> extends h2 h3 -> extends h1 h3.
Proof. intros H12 H23 l o H. apply H23, H12, H. Qed.

Lemma extends_length (h h' : list object) : extends h h' -> length h <= length h'.
Proof.
  intros H. destruct (le_lt_dec (length h) (length h')) as [|Hlt]; [assumption|].
  exfalso. destruct (lookup_lt_is_Some_2 h (length h') Hlt) as [o Ho].
  apply H in Ho. apply lookup_lt_Some in Ho. lia.
Qed.

Lemma extends_alloc (h : list object) (o : object) : extends h (h ++ [o]).
Proof. intros l o' H. apply lookup_app_l_Some. exact H. Qed.

Lemma extends_insert (h h' : list object) (l : loc) (o : object) :
  length h <= l -> extends h h' -> extends h (<[l := o]> h').
Proof.
  intros Hl H l' o' Hl'. rewrite list_lookup_insert_ne.
  - apply H. exact Hl'.
  - apply lookup_lt_Some in Hl'. lia.
Qed.

Lemma chain_prop_stable (n : nat) (h h' : list object) (l : loc) (k : string) :
  chain_ends n h l = true -> extends h h' ->
  forall m, n <= m -> chain_prop m h' l k = chain_prop n h l k.
Proof.
  revert l. induction n as [|n IH]; intros l Hend Hext m Hm; [discriminate|].
  destruct m as [|m]; [lia|]. cbn [chain_ends chain_prop] in *.
  destruct (h !! l) as [o|] eqn:Ho; [|discriminate].
  rewrite (Hext _ _ Ho).
  destruct (own_prop o k); [reflexivity|].
  destruct (proto o) as [p|]; [|reflexivity].
  apply IH; [exact Hend|exact Hext|lia].
Qed.

Lemma find_prop_stable (h h' : list object) (l : loc) (k : string) :
  protos_ok h -> l < length h -> extends h h' ->
  find_prop h' l k = find_prop h l k.
Proof.
  intros Hok Hl Hext. unfold find_prop.
  apply chain_prop_stable; [apply Hok; exact Hl|exact Hext|].
  apply extends_length. exact Hext.
Qed.

Lemma chain_keys_stable (n : nat) (h h' : list object) (l : loc)
      (seen : list string) :
  chain_ends n h l = true -> extends h h' ->
  forall m, n <= m -> chain_keys m h' l seen = chain_keys n h l seen.
Proof.
  revert l seen. induction n as [|n IH]; intros l seen Hend Hext m Hm; [discriminate|].
  destruct m as [|m]; [lia|]. cbn [chain_ends chain_keys] in *.
  destruct (h !! l) as [o|] eqn:Ho; [|discriminate].
  rewrite (Hext _ _ Ho). f_equal.
  destruct (proto o) as [p|]; [|reflexivity].
  apply IH; [exact Hend|exact Hext|lia].
Qed.

Lemma child_stable (h h' : list object) (l : loc) (k : string) :
  protos_ok h -> l < length h -> extends h h' -> child h' l k = child h l k.
Proof.
  intros Hok Hl Hext. unfold child. rewrite (find_prop_stable h h'); auto.
Qed.

Lemma for_in_keys_stable (h h' : list object) (l : loc) :
  protos_ok h -> l < length h -> extends h h' ->
  chain_keys (length h') h' l [] = chain_keys (length h) h l [].
Proof.
  intros Hok Hl Hext.
  apply chain_keys_stable; [apply Hok; exact Hl|exact Hext|].
  apply extends_length. exact Hext.
Qed.

Lemma get_child (l : loc) (k : string) (s : state) :
  get (VRef l) k s = Ok (child (heap s) l k) s.
Proof. reflexivity. Qed.


Lemma wp_alloc (T : Prop) (o : object) (Q : value -> state -> Prop) (s : state) :
  Q (VRef (length (heap s))) (mkState (heap s ++ [o]) (calls s)) ->
  wp T (alloc o) Q s.
Proof. intros H. exact H. Qed.

Lemma quiet_typeof_is (m : M value) (t : string) : quiet m -> quiet (typeof_is m t).
Proof.
  intros H s. unfold typeof_is. destruct (H s) as [[a Ha]|[e He]].
  - rewrite Ha. eauto.
  - rewrite He. eauto.
Qed.

Lemma quiet_negate (m : M bool) : quiet m -> quiet (negate m).
Proof. intros H. apply quiet_bind; [exact H|]. intros b. apply quiet_ret. Qed.

Lemma quiet_class_is (v : value) (t : string) : quiet (class_is v t).
Proof. intros s. left. eexists. reflexivity. Qed.

Lemma wp_quiet_ext {A} (hb : list object) (m : M A) (Q : A -> state -> Prop)
      (s : state) :
  quiet m -> (forall a, Q a s) -> wp True m Q s.
Proof. intros Hq HQ. apply wp_quiet; [exact Hq|]. intros a _. apply HQ. Qed.

Lemma index_keys_of_length (len : N) :
  index_keys (Z.to_N (Z.of_N len)) = index_keys len.
Proof. rewrite N2Z.id. reflexivity. Qed.

Section CloneTermination.

Variable call_fn : func -> value -> list value -> M value.
Variable construct_fn : func -> list value -> M value.

Local Abbreviation call_function' := (call_function call_fn).
Local Abbreviation construct' := (construct construct_fn).
Local Abbreviation mixin' := (mixin).
Local Abbreviation clone_body' := (clone_body call_fn construct_fn).
Local Abbreviation clone' := (clone call_fn construct_fn).

(** The [cloneNode] of the object at [l], when the object has a truthy
    [nodeType] and [cloneNode] is called as [clone] calls it, ends, and
    leaves the objects that exist as they are. *)
Local Abbreviation cloneNode_ends h l :=
  (forall lf o fn s,
     truthy (child h l "nodeType") = true ->
     child h l "cloneNode" = VRef lf ->
     heap s !! lf = Some o -> kind o = KFunction fn -> extends h (heap s) ->
     wp True (call_fn fn (VRef l) [VBool true])
        (fun _ s' => extends (heap s) (heap s')) s).

(** The [constructor] of the object at [l], other than [Object], ends
    when [clone] constructs with it, leaves the objects that exist as
    they are and returns a new object. *)
Local Abbreviation constructor_ends h l :=
  (forall lf o fn s,
     child h l "constructor" = VRef lf ->
     heap s !! lf = Some o -> kind o = KFunction fn -> fn <> FObject ->
     extends h (heap s) ->
     wp True (construct_fn fn [])
        (fun v s' => extends (heap s) (heap s')
                     /\ exists l', v = VRef l' /\ length (heap s) <= l') s).




Lemma child_length (h : list object) (l : loc) (o : object) (len : N) :
  h !! l = Some o -> kind o = KArray len ->
  child h l "length" = VNum (Z.of_N len).
Proof.
  intros Ho Hk. unfold child, find_prop.
  assert (Hl : l < length h) by (eapply lookup_lt_Some; exact Ho).
  destruct (length h) as [|n]; [lia|].
  cbn [chain_prop]. rewrite Ho. unfold own_prop. rewrite Hk. reflexivity.
Qed.




Lemma leaf_condition (v : value) (s : state) :
  (forall l, v <> VRef l) ->
  (ret (negb (truthy v)) ||| negate (typeof_is (ret v) "object")
   ||| class_is v "[object Function]") s = Ok true s.
Proof.
  intros Hv. unfold or_else, negate, typeof_is, class_is, bind, ret.
  destruct v as [| |b|z|str|l]; try reflexivity.
  - destruct b; reflexivity.
  - cbn [truthy]. destruct (negb (negb (z =? 0)%Z)); reflexivity.
  - cbn [truthy]. destruct (negb (negb (String.eqb str ""))); reflexivity.
  - exfalso. eapply Hv. reflexivity.
Qed.



End CloneTermination.

Lemma protos_check_ok (h : list object) : protos_check h = true -> protos_ok h.
Proof.
  unfold protos_check, protos_ok. intros H l Hl.
  rewrite forallb_forall in H. apply H. apply in_seq. lia.
Qed.






(** ** Association lists *)

Section AssocFacts.
Context {V : Type}.
Implicit Types (l : list (string * V)) (k : string).

Lemma assoc_replace_same k (f : V -> V) l :
  assoc k (replace_assoc k f l) = option_map f (assoc k l).
Proof.
  induction l as [|[k' v'] l IH]; [reflexivity|]. cbn [replace_assoc assoc].
  destruct (String.eqb k k') eqn:E; cbn [assoc]; rewrite E; [reflexivity|exact IH].
Qed.

Lemma assoc_replace_other k k' (f : V -> V) l :
  k' <> k -> assoc k' (replace_assoc k f l) = assoc k' l.
Proof.
  intros Hne. induction l as [|[k0 v0] l IH]; [reflexivity|].
  cbn [replace_assoc assoc].
  destruct (String.eqb k k0) eqn:E; cbn [assoc].
  - apply String.eqb_eq in E. subst k0.
    apply String.eqb_neq in Hne. rewrite Hne. reflexivity.
  - rewrite IH. reflexivity.
Qed.

Lemma keys_replace k (f : V -> V) l :
  map fst (replace_assoc k f l) = map fst l.
Proof.
  induction l as [|[k0 v0] l IH]; [reflexivity|]. cbn [replace_assoc].
  destruct (String.eqb k k0); cbn [map fst]; [reflexivity|]. rewrite IH. reflexivity.
Qed.

Lemma assoc_insert_same k (v : V) l :
  assoc k l = None -> assoc k (insert_new k v l) = Some v.
Proof.
  induction l as [|[k0 v0] l IH]; intros H; cbn [insert_new assoc] in *.
  - rewrite String.eqb_refl. reflexivity.
  - destruct (String.eqb k k0) eqn:E; [discriminate|].
    destruct (array_index k) as [n|], (array_index k0) as [n0|];
      try destruct (n <? n0)%N; cbn [assoc]; rewrite ?String.eqb_refl, ?E;
      auto.
Qed.

Lemma assoc_insert_other k k' (v : V) l :
  k' <> k -> assoc k' (insert_new k v l) = assoc k' l.
Proof.
  intros Hne. apply String.eqb_neq in Hne.
  induction l as [|[k0 v0] l IH]; cbn [insert_new assoc].
  - rewrite Hne. reflexivity.
  - destruct (array_index k) as [n|], (array_index k0) as [n0|];
      try destruct (n <? n0)%N; cbn [assoc]; rewrite ?Hne, ?IH; reflexivity.
Qed.

Lemma assoc_put_same k (fresh : V) (upd : V -> V) l :
  assoc k (put k fresh upd l)
  = Some (match assoc k l with Some v => upd v | None => fresh end).
Proof.
  unfold put. destruct (assoc k l) eqn:E.
  - rewrite assoc_replace_same, E. reflexivity.
  - apply assoc_insert_same. exact E.
Qed.

Lemma assoc_put_other k k' (fresh : V) (upd : V -> V) l :
  k' <> k -> assoc k' (put k fresh upd l) = assoc k' l.
Proof.
  intros Hne. unfold put. destruct (assoc k l).
  - apply assoc_replace_other. exact Hne.
  - apply assoc_insert_other. exact Hne.
Qed.

Lemma assoc_in_keys k (v : V) l : assoc k l = Some v -> In k (map fst l).
Proof.
  induction l as [|[k0 v0] l IH]; [discriminate|]. cbn [assoc map fst].
  destruct (String.eqb k k0) eqn:E.
  - apply String.eqb_eq in E. left. symmetry. exact E.
  - intros H. right. apply IH. exact H.
Qed.

Lemma in_keys_assoc k l : In k (map fst l) -> exists v, assoc k l = Some v.
Proof.
  induction l as [|[k0 v0] l IH]; [intros []|]. cbn [assoc map fst].
  destruct (String.eqb k k0) eqn:E; [eauto|].
  intros [H|H]; [|apply IH; exact H].
  apply String.eqb_neq in E. congruence.
Qed.

Lemma length_of_bound k (i : N) (ks : list string) :
  In k ks -> array_index k = Some i -> (i + 1 <= length_of ks)%N.
Proof.
  induction ks as [|k0 ks IH]; [intros []|]. intros [->|Hin] Hi; cbn [length_of].
  - rewrite Hi. lia.
  - specialize (IH Hin Hi). destruct (array_index k0); lia.
Qed.

Lemma length_of_insert k (v : V) l :
  length_of (map fst (insert_new k v l))
  = match array_index k with
    | Some i => N.max (i + 1) (length_of (map fst l))
    | None => length_of (map fst l)
    end.
Proof.
  induction l as [|[k0 v0] l IH]; cbn [insert_new].
  - cbn [map fst length_of]. destruct (array_index k); reflexivity.
  - destruct (array_index k) as [n|] eqn:Ek, (array_index k0) as [n0|] eqn:Ek0;
      try destruct (n <? n0)%N; cbn [map fst length_of];
      rewrite ?Ek, ?Ek0, ?IH; try reflexivity; lia.
Qed.

Lemma length_of_put k (fresh : V) (upd : V -> V) l :
  length_of (map fst (put k fresh upd l))
  = match array_index k with
    | Some i => N.max (i + 1) (length_of (map fst l))
    | None => length_of (map fst l)
    end.
Proof.
  unfold put. destruct (assoc k l) as [v|] eqn:E.
  - rewrite keys_replace. destruct (array_index k) as [i|] eqn:Ei; [|reflexivity].
    pose proof (length_of_bound k i _ (assoc_in_keys _ _ _ E) Ei). lia.
  - apply length_of_insert.
Qed.

End AssocFacts.

Lemma length_of_ext (ks ks' : list string) :
  (forall k, In k ks <-> In k ks') -> length_of ks = length_of ks'.
Proof.
  assert (Hle : forall ks ks', (forall k, In k ks -> In k ks') ->
                               (length_of ks <= length_of ks')%N).
  { clear. induction ks as [|k ks IH]; intros ks' H; cbn [length_of]; [lia|].
    assert (IH' : (length_of ks <= length_of ks')%N)
      by (apply IH; intros x Hx; apply H; right; exact Hx).
    destruct (array_index k) as [i|] eqn:Ei; [|exact IH'].
    pose proof (length_of_bound k i ks' (H k (or_introl eq_refl)) Ei). lia. }
  intros H. apply N.le_antisymm; apply Hle; intros k; apply H.
Qed.

(** ** Data and their representation *)

Lemma data_induction (P : data -> Prop) :
  (forall v, P (DLeaf v)) ->
  (forall t, P (DDate t)) ->
  (forall source flags, P (DRegExp source flags)) ->
  (forall len items, all_fields (fun _ d => P d) items -> P (DArray len items)) ->
  (forall fields, all_fields (fun _ d => P d) fields -> P (DObject fields)) ->
  forall d, P d.
Proof.
  intros Hleaf Hdate Hre Harr Hobj.
  fix IH 1. intros d.
  assert (Hall : forall fs, all_fields (fun _ d => P d) fs).
  { fix go 1. intros [|[k d'] fs]; [exact I|]. split; [apply IH|apply go]. }
  destruct d as [v|t|source flags|len items|fields].
  - apply Hleaf.
  - apply Hdate.
  - apply Hre.
  - apply Harr, Hall.
  - apply Hobj, Hall.
Qed.

Lemma all_fields_in {A} (P : string -> A -> Prop) (fs : list (string * A))
      (k : string) (d : A) :
  all_fields P fs -> In (k, d) fs -> P k d.
Proof.
  induction fs as [|[k0 d0] fs IH]; [intros _ []|].
  intros [H0 H] [[= <- <-]|Hin]; [exact H0|apply IH; assumption].
Qed.

Lemma all_fields_intro {A} (P : string -> A -> Prop) (fs : list (string * A)) :
  (forall k d, In (k, d) fs -> P k d) -> all_fields P fs.
Proof.
  induction fs as [|[k0 d0] fs IH]; intros H; [exact I|]. split.
  - apply H. left. reflexivity.
  - apply IH. intros k d Hin. apply H. right. exact Hin.
Qed.

Lemma in_keys_field {A} (fs : list (string * A)) (k : string) :
  In k (map fst fs) -> exists d, In (k, d) fs.
Proof.
  intros H. apply in_map_iff in H. destruct H as ([k' d] & <- & Hin).
  exists d. exact Hin.
Qed.

Lemma is_leaf_extends (h h' : list object) (v : value) :
  extends h h' -> is_leaf h v -> is_leaf h' v.
Proof.
  intros Hext. destruct v as [| | | | |l]; try exact id.
  intros (o & f & Ho & Hk). exists o, f. split; [apply Hext; exact Ho|exact Hk].
Qed.

Lemma repr_extends (n : nat) (h h' : list object) (v : value) (d : data) :
  extends h h' -> repr n h v d -> repr n h' v d.
Proof.
  intros Hext. revert v.
  induction d as [w|t|source flags|len items IH|fields IH] using data_induction;
    intros v; cbn [repr].
  - intros [-> Hl]. split; [reflexivity|]. eapply is_leaf_extends; eassumption.
  - intros (l & o & -> & Hn & Ho & Hrest). exists l, o.
    split; [reflexivity|]. split; [exact Hn|]. split; [apply Hext; exact Ho|exact Hrest].
  - intros (l & o & -> & Hn & Ho & Hrest). exists l, o.
    split; [reflexivity|]. split; [exact Hn|]. split; [apply Hext; exact Ho|exact Hrest].
  - intros (l & o & -> & Hn & Ho & Hk & Hp & Hlen & Hkeys & Hall). exists l, o.
    repeat (split; [first [reflexivity|assumption|apply Hext; exact Ho]|]).
    apply all_fields_intro. intros k d Hin.
    destruct (all_fields_in _ _ _ _ Hall Hin) as (p & Hp' & He & Hr).
    exists p. repeat (split; [assumption|]).
    apply (all_fields_in _ _ _ _ IH Hin). exact Hr.
  - intros (l & o & -> & Hn & Ho & Hk & Hp & Hkeys & Hall). exists l, o.
    repeat (split; [first [reflexivity|assumption|apply Hext; exact Ho]|]).
    apply all_fields_intro. intros k d Hin.
    destruct (all_fields_in _ _ _ _ Hall Hin) as (p & Hp' & He & Hr).
    exists p. repeat (split; [assumption|]).
    apply (all_fields_in _ _ _ _ IH Hin). exact Hr.
Qed.

Lemma repr_weaken (n n' : nat) (h : list object) (v : value) (d : data) :
  n' <= n -> repr n h v d -> repr n' h v d.
Proof.
  intros Hn. revert v.
  induction d as [w|t|source flags|len items IH|fields IH] using data_induction;
    intros v; cbn [repr].
  - exact id.
  - intros (l & o & -> & Hl & Hrest). exists l, o.
    split; [reflexivity|]. split; [lia|exact Hrest].
  - intros (l & o & -> & Hl & Hrest). exists l, o.
    split; [reflexivity|]. split; [lia|exact Hrest].
  - intros (l & o & -> & Hl & Ho & Hk & Hp & Hlen & Hkeys & Hall). exists l, o.
    repeat (split; [first [reflexivity|assumption|lia]|]).
    apply all_fields_intro. intros k d Hin.
    destruct (all_fields_in _ _ _ _ Hall Hin) as (p & Hp' & He & Hr).
    exists p. repeat (split; [assumption|]).
    apply (all_fields_in _ _ _ _ IH Hin). exact Hr.
  - intros (l & o & -> & Hl & Ho & Hk & Hp & Hkeys & Hall). exists l, o.
    repeat (split; [first [reflexivity|assumption|lia]|]).
    apply all_fields_intro. intros k d Hin.
    destruct (all_fields_in _ _ _ _ Hall Hin) as (p & Hp' & He & Hr).
    exists p. repeat (split; [assumption|]).
    apply (all_fields_in _ _ _ _ IH Hin). exact Hr.
Qed.

(** A store into an object below [n] that is not a function leaves the
    representations through the objects from [n] on as they are. *)
Lemma repr_store (n : nat) (h : list object) (lr : loc) (o' : object)
      (v : value) (d : data) :
  lr < n ->
  (forall o f, h !! lr = Some o -> kind o <> KFunction f) ->
  repr n h v d -> repr n (<[lr := o']> h) v d.
Proof.
  intros Hlr Hnf. revert v.
  assert (Hkeep : forall l o, n <= l -> h !! l = Some o ->
                              <[lr := o']> h !! l = Some o).
  { intros l o Hl Ho. rewrite list_lookup_insert_ne; [exact Ho|lia]. }
  induction d as [w|t|source flags|len items IH|fields IH] using data_induction;
    intros v; cbn [repr].
  - intros [-> Hl]. split; [reflexivity|].
    destruct w as [| | | | |l]; try exact I.
    destruct Hl as (o & f & Ho & Hk). exists o, f. split; [|exact Hk].
    rewrite list_lookup_insert_ne; [exact Ho|].
    intros <-. exact (Hnf o f Ho Hk).
  - intros (l & o & -> & Hl & Ho & Hrest). exists l, o.
    split; [reflexivity|]. split; [exact Hl|]. split; [apply Hkeep; assumption|exact Hrest].
  - intros (l & o & -> & Hl & Ho & Hrest). exists l, o.
    split; [reflexivity|]. split; [exact Hl|]. split; [apply Hkeep; assumption|exact Hrest].
  - intros (l & o & -> & Hl & Ho & Hk & Hp & Hlen & Hkeys & Hall). exists l, o.
    repeat (split; [first [reflexivity|assumption|apply Hkeep; assumption]|]).
    apply all_fields_intro. intros k d Hin.
    destruct (all_fields_in _ _ _ _ Hall Hin) as (p & Hp' & He & Hr).
    exists p. repeat (split; [assumption|]).
    apply (all_fields_in _ _ _ _ IH Hin). exact Hr.
  - intros (l & o & -> & Hl & Ho & Hk & Hp & Hkeys & Hall). exists l, o.
    repeat (split; [first [reflexivity|assumption|apply Hkeep; assumption]|]).
    apply all_fields_intro. intros k d Hin.
    destruct (all_fields_in _ _ _ _ Hall Hin) as (p & Hp' & He & Hr).
    exists p. repeat (split; [assumption|]).
    apply (all_fields_in _ _ _ _ IH Hin). exact Hr.
Qed.

(** ** Lookups along known prototype chains *)

Lemma chain_prop_less (n : nat) (h : list object) (l : loc) (k : string) :
  chain_prop (S n) h l k = None -> chain_prop n h l k = None.
Proof.
  revert l. induction n as [|n IH]; intros l; [reflexivity|].
  cbn [chain_prop]. destruct (h !! l) as [o|]; [|reflexivity].
  destruct (own_prop o k); [exact id|].
  destruct (proto o) as [p|]; [|reflexivity]. apply IH.
Qed.

Lemma find_prop_own (h : list object) (l P : loc) (o : object) (k : string) :
  h !! l = Some o -> proto o = Some P -> find_prop h P k = None ->
  find_prop h l k = own_prop o k.
Proof.
  intros Ho Hp HP. unfold find_prop in *.
  assert (Hl : l < length h) by (eapply lookup_lt_Some; exact Ho).
  destruct (length h) as [|n]; [lia|].
  cbn [chain_prop]. rewrite Ho. destruct (own_prop o k); [reflexivity|].
  rewrite Hp. apply chain_prop_less. exact HP.
Qed.

Lemma own_prop_plain (o : object) (k : string) :
  (kind o = KPlain \/ (exists len, kind o = KArray len) /\ k <> "length") ->
  own_prop o k = assoc k (props o).
Proof.
  unfold own_prop. intros [->|[[len ->] Hk]]; [reflexivity|].
  apply String.eqb_neq in Hk. rewrite Hk. reflexivity.
Qed.

Lemma has_property_eq (k : string) (l : loc) (s : state) :
  has_property k (VRef l) s
  = Ok (match find_prop (heap s) l k with Some _ => true | None => false end) s.
Proof. reflexivity. Qed.

Lemma wp_for_of_from {A} (T : Prop) (I : list A -> state -> Prop)
      (all ys : list A) (body : A -> M unit) :
  (forall done x s, In x all -> I done s ->
                    wp T (body x) (fun _ s' => I (done ++ [x]) s') s) ->
  (forall x, In x ys -> In x all) ->
  forall done s, I done s ->
    wp T (for_of ys body) (fun _ s' => I (done ++ ys) s') s.
Proof.
  intros Hbody. induction ys as [|y ys IH]; intros Hsub done s HI.
  - rewrite app_nil_r. exact HI.
  - cbn [for_of]. apply wp_bind.
    eapply wp_mono; [|apply Hbody; [apply Hsub; left; reflexivity|exact HI]].
    intros a s' HI'. cbv beta.
    replace (done ++ y :: ys) with ((done ++ [y]) ++ ys)
      by (rewrite <- app_assoc; reflexivity).
    apply IH; [|exact HI'].
    intros x Hx. apply Hsub. right. exact Hx.
Qed.

Lemma wp_for_of_pos {A} (T : Prop) (I : list A -> state -> Prop) (xs : list A)
      (body : A -> M unit) (s : state) :
  I [] s ->
  (forall done x s, In x xs -> I done s ->
                    wp T (body x) (fun _ s' => I (done ++ [x]) s') s) ->
  wp T (for_of xs body) (fun _ s' => I xs s') s.
Proof.
  intros H0 Hbody.
  apply (wp_for_of_from T I xs xs body Hbody (fun x H => H) [] s H0).
Qed.

Lemma assign_dest (arr : bool) (qs : list (string * prop)) (k : string)
      (y : value) :
  (arr = true -> k <> "length") ->
  let qs' := put k (mkProp y true) (fun p => mkProp y (penum p)) qs in
  assign (mkObject (kind_of arr qs) (Some (proto_of arr)) qs) k y
  = Some (mkObject (kind_of arr qs') (Some (proto_of arr)) qs').
Proof.
  intros Hk qs'. unfold assign, kind_of. destruct arr; cbn [kind proto props].
  - apply String.eqb_neq in Hk; [|reflexivity]. rewrite Hk.
    f_equal. f_equal. f_equal. unfold qs'. rewrite length_of_put.
    destruct (array_index k) as [i|]; [|reflexivity].
    destruct (N.leb_spec (length_of (map fst qs)) i); lia.
  - reflexivity.
Qed.

Ltac wp_step H := apply wp_bind; unfold wp at 1; rewrite H; cbv beta iota.

Section CloneData.

Variable call_fn : func -> value -> list value -> M value.
Variable construct_fn : func -> list value -> M value.

Local Abbreviation clone_body' := (clone_body call_fn construct_fn).
Local Abbreviation clone' := (clone call_fn construct_fn).

(** One property is copied into the object under construction. *)
Lemma copy_step (recur : value -> M value) (arr : bool)
      (ps : list (string * prop)) (fs : list (string * data)) (hb : list object)
      (lr : loc) (done : list string) (k : string) (p : prop) (s : state) :
  copies recur hb ps fs ->
  (arr = true -> k <> "length") ->
  length hb <= lr -> lr < length (heap s) -> extends hb (heap s) ->
  copy_inv arr ps fs lr done s ->
  assoc k ps = Some p ->
  wp False (y <- recur (pval p) ;; set (VRef lr) k y)
     (fun _ s' =>
        (forall l' o, l' <> lr -> heap s !! l' = Some o -> heap s' !! l' = Some o)
        /\ calls s' = calls s /\ lr < length (heap s')
        /\ copy_inv arr ps fs lr (done ++ [k]) s') s.
Proof.
  intros Hrec Hk Hlr Hlen Hext (qs & Hdest & Hvalid & Hdone) Hp.
  apply wp_bind. eapply wp_mono; [|apply (Hrec k p s Hp Hext)].
  intros y s1 (Hext1 & Hcalls1 & Hy).
  unfold wp, set. rewrite (Hext1 _ _ Hdest).
  rewrite (assign_dest arr qs k y Hk). cbv zeta.
  set (qs' := put k (mkProp y true) (fun p => mkProp y (penum p)) qs).
  cbn [heap calls].
  assert (Hlen1 : lr < length (heap s1))
    by (pose proof (extends_length _ _ Hext1); lia).
  assert (Hnf : forall o f, heap s1 !! lr = Some o -> kind o <> KFunction f).
  { intros o f Ho. rewrite (Hext1 _ _ Hdest) in Ho. injection Ho as <-.
    unfold kind_of. destruct arr; discriminate. }
  split; [|split; [exact Hcalls1|split]].
  - intros l' o Hl' Ho. rewrite list_lookup_insert_ne; [|congruence].
    apply Hext1. exact Ho.
  - rewrite length_insert. exact Hlen1.
  - exists qs'. split; [|split].
    + apply list_lookup_insert_eq. exact Hlen1.
    + intros k' q' Hq'. destruct (String.eqb k' k) eqn:E.
      * apply String.eqb_eq in E. subst k'. unfold qs' in Hq'.
        rewrite assoc_put_same in Hq'. injection Hq' as <-.
        split; [|split].
        -- destruct (assoc k qs) as [q|] eqn:Eq; [|reflexivity].
           apply (Hvalid k q Eq).
        -- eapply assoc_in_keys. exact Hp.
        -- intros d Hd.
           replace (pval (match assoc k qs with
                          | Some v => mkProp y (penum v)
                          | None => mkProp y true
                          end)) with y by (destruct (assoc k qs); reflexivity).
           apply repr_store; [lia|exact Hnf|].
           eapply repr_weaken; [|apply Hy; exact Hd]. lia.
      * apply String.eqb_neq in E. unfold qs' in Hq'.
        rewrite assoc_put_other in Hq' by exact E.
        destruct (Hvalid k' q' Hq') as (He & Hin & Hr).
        split; [exact He|]. split; [exact Hin|].
        intros d Hd. apply repr_store; [lia|exact Hnf|].
        eapply repr_extends; [exact Hext1|]. apply Hr. exact Hd.
    + intros k' Hin. apply in_app_or in Hin. destruct Hin as [Hin|[<-|[]]].
      * destruct (String.eqb k' k) eqn:E.
        -- apply String.eqb_eq in E. subst k'. unfold qs'.
           rewrite assoc_put_same. discriminate.
        -- apply String.eqb_neq in E. unfold qs'.
           rewrite assoc_put_other by exact E. apply Hdone. exact Hin.
      * unfold qs'. rewrite assoc_put_same. discriminate.
Qed.

Lemma realm_proto_lt (h : list object) (arr : bool) :
  realm_ok h -> proto_of arr < length h.
Proof.
  intros (_ & (o & Ho & _) & (o' & Ho' & _) & _).
  destruct arr; cbn [proto_of]; eapply lookup_lt_Some; eassumption.
Qed.

Lemma realm_object_key (h : list object) (arr : bool) (k : string) :
  realm_ok h -> find_prop h (proto_of arr) k = None ->
  find_prop h ObjectPrototype k = None.
Proof.
  intros Hr. destruct arr; cbn [proto_of]; [|exact id].
  destruct Hr as (_ & (op & Hop & Hpop & _) & (ap & Hap & Hpap & _) & _).
  unfold find_prop.
  assert (Hlen : 3 < length h) by (eapply lookup_lt_Some; exact Hap).
  destruct (length h) as [|[|n]]; try lia.
  cbn [chain_prop]. rewrite Hap, Hop, Hpap, Hpop.
  destruct (own_prop ap k); [intros [=]|].
  cbn [chain_prop]. rewrite Hop, Hpop. exact id.
Qed.

Lemma object_key_shape (h : list object) (l P : loc) (o : object) (arr : bool)
      (k : string) :
  h !! l = Some o -> proto o = Some P ->
  (if arr then exists len, kind o = KArray len else kind o = KPlain) ->
  (arr = true -> k <> "length") ->
  find_prop h P k = None ->
  find_prop h l k = assoc k (props o).
Proof.
  intros Ho Hp Hk Hlen HP. rewrite (find_prop_own h l P o k Ho Hp HP).
  apply own_prop_plain. destruct arr; [right|left; exact Hk].
  split; [exact Hk|apply Hlen; reflexivity].
Qed.

Lemma source_lookup (h0 : list object) (arr : bool) (l : loc) (o : object)
      (k : string) (s : state) :
  realm_ok h0 -> source h0 arr l o -> extends h0 (heap s) ->
  find_prop h0 (proto_of arr) k = None -> (arr = true -> k <> "length") ->
  find_prop (heap s) l k = assoc k (props o).
Proof.
  intros Hr (Ho & Hp & Hk & Hkeys) Hext HP Hlen.
  rewrite (find_prop_stable h0 (heap s) l k);
    [|apply Hr|eapply lookup_lt_Some; exact Ho|exact Hext].
  eapply object_key_shape; eassumption.
Qed.

Lemma dest_lookup (h0 : list object) (arr : bool) (ps : list (string * prop))
      (lr : loc) (qs : list (string * prop)) (k : string) (s : state) :
  realm_ok h0 -> extends h0 (heap s) ->
  heap s !! lr = Some (mkObject (kind_of arr qs) (Some (proto_of arr)) qs) ->
  find_prop h0 (proto_of arr) k = None -> (arr = true -> k <> "length") ->
  find_prop (heap s) lr k = assoc k qs.
Proof.
  intros Hr Hext Hdest HP Hlen.
  apply (object_key_shape (heap s) lr (proto_of arr) _ arr k Hdest eq_refl).
  - unfold kind_of. destruct arr; cbn [kind]; eauto.
  - exact Hlen.
  - rewrite (find_prop_stable h0 (heap s));
      [exact HP|apply Hr|apply realm_proto_lt; exact Hr|exact Hext].
Qed.

Lemma empty_lookup (h0 : list object) (le : loc) (k : string) (s : state) :
  realm_ok h0 -> extends h0 (heap s) ->
  heap s !! le = Some empty_object ->
  find_prop h0 ObjectPrototype k = None ->
  find_prop (heap s) le k = None.
Proof.
  intros Hr Hext Hempty HP.
  rewrite (find_prop_own (heap s) le ObjectPrototype empty_object k Hempty eq_refl);
    [reflexivity|].
  rewrite (find_prop_stable h0 (heap s));
    [exact HP|apply Hr|apply (realm_proto_lt h0 false); exact Hr|exact Hext].
Qed.

Lemma filter_unseen (ks : list string) :
  List.filter (fun k => negb (mem k [])) ks = ks.
Proof.
  induction ks as [|k ks IH]; [reflexivity|].
  cbn [List.filter]. change (negb (mem k [])) with true. cbv iota.
  rewrite IH. reflexivity.
Qed.

Lemma chain_keys_realm (h : list object) (arr : bool) (n : nat)
      (seen : list string) :
  realm_ok h -> chain_keys n h (proto_of arr) seen = [].
Proof.
  intros (_ & (op & Hop & Hpop & Heop) & (ap & Hap & Hpap & Heap) & _).
  assert (Hobj : forall n seen, chain_keys n h ObjectPrototype seen = []).
  { intros [|m] seen'; [reflexivity|]. cbn [chain_keys].
    rewrite Hop, Heop, Hpop. reflexivity. }
  destruct arr; cbn [proto_of]; [|apply Hobj].
  destruct n as [|m]; [reflexivity|]. cbn [chain_keys].
  rewrite Hap, Heap, Hpap. apply Hobj.
Qed.

Lemma source_for_in (h0 : list object) (arr : bool) (l : loc) (o : object)
      (s : state) :
  realm_ok h0 -> source h0 arr l o -> extends h0 (heap s) ->
  for_in_keys (VRef l) s = Ok (own_enumerable_keys o) s.
Proof.
  intros Hr (Ho & Hp & _) Hext. unfold for_in_keys.
  assert (Hl : l < length h0) by (eapply lookup_lt_Some; exact Ho).
  rewrite (for_in_keys_stable h0 (heap s) l (proj1 Hr) Hl Hext).
  destruct (length h0) as [|n]; [lia|]. cbn [chain_keys].
  rewrite Ho, Hp, filter_unseen, (chain_keys_realm h0 arr n _ Hr), app_nil_r.
  reflexivity.
Qed.

Lemma enumerable_key (o : object) (k : string) :
  In k (own_enumerable_keys o) -> exists p, assoc k (props o) = Some p.
Proof.
  unfold own_enumerable_keys. intros H. apply in_keys_assoc.
  apply in_map_iff in H. destruct H as (kp & <- & Hin).
  apply filter_In in Hin. apply in_map. apply Hin.
Qed.

Lemma key_enumerable (o : object) (k : string) (p : prop) :
  assoc k (props o) = Some p -> penum p = true -> In k (own_enumerable_keys o).
Proof.
  unfold own_enumerable_keys. induction (props o) as [|[k0 p0] ps IH]; [discriminate|].
  cbn [assoc]. destruct (String.eqb k k0) eqn:E.
  - intros [= ->] Hp. apply String.eqb_eq in E. subst k0.
    cbn [List.filter snd]. rewrite Hp. left. reflexivity.
  - intros H Hp. cbn [List.filter]. destruct (penum (snd (k0, p0))).
    + right. apply IH; assumption.
    + apply IH; assumption.
Qed.

Lemma copying_step (recur : value -> M value) (h0 hb : list object)
      (cs : list call) (le : option loc) (arr : bool) (l : loc) (o : object)
      (fs : list (string * data)) (lr : loc) (done : list string) (k : string)
      (p : prop) (s : state) :
  copies recur hb (props o) fs ->
  (arr = true -> k <> "length") ->
  length hb <= lr ->
  copying hb cs le arr (props o) fs lr done s ->
  assoc k (props o) = Some p ->
  wp False (y <- recur (pval p) ;; set (VRef lr) k y)
     (fun _ s' => copying hb cs le arr (props o) fs lr (done ++ [k]) s') s.
Proof.
  intros Hrec Hk Hlr (Hext & Hcs & Hlen & Hle & Hinv) Hp.
  eapply wp_mono;
    [|apply (copy_step recur arr (props o) fs hb lr done k p s); assumption].
  intros a s' (Hframe & Hcalls & Hlen' & Hinv').
  split; [|split; [congruence|split; [exact Hlen'|split; [|exact Hinv']]]].
  - intros l' o' Ho'. apply Hframe; [|apply Hext; exact Ho'].
    apply lookup_lt_Some in Ho'. lia.
  - destruct le as [e|]; [|exact I]. destruct Hle as [Hne He].
    split; [exact Hne|]. apply Hframe; assumption.
Qed.

Lemma wp_mixin_copy (recur : value -> M value) (h0 hb : list object)
      (arr : bool) (l : loc) (o : object) (fs : list (string * data))
      (lr : loc) (s : state) :
  realm_ok h0 -> extends h0 hb -> source h0 arr l o ->
  copies recur hb (props o) fs ->
  length hb <= lr ->
  copying hb (calls s) None arr (props o) fs lr [] s ->
  wp False (mixin (VRef lr) (VRef l) (Some recur))
     (fun v s' => v = VRef lr
                  /\ copying hb (calls s) None arr (props o) fs lr
                             (own_enumerable_keys o) s') s.
Proof.
  intros Hr Hh Hsrc Hrec Hlr (Hext & _ & Hlen & _ & Hinv). unfold mixin.
  apply wp_bind, wp_alloc. apply wp_bind.
  set (s1 := mkState (heap s ++ [empty_object]) (calls s)).
  set (le := length (heap s)).
  assert (Hs1 : extends (heap s) (heap s1)) by apply extends_alloc.
  unfold wp at 1.
  rewrite (source_for_in h0 arr l o s1 Hr Hsrc
             (extends_trans _ _ _ Hh (extends_trans _ _ _ Hext Hs1))).
  apply wp_bind.
  apply (wp_mono False _
           (fun _ s' => copying hb (calls s) (Some le) arr (props o) fs lr
                                (own_enumerable_keys o) s')).
  { intros a s' (H1 & H2 & H3 & _ & H5). apply wp_ret.
    split; [reflexivity|]. repeat (split; [assumption|]). split; [exact I|exact H5]. }
  apply (wp_for_of_pos False
           (fun done s' => copying hb (calls s) (Some le) arr (props o) fs lr done s')).
  { split; [eapply extends_trans; [exact Hext|exact Hs1]|].
    split; [reflexivity|]. split; [cbn; rewrite length_app; cbn; lia|].
    split.
    - split; [unfold le; lia|]. cbn. apply list_lookup_middle. reflexivity.
    - destruct Hinv as (qs & Hdest & Hvalid & Hdone). exists qs.
      split; [apply Hs1; exact Hdest|]. split; [|exact Hdone].
      intros k q Hq. destruct (Hvalid k q Hq) as (He & Hin & Hrepr).
      split; [exact He|]. split; [exact Hin|]. intros d Hd.
      eapply repr_extends; [exact Hs1|]. apply Hrepr. exact Hd. }
  intros done k s' Hk Hst.
  destruct (enumerable_key o k Hk) as [p Hp].
  destruct Hsrc as (Ho & Hpo & Hko & Hkeys).
  destruct (Hkeys k (assoc_in_keys _ _ _ Hp)) as [HP Hnl].
  pose proof Hst as (Hext' & Hcs' & Hlen' & [Hne Hempty] & Hinv').
  assert (Hext0 : extends h0 (heap s')) by (eapply extends_trans; eassumption).
  apply wp_bind. unfold wp at 1. rewrite get_child. unfold child.
  rewrite (source_lookup h0 arr l o k s' Hr (conj Ho (conj Hpo (conj Hko Hkeys)))
             Hext0 HP Hnl), Hp.
  destruct Hinv' as (qs & Hdest & Hvalid & Hdone).
  assert (Hcond : exists c,
             (lacks k (VRef lr)
              ||| (differs (get (VRef lr) k) (pval p)
                   &&& (lacks k (VRef le)
                        ||| differs (get (VRef le) k) (pval p)))) s'
             = Ok c s'
             /\ (c = false -> assoc k qs <> None)).
  { pose proof (dest_lookup h0 arr (props o) lr qs k s' Hr Hext0 Hdest HP Hnl) as Hfind.
    destruct (assoc k qs) as [q|] eqn:Eq.
    - destruct (strict_eq (pval q) (pval p)) eqn:Eeq.
      + exists false. split; [|discriminate].
        rewrite (or_else_false _ _ s' s');
          [|unfold lacks; rewrite (bind_ok _ _ _ _ _ (has_property_eq _ _ _)), Hfind;
            reflexivity].
        apply and_then_false. unfold differs.
        rewrite (bind_ok _ _ _ _ _ (get_child _ _ _)). unfold child.
        rewrite Hfind, Eeq. reflexivity.
      + exists true. split; [|discriminate].
        rewrite (or_else_false _ _ s' s');
          [|unfold lacks; rewrite (bind_ok _ _ _ _ _ (has_property_eq _ _ _)), Hfind;
            reflexivity].
        rewrite (and_then_true _ _ s' s').
        * apply or_else_true. unfold lacks.
          rewrite (bind_ok _ _ _ _ _ (has_property_eq _ _ _)).
          rewrite (empty_lookup h0 le k s' Hr Hext0 Hempty
                     (realm_object_key h0 arr k Hr HP)).
          reflexivity.
        * unfold differs. rewrite (bind_ok _ _ _ _ _ (get_child _ _ _)).
          unfold child. rewrite Hfind, Eeq. reflexivity.
    - exists true. split; [|discriminate].
      apply or_else_true. unfold lacks.
      rewrite (bind_ok _ _ _ _ _ (has_property_eq _ _ _)), Hfind. reflexivity. }
  destruct Hcond as (c & Hcond & Hc).
  apply wp_bind. unfold wp at 1. rewrite Hcond.
  destruct c.
  - apply (copying_step recur h0 hb (calls s) (Some le) arr l o fs lr done k p s');
      assumption.
  - apply wp_ret. split; [exact Hext'|]. split; [exact Hcs'|].
    split; [exact Hlen'|]. split; [split; assumption|].
    exists qs. split; [exact Hdest|]. split; [exact Hvalid|].
    intros k' Hin. apply in_app_or in Hin. destruct Hin as [Hin|[<-|[]]].
    + apply Hdone. exact Hin.
    + apply Hc. reflexivity.
Qed.

Lemma copying_forget (hb : list object) (cs : list call) (le : option loc)
      (arr : bool) (ps : list (string * prop)) (fs : list (string * data))
      (lr : loc) (done : list string) (s : state) :
  copying hb cs le arr ps fs lr done s -> copying hb cs le arr ps fs lr [] s.
Proof.
  intros (H1 & H2 & H3 & H4 & qs & Hd & Hv & _).
  repeat (split; [assumption|]). exists qs.
  split; [exact Hd|]. split; [exact Hv|]. intros k [].
Qed.

Lemma index_key_not_length (len : N) (i : string) :
  In i (index_keys len) -> i <> "length".
Proof.
  unfold index_keys. intros H. apply in_map_iff in H. destruct H as (n & <- & _).
  unfold string_of_N. destruct (N.to_uint (N.of_nat n)); discriminate.
Qed.

Lemma wp_clone_elements_copy (recur : value -> M value) (h0 hb : list object)
      (l : loc) (o : object) (fs : list (string * data)) (lr : loc) (len : N)
      (s : state) :
  realm_ok h0 -> extends h0 hb -> source h0 true l o ->
  copies recur hb (props o) fs ->
  length hb <= lr ->
  (forall k, In k (index_keys len) -> find_prop h0 ArrayPrototype k = None) ->
  copying hb (calls s) None true (props o) fs lr [] s ->
  wp False (clone_elements recur (VRef l) (VRef lr) (VNum (Z.of_N len)))
     (fun _ s' => copying hb (calls s) None true (props o) fs lr [] s') s.
Proof.
  intros Hr Hh Hsrc Hrec Hlr Hidx Hst. unfold clone_elements.
  rewrite index_keys_of_length.
  apply (wp_for_of False
           (fun s' => copying hb (calls s) None true (props o) fs lr [] s'));
    [exact Hst|].
  intros i s' Hi Hst'. pose proof Hst' as (Hext' & _).
  assert (Hext0 : extends h0 (heap s')) by (eapply extends_trans; eassumption).
  pose proof (source_lookup h0 true l o i s' Hr Hsrc Hext0 (Hidx i Hi)
                (fun _ => index_key_not_length len i Hi)) as Hfind.
  wp_step (has_property_eq i l s'). rewrite Hfind.
  destruct (assoc i (props o)) as [p|] eqn:Hp.
  - wp_step (get_child l i s'). unfold child. rewrite Hfind.
    eapply wp_mono;
      [|apply (copying_step recur h0 hb (calls s) None true l o fs lr [] i p s');
        try assumption].
    + intros a s'' H. eapply copying_forget. exact H.
    + intros _. eapply index_key_not_length. exact Hi.
  - apply wp_ret. exact Hst'.
Qed.

(** The finished copy stands for the data of the source. *)
Lemma copying_result (h0 hb : list object) (cs : list call) (arr : bool)
      (l : loc) (o : object) (fs : list (string * data)) (lr : loc) (s : state) :
  source h0 arr l o ->
  fields_of (repr 0 h0) (props o) fs ->
  length hb <= lr ->
  copying hb cs None arr (props o) fs lr (own_enumerable_keys o) s ->
  exists o',
    heap s !! lr = Some o'
    /\ kind o' = (if arr then KArray (length_of (map fst (props o))) else KPlain)
    /\ proto o' = Some (proto_of arr)
    /\ length_of (map fst (props o')) = length_of (map fst (props o))
    /\ fields_of (repr (length hb) (heap s)) (props o') fs.
Proof.
  intros Hsrc [Hkeys Hall] Hlr (Hext & Hcs & Hlen & _ & qs & Hdest & Hvalid & Hdone).
  assert (Hcopied : forall k, In k (map fst (props o)) -> assoc k qs <> None).
  { intros k Hk. destruct (in_keys_assoc k _ Hk) as [p Hp].
    destruct (in_keys_field fs k (Hkeys k p Hp)) as [d Hd].
    destruct (all_fields_in _ _ _ _ Hall Hd) as (p' & Hp' & He & _).
    apply Hdone. eapply key_enumerable; eassumption. }
  assert (Hsame : length_of (map fst qs) = length_of (map fst (props o))).
  { apply length_of_ext. intros k. split.
    + intros Hk. destruct (in_keys_assoc k _ Hk) as [q Hq].
      apply (Hvalid k q Hq).
    + intros Hk. specialize (Hcopied k Hk).
      destruct (assoc k qs) as [q|] eqn:Hq; [|congruence].
      eapply assoc_in_keys. exact Hq. }
  eexists. split; [exact Hdest|]. cbn [kind proto props].
  split; [|split; [reflexivity|split; [exact Hsame|split]]].
  - unfold kind_of. destruct arr; [|reflexivity]. f_equal. exact Hsame.
  - intros k q Hq. destruct (Hvalid k q Hq) as (_ & Hin & _).
    destruct (in_keys_assoc k _ Hin) as [p Hp]. eapply Hkeys. exact Hp.
  - apply all_fields_intro. intros k d Hd.
    destruct (all_fields_in _ _ _ _ Hall Hd) as (p & Hp & He & _).
    pose proof (Hcopied k (assoc_in_keys _ _ _ Hp)) as Hq.
    destruct (assoc k qs) as [q|] eqn:Eq; [|congruence].
    destruct (Hvalid k q Eq) as (Heq & _ & Hrepr).
    exists q. split; [reflexivity|]. split; [exact Heq|].
    eapply repr_weaken; [|apply Hrepr; exact Hd]. lia.
Qed.

End CloneData.

Section CloneCopies.

Variable call_fn : func -> value -> list value -> M value.
Variable construct_fn : func -> list value -> M value.

Local Abbreviation clone_body' := (clone_body call_fn construct_fn).
Local Abbreviation clone' := (clone call_fn construct_fn).
Local Abbreviation construct' := (construct construct_fn).

Lemma typeof_object (l : loc) (o : object) (s : state) :
  heap s !! l = Some o ->
  negate (typeof_is (ret (VRef l)) "object") s
  = Ok (match kind o with KFunction _ => true | _ => false end) s.
Proof.
  intros Ho. unfold negate, typeof_is, bind, ret. cbn [typeof heap]. rewrite Ho.
  unfold typeof_obj. destruct (kind o); reflexivity.
Qed.

Lemma class_of_object (l : loc) (o : object) (s : state) :
  heap s !! l = Some o ->
  class_is (VRef l) "[object Function]" s
  = Ok (match kind o with KFunction _ => true | _ => false end) s.
Proof.
  intros Ho. unfold class_is. cbn [class_string]. rewrite Ho.
  destruct (kind o); reflexivity.
Qed.

Lemma node_condition (l : loc) (o : object) (s : state) :
  heap s !! l = Some o -> (forall f, kind o <> KFunction f) ->
  (ret (negb (truthy (VRef l))) ||| negate (typeof_is (ret (VRef l)) "object")
   ||| class_is (VRef l) "[object Function]") s = Ok false s.
Proof.
  intros Ho Hk.
  assert (E : match kind o with KFunction _ => true | _ => false end = false).
  { destruct (kind o) eqn:E; try reflexivity. exfalso. eapply Hk. reflexivity. }
  rewrite (or_else_false _ _ s s).
  - rewrite (class_of_object l o s Ho), E. reflexivity.
  - rewrite (or_else_false _ _ s s); [|reflexivity].
    rewrite (typeof_object l o s Ho), E. reflexivity.
Qed.

Lemma function_condition (l : loc) (o : object) (f : func) (s : state) :
  heap s !! l = Some o -> kind o = KFunction f ->
  (ret (negb (truthy (VRef l))) ||| negate (typeof_is (ret (VRef l)) "object")
   ||| class_is (VRef l) "[object Function]") s = Ok true s.
Proof.
  intros Ho Hk. apply or_else_true.
  rewrite (or_else_false _ _ s s); [|reflexivity].
  rewrite (typeof_object l o s Ho), Hk. reflexivity.
Qed.

Lemma heap_lookup (h0 : list object) (l P : loc) (o : object) (k : string)
      (s : state) :
  realm_ok h0 -> extends h0 (heap s) -> h0 !! l = Some o -> proto o = Some P ->
  find_prop h0 P k = None ->
  find_prop (heap s) l k = own_prop o k.
Proof.
  intros Hr Hext Ho Hp HP.
  rewrite (find_prop_stable h0 (heap s) l k);
    [|apply Hr|eapply lookup_lt_Some; exact Ho|exact Hext].
  eapply find_prop_own; eassumption.
Qed.

Lemma instanceof_eq (h0 : list object) (l P t : loc) (o : object) (s : state) :
  realm_ok h0 -> extends h0 (heap s) -> h0 !! l = Some o -> proto o = Some P ->
  intrinsic_proto P -> t <> ObjectPrototype ->
  instanceof (VRef l) t s = Ok (Nat.eqb P t) s.
Proof.
  intros Hr Hext Ho Hp HP Ht. unfold instanceof. f_equal.
  destruct Hr as (_ & (op & Hop & Hpop & _) & (ap & Hap & Hpap & _)
                  & (dp & Hdp & Hpdp) & (rp & Hrp & Hprp) & _).
  assert (Hlen : 5 < length (heap s)).
  { apply Hext in Hrp. eapply lookup_lt_Some. exact Hrp. }
  assert (Hobj : forall n, on_proto_chain n (heap s) ObjectPrototype t = false).
  { intros [|n]; [reflexivity|]. cbn [on_proto_chain].
    rewrite (Hext _ _ Hop), Hpop. reflexivity. }
  assert (Hzero : Nat.eqb ObjectPrototype t = false)
    by (apply Nat.eqb_neq; congruence).
  destruct (length (heap s)) as [|[|n]]; try lia.
  cbn [on_proto_chain]. rewrite (Hext _ _ Ho), Hp.
  destruct HP as [-> | [-> | [-> | ->]]].
  - rewrite (Hext _ _ Hop), Hpop, orb_false_r. reflexivity.
  - rewrite (Hext _ _ Hap), Hpap, Hzero, Hobj, orb_false_r. reflexivity.
  - rewrite (Hext _ _ Hdp), Hpdp, Hzero, Hobj, orb_false_r. reflexivity.
  - rewrite (Hext _ _ Hrp), Hprp, Hzero, Hobj, orb_false_r. reflexivity.
Qed.

(** An object whose [nodeType] is absent or falsy, or that has no
    [cloneNode], is not taken for a DOM node. *)
Lemma not_taken_for_node (h0 : list object) (l P : loc) (o : object) (s : state) :
  realm_ok h0 -> extends h0 (heap s) -> h0 !! l = Some o -> proto o = Some P ->
  find_prop h0 P "nodeType" = None ->
  (own_prop o "nodeType" = None
   \/ (exists p, own_prop o "nodeType" = Some p /\ truthy (pval p) = false)
   \/ (find_prop h0 P "cloneNode" = None /\ own_prop o "cloneNode" = None)) ->
  exists nodeType,
    get (VRef l) "nodeType" s = Ok nodeType s
    /\ (ret (truthy nodeType) &&& has_property "cloneNode" (VRef l)) s = Ok false s.
Proof.
  intros Hr Hext Ho Hp HP Hcases. eexists. split; [apply get_child|].
  unfold child. rewrite (heap_lookup h0 l P o "nodeType" s Hr Hext Ho Hp HP).
  destruct Hcases as [Hnone|[(p & Hsome & Hfalsy)|[HPc Hown]]].
  - rewrite Hnone. reflexivity.
  - rewrite Hsome. apply and_then_false. unfold ret. rewrite Hfalsy. reflexivity.
  - destruct (truthy _) eqn:Et.
    + rewrite (and_then_true _ _ s s) by reflexivity.
      rewrite has_property_eq.
      rewrite (heap_lookup h0 l P o "cloneNode" s Hr Hext Ho Hp HPc), Hown.
      reflexivity.
    + apply and_then_false. reflexivity.
Qed.

(** What is left of [clone_body] for an object that is no leaf, no DOM
    node, no date and no regular expression. *)
Lemma clone_body_rest (recur : value -> M value) (h0 : list object)
      (l P : loc) (o : object) (s : state) :
  realm_ok h0 -> extends h0 (heap s) -> h0 !! l = Some o -> proto o = Some P ->
  (forall f, kind o <> KFunction f) ->
  P = ObjectPrototype \/ P = ArrayPrototype ->
  (exists nodeType,
     get (VRef l) "nodeType" s = Ok nodeType s
     /\ (ret (truthy nodeType) &&& has_property "cloneNode" (VRef l)) s = Ok false s) ->
  clone_body' recur (VRef l) s
  = (isArr <- is_array (VRef l) ;;
     r <- (if isArr then
             r <- alloc empty_array ;;
             len <- get (VRef l) "length" ;;
             clone_elements recur (VRef l) r len ;;;
             ret r
           else
             ctor <- get (VRef l) "constructor" ;;
             if truthy ctor then
               ctor' <- get (VRef l) "constructor" ;;
               construct' ctor' []
             else alloc empty_object) ;;
     mixin r (VRef l) (Some recur)) s.
Proof.
  intros Hr Hext Ho Hp Hk HP (nodeType & Hget & Hnode). unfold clone_body.
  rewrite (bind_ok _ _ _ _ _ (node_condition l o s (Hext _ _ Ho) Hk)).
  rewrite (bind_ok _ _ _ _ _ Hget), (bind_ok _ _ _ _ _ Hnode).
  assert (HP' : intrinsic_proto P) by (destruct HP; [left|right; left]; assumption).
  rewrite (bind_ok _ _ _ _ _
             (instanceof_eq h0 l P DatePrototype o s Hr Hext Ho Hp HP' ltac:(discriminate))).
  replace (Nat.eqb P DatePrototype) with false by (destruct HP; subst P; reflexivity).
  rewrite (bind_ok _ _ _ _ _
             (instanceof_eq h0 l P RegExpPrototype o s Hr Hext Ho Hp HP' ltac:(discriminate))).
  replace (Nat.eqb P RegExpPrototype) with false by (destruct HP; subst P; reflexivity).
  reflexivity.
Qed.

Lemma node_facts_source (h0 : list object) (arr : bool) (l : loc) (o : object)
      (len : N) (fs : list (string * data)) :
  node_facts h0 arr l o len fs -> source h0 arr l o.
Proof.
  intros (Ho & Hk & Hp & _ & [Hkeys _] & Hfree & _).
  split; [exact Ho|]. split; [exact Hp|]. split.
  - destruct arr; [exists len|]; exact Hk.
  - intros k Hin. destruct (in_keys_assoc k _ Hin) as [p Hp'].
    apply Hfree. eapply Hkeys. exact Hp'.
Qed.

Lemma node_not_taken (h0 : list object) (arr : bool) (l : loc) (o : object)
      (len : N) (fs : list (string * data)) (s : state) :
  realm_ok h0 -> extends h0 (heap s) -> node_facts h0 arr l o len fs ->
  exists nodeType,
    get (VRef l) "nodeType" s = Ok nodeType s
    /\ (ret (truthy nodeType) &&& has_property "cloneNode" (VRef l)) s = Ok false s.
Proof.
  intros Hr Hext (Ho & Hk & Hp & _ & [Hkeys Hall] & Hfree & _ & Hclone & Hnode).
  assert (Hown : forall k, k <> "length" -> own_prop o k = assoc k (props o)).
  { intros k Hne. apply own_prop_plain. destruct arr; [right|left; exact Hk].
    split; [exists len; exact Hk|exact Hne]. }
  assert (HnT : find_prop h0 (proto_of arr) "nodeType" = None).
  { destruct Hr as (_ & _ & _ & _ & _ & _ & _ & H1 & H2 & _).
    destruct arr; assumption. }
  apply (not_taken_for_node h0 l (proto_of arr) o s Hr Hext Ho Hp HnT).
  rewrite !Hown by discriminate.
  destruct (assoc "nodeType" (props o)) as [p|] eqn:Ep; [|left; reflexivity].
  right. destruct Hnode as [Hno|Hfalsy].
  - right. split; [exact Hclone|].
    destruct (assoc "cloneNode" (props o)) as [pc|] eqn:Ec; [|reflexivity].
    exfalso. apply Hno. eapply Hkeys. exact Ec.
  - left. exists p. split; [reflexivity|].
    destruct (in_keys_field fs "nodeType" (Hkeys _ _ Ep)) as [d Hd].
    destruct (Hfalsy d Hd) as (v & -> & Hv).
    destruct (all_fields_in _ _ _ _ Hall Hd) as (p' & Hp' & _ & Hrepr).
    rewrite Ep in Hp'. injection Hp' as <-.
    cbn [repr] in Hrepr. destruct Hrepr as [-> _]. exact Hv.
Qed.

Lemma object_constructor (h0 : list object) (l : loc) (o : object) (len : N)
      (fs : list (string * data)) (s : state) :
  realm_ok h0 -> extends h0 (heap s) -> node_facts h0 false l o len fs ->
  get (VRef l) "constructor" s = Ok (VRef ObjectConstructor) s.
Proof.
  intros Hr Hext (Ho & Hk & Hp & _ & [Hkeys _] & Hfree & _).
  rewrite get_child. f_equal. unfold child.
  rewrite (find_prop_stable h0 (heap s) l "constructor");
    [|apply Hr|eapply lookup_lt_Some; exact Ho|exact Hext].
  pose proof Hr as (_ & (op & Hop & Hpop & _) & _ & _ & _ & _ & (p & Hctor & Hval) & _).
  assert (Hown : own_prop o "constructor" = None).
  { rewrite own_prop_plain by (left; exact Hk).
    destruct (assoc "constructor" (props o)) as [pc|] eqn:Ec; [|reflexivity].
    exfalso. destruct (Hfree "constructor" (Hkeys _ _ Ec)) as [Hnone _].
    cbn [proto_of] in Hnone. congruence. }
  unfold find_prop in *.
  assert (Hlen : 2 <= length h0).
  { destruct Hr as (_ & _ & _ & _ & _ & (oc & Hoc & _) & _).
    apply lookup_lt_Some in Hoc. unfold ObjectConstructor in Hoc. lia. }
  destruct (length h0) as [|[|n]]; try lia.
  cbn [chain_prop] in *. rewrite Ho, Hown, Hp. cbn [proto_of].
  rewrite Hop in *. rewrite Hpop in *.
  destruct (own_prop op "constructor") as [pc|]; [|discriminate].
  injection Hctor as ->. exact Hval.
Qed.

(** The array, or the object, that [clone] hands to [mixin]. *)
Lemma wp_new_copy (recur : value -> M value) (h0 : list object) (arr : bool)
      (l : loc) (o : object) (len : N) (fs : list (string * data)) (s : state) :
  realm_ok h0 -> extends h0 (heap s) -> node_facts h0 arr l o len fs ->
  copies recur (heap s) (props o) fs ->
  wp False
     (if arr then
        r <- alloc empty_array ;;
        n <- get (VRef l) "length" ;;
        clone_elements recur (VRef l) r n ;;;
        ret r
      else
        ctor <- get (VRef l) "constructor" ;;
        if truthy ctor then
          ctor' <- get (VRef l) "constructor" ;;
          construct' ctor' []
        else alloc empty_object)
     (fun r s' => r = VRef (length (heap s))
                  /\ copying (heap s) (calls s) None arr (props o) fs
                             (length (heap s)) [] s') s.
Proof.
  intros Hr Hext Hfacts Hrec.
  pose proof (node_facts_source _ _ _ _ _ _ Hfacts) as Hsrc.
  assert (Hnew : forall c : object,
             c = mkObject (kind_of arr []) (Some (proto_of arr)) [] ->
             copying (heap s) (calls s) None arr (props o) fs (length (heap s)) []
                     (mkState (heap s ++ [c]) (calls s))).
  { intros c ->. split; [apply extends_alloc|]. split; [reflexivity|].
    split; [cbn; rewrite length_app; cbn; lia|]. split; [exact I|].
    exists []. split; [cbn; apply list_lookup_middle; reflexivity|].
    split; [intros k q [=]|intros k []]. }
  destruct arr.
  - apply wp_bind, wp_alloc.
    set (s1 := mkState (heap s ++ [empty_array]) (calls s)).
    destruct Hfacts as (Ho & Hk & Hp & Hlen & Hfields & Hfree & Hidx & _).
    assert (Hget : get (VRef l) "length" s1 = Ok (VNum (Z.of_N len)) s1).
    { rewrite get_child. f_equal.
      rewrite (child_stable h0 (heap s1) l "length");
        [|apply Hr|eapply lookup_lt_Some; exact Ho
         |eapply extends_trans; [exact Hext|apply extends_alloc]].
      eapply child_length; eassumption. }
    wp_step Hget. apply wp_bind.
    eapply wp_mono;
      [|apply (wp_clone_elements_copy recur h0 (heap s) l o fs (length (heap s))
                 len s1 Hr Hext Hsrc Hrec (le_n _) (Hidx eq_refl))].
    + intros a s' Hst. apply wp_ret. split; [reflexivity|exact Hst].
    + apply Hnew. reflexivity.
  - wp_step (object_constructor h0 l o len fs s Hr Hext Hfacts). cbn [truthy].
    wp_step (object_constructor h0 l o len fs s Hr Hext Hfacts).
    destruct Hr as (_ & _ & _ & _ & _ & (oc & Hoc & Hkoc) & _).
    unfold wp, construct. rewrite (Hext _ _ Hoc), Hkoc.
    split; [reflexivity|]. apply Hnew. reflexivity.
Qed.

Lemma wp_eq {A} (T : Prop) (m m' : M A) (Q : A -> state -> Prop) (s : state) :
  m s = m' s -> wp T m' Q s -> wp T m Q s.
Proof. unfold wp. intros ->. exact id. Qed.

Lemma wp_clone_node (recur : value -> M value) (h0 : list object) (arr : bool)
      (l : loc) (o : object) (len : N) (fs : list (string * data)) (s : state) :
  realm_ok h0 -> extends h0 (heap s) -> node_facts h0 arr l o len fs ->
  copies recur (heap s) (props o) fs ->
  wp False (clone_body' recur (VRef l)) (cloned (node_data arr len fs) s) s.
Proof.
  intros Hr Hext Hfacts Hrec.
  pose proof (node_facts_source _ _ _ _ _ _ Hfacts) as Hsrc.
  pose proof Hfacts as (Ho & Hk & Hp & Hlen & Hfields & _).
  eapply wp_eq.
  { apply (clone_body_rest recur h0 l (proto_of arr) o s Hr Hext Ho Hp).
    - intros f. rewrite Hk. destruct arr; discriminate.
    - destruct arr; [right|left]; reflexivity.
    - eapply node_not_taken; eassumption. }
  assert (Harr : is_array (VRef l) s = Ok arr s).
  { unfold is_array. rewrite (Hext _ _ Ho), Hk. destruct arr; reflexivity. }
  wp_step Harr. apply wp_bind.
  eapply wp_mono; [|apply (wp_new_copy recur h0 arr l o len fs s); assumption].
  intros r s1 (-> & Hst). cbv beta.
  pose proof Hst as (_ & Hcalls & _).
  eapply wp_mono;
    [|apply (wp_mixin_copy recur h0 (heap s) arr l o fs (length (heap s)) s1
               Hr Hext Hsrc Hrec (le_n _)); rewrite Hcalls; exact Hst].
  intros v s' (-> & Hst').
  pose proof Hst' as (Hext' & Hcalls' & _).
  destruct (copying_result h0 (heap s) (calls s1) arr l o fs (length (heap s)) s'
              Hsrc Hfields (le_n _) Hst')
    as (o' & Ho' & Hk' & Hp' & Hlen' & Hkeys' & Hall').
  split; [|split; [exact Hext'|congruence]].
  unfold node_data. destruct arr; cbn [repr]; exists (length (heap s)), o'.
  - split; [reflexivity|]. split; [lia|]. split; [exact Ho'|].
    split; [rewrite Hk', (Hlen eq_refl); reflexivity|]. split; [exact Hp'|].
    split; [rewrite Hlen', (Hlen eq_refl); reflexivity|].
    split; [exact Hkeys'|exact Hall'].
  - split; [reflexivity|]. split; [lia|]. split; [exact Ho'|].
    split; [exact Hk'|]. split; [exact Hp'|]. split; [exact Hkeys'|exact Hall'].
Qed.

Lemma fields_fuel (R : string -> data -> nat -> Prop) (fs : list (string * data)) :
  all_fields (fun k d => exists F, forall n, F <= n -> R k d n) fs ->
  exists F, forall k d, In (k, d) fs -> forall n, F <= n -> R k d n.
Proof.
  induction fs as [|[k0 d0] fs IH]; intros H.
  - exists 0. intros k d [].
  - destruct H as [[F1 H1] H]. destruct (IH H) as [F2 H2].
    exists (Nat.max F1 F2). intros k d [[= <- <-]|Hin] n Hn.
    + apply H1. lia.
    + apply (H2 k d Hin). lia.
Qed.

(** What [clone] does on data. *)
Lemma clone_data (h0 : list object) (d : data) :
  realm_ok h0 ->
  forall v, repr 0 h0 v d -> plain_data h0 d ->
  exists F, forall n, F <= n -> forall s, extends h0 (heap s) ->
    wp False (clone' n v) (cloned d s) s.
Proof.
  intros Hr.
  assert (Hnode : forall arr len fs l o,
             all_fields
               (fun _ d => forall v, repr 0 h0 v d -> plain_data h0 d ->
                  exists F, forall n, F <= n -> forall s, extends h0 (heap s) ->
                    wp False (clone' n v) (cloned d s) s) fs ->
             node_facts h0 arr l o len fs ->
             all_fields (fun _ d' => plain_data h0 d') fs ->
             exists F, forall n, F <= n -> forall s, extends h0 (heap s) ->
               wp False (clone' n (VRef l)) (cloned (node_data arr len fs) s) s).
  { intros arr len fs l o IH Hfacts Hplain.
    pose proof Hfacts as (Ho & _ & _ & _ & [Hkeys Hall] & _).
    destruct (fields_fuel
                (fun k d n => forall p, assoc k (props o) = Some p ->
                   forall s, extends h0 (heap s) ->
                     wp False (clone' n (pval p)) (cloned d s) s) fs) as [F HF].
    { apply all_fields_intro. intros k d1 Hd.
      destruct (all_fields_in _ _ _ _ Hall Hd) as (p & Hp & _ & Hrepr).
      destruct (all_fields_in _ _ _ _ IH Hd (pval p) Hrepr
                  (all_fields_in _ _ _ _ Hplain Hd)) as [F HF].
      exists F. intros n Hn p' Hp'. rewrite Hp in Hp'. injection Hp' as <-.
      apply HF. exact Hn. }
    exists (S F). intros [|n] Hn s Hext; [lia|]. cbn [clone].
    apply (wp_clone_node (clone' n) h0 arr l o len fs s Hr Hext Hfacts).
    intros k p s' Hp Hext'.
    assert (Hext0 : extends h0 (heap s')) by (eapply extends_trans; eassumption).
    destruct (in_keys_field fs k (Hkeys k p Hp)) as [d0 Hd0].
    pose proof (HF k d0 Hd0 n ltac:(lia) p Hp s' Hext0) as H0.
    unfold wp in *. destruct (clone' n (pval p) s') as [v' s''| |] eqn:E;
      [|exact H0|exact H0].
    destruct H0 as (_ & Hext'' & Hcalls'').
    split; [exact Hext''|]. split; [exact Hcalls''|].
    intros d1 Hd. pose proof (HF k d1 Hd n ltac:(lia) p Hp s' Hext0) as H1.
    rewrite E in H1. apply H1. }
  induction d as [w|t|source flags|len items IH|fields IH] using data_induction;
    intros v Hrepr Hplain.
  - destruct Hrepr as [-> Hleaf]. exists 1.
    intros [|n] Hn s Hext; [lia|]. cbn [clone]. unfold clone_body.
    assert (Hcond : (ret (negb (truthy w))
                     ||| negate (typeof_is (ret w) "object")
                     ||| class_is w "[object Function]") s = Ok true s).
    { destruct w as [| | | | |l]; try (apply leaf_condition; discriminate).
      destruct Hleaf as (o & f & Ho & Hk).
      eapply function_condition; [apply Hext; exact Ho|exact Hk]. }
    wp_step Hcond. apply wp_ret.
    split; [|split; [apply extends_refl|reflexivity]].
    split; [reflexivity|]. eapply is_leaf_extends; eassumption.
  - destruct Hrepr as (l & o & -> & _ & Ho & Hk & Hp & Hnt). exists 1.
    intros [|n] Hn s Hext; [lia|]. cbn [clone]. unfold clone_body.
    wp_step (node_condition l o s (Hext _ _ Ho)
               ltac:(intros f; rewrite Hk; discriminate)).
    assert (HnT : find_prop h0 DatePrototype "nodeType" = None) by apply Hr.
    destruct (not_taken_for_node h0 l DatePrototype o s Hr Hext Ho Hp HnT)
      as (nodeType & Hget & Hnot).
    { left. unfold own_prop. rewrite Hk. exact Hnt. }
    wp_step Hget. wp_step Hnot.
    wp_step (instanceof_eq h0 l DatePrototype DatePrototype o s Hr Hext Ho Hp
               ltac:(right; right; left; reflexivity) ltac:(discriminate)).
    cbn [Nat.eqb DatePrototype].
    assert (Htime : getTime (VRef l) s = Ok (VNum t) s)
      by (unfold getTime; rewrite (Hext _ _ Ho), Hk; reflexivity).
    wp_step Htime. apply wp_alloc.
    split; [|split; [apply extends_alloc|reflexivity]].
    cbn [repr heap]. eexists _, _. split; [reflexivity|]. split; [apply le_n|].
    split; [apply list_lookup_middle; reflexivity|]. repeat split.
  - destruct Hrepr as (l & o & -> & _ & Ho & Hk & Hp & Hnt). exists 1.
    intros [|n] Hn s Hext; [lia|]. cbn [clone]. unfold clone_body.
    wp_step (node_condition l o s (Hext _ _ Ho)
               ltac:(intros f; rewrite Hk; discriminate)).
    assert (HnT : find_prop h0 RegExpPrototype "nodeType" = None) by apply Hr.
    destruct (not_taken_for_node h0 l RegExpPrototype o s Hr Hext Ho Hp HnT)
      as (nodeType & Hget & Hnot).
    { left. unfold own_prop. rewrite Hk. exact Hnt. }
    wp_step Hget. wp_step Hnot.
    wp_step (instanceof_eq h0 l RegExpPrototype DatePrototype o s Hr Hext Ho Hp
               ltac:(right; right; right; reflexivity) ltac:(discriminate)).
    cbn [Nat.eqb RegExpPrototype DatePrototype].
    wp_step (instanceof_eq h0 l RegExpPrototype RegExpPrototype o s Hr Hext Ho Hp
               ltac:(right; right; right; reflexivity) ltac:(discriminate)).
    cbn [Nat.eqb RegExpPrototype].
    unfold wp, new_RegExp. rewrite (Hext _ _ Ho), Hk. cbn [alloc].
    split; [|split; [apply extends_alloc|reflexivity]].
    cbn [repr heap]. eexists _, _. split; [reflexivity|]. split; [apply le_n|].
    split; [apply list_lookup_middle; reflexivity|]. repeat split.
  - destruct Hrepr as (l & o & -> & _ & Ho & Hk & Hp & Hlen & Hkeys & Hall).
    destruct Hplain as (Hfree & Hidx & Hclone & Hnode' & Hplain).
    apply (Hnode true len items l o IH); [|exact Hplain].
    split; [exact Ho|]. split; [exact Hk|]. split; [exact Hp|].
    split; [intros _; exact Hlen|]. split; [split; assumption|].
    split; [intros k Hin; destruct (Hfree k Hin); split; auto|].
    split; [intros _; exact Hidx|]. split; assumption.
  - destruct Hrepr as (l & o & -> & _ & Ho & Hk & Hp & Hkeys & Hall).
    destruct Hplain as (Hfree & Hclone & Hnode' & Hplain).
    apply (Hnode false 0%N fields l o IH); [|exact Hplain].
    split; [exact Ho|]. split; [exact Hk|]. split; [exact Hp|].
    split; [intros [=]|]. split; [split; assumption|].
    split; [intros k Hin; split; [apply Hfree; exact Hin|intros [=]]|].
    split; [intros [=]|]. split; assumption.
Qed.

(** C4 (amended). Let [v] stand for data: primitive values, functions,
    dates, regular expressions, arrays whose last index is in use and
    plain objects, no object being taken for a DOM node (a truthy
    [nodeType] with a [cloneNode]) and no key hiding a property of the
    prototypes.  With enough fuel [clone] returns [v] itself when it is a
    primitive value or a function, and otherwise a new date with the same
    time, a new regular expression with the same source and flags, a new
    array or a new plain object: the result stands for the same data
    through objects that did not exist before the call (functions apart,
    which are shared), the objects that existed are what they were, and
    no function is called. *)
Theorem clone_copies (s : state) (v : value) (d : data) :
  realm_ok (heap s) -> repr 0 (heap s) v d -> plain_data (heap s) d ->
  exists fuel, forall n, fuel <= n ->
    exists v' s',
      clone' n v s = Ok v' s'
      /\ repr (length (heap s)) (heap s') v' d
      /\ extends (heap s) (heap s')
      /\ calls s' = calls s
      /\ (forall w, d = DLeaf w -> v' = v).
Proof.
  intros Hr Hrepr Hplain.
  destruct (clone_data (heap s) d Hr v Hrepr Hplain) as [F HF].
  exists F. intros n Hn. specialize (HF n Hn s (extends_refl _)).
  unfold wp in HF. destruct (clone' n v s) as [v' s'| |]; try contradiction.
  destruct HF as (Hrepr' & Hext & Hcalls).
  exists v', s'. repeat (split; [first [reflexivity|assumption]|]).
  intros w ->. destruct Hrepr as [-> _]. destruct Hrepr' as [-> _]. reflexivity.
Qed.

End CloneCopies.

Ltac key_cases H :=
  cbn in H;
  repeat match type of H with
         | context [String.eqb ?k ?c] =>
             destruct (String.eqb_spec k c);
             [subst; cbn; tauto|]
         end;
  try discriminate H.

Lemma clone_case_realm : realm_ok (heap clone_case).
Proof.
  split; [apply protos_check_ok; reflexivity|].
  repeat split; try (eexists; repeat split; reflexivity).
Qed.

Lemma clone_case_repr : repr 0 (heap clone_case) (VRef 9) clone_case_data.
Proof.
  cbn [repr clone_case_data all_fields].
  eexists 9, _. split; [reflexivity|]. split; [lia|]. split; [reflexivity|].
  split; [reflexivity|]. split; [reflexivity|]. split.
  { intros k p H. key_cases H. }
  split; [eexists; repeat split; reflexivity|].
  split.
  { eexists. split; [reflexivity|]. split; [reflexivity|].
    eexists 10, _. split; [reflexivity|]. split; [lia|]. split; [reflexivity|].
    split; [reflexivity|]. split; [reflexivity|]. split; [reflexivity|]. split.
    { intros k p H. key_cases H. }
    split; [eexists; repeat split; reflexivity|].
    split; [|exact I].
    eexists. split; [reflexivity|]. split; [reflexivity|].
    eexists 11, _. split; [reflexivity|]. split; [lia|]. split; [reflexivity|].
    split; [reflexivity|]. split; [reflexivity|]. split.
    { intros k p H. key_cases H. }
    split; [eexists; repeat split; reflexivity|exact I]. }
  split.
  { eexists. split; [reflexivity|]. split; [reflexivity|].
    eexists 12, _. repeat split; try reflexivity; lia. }
  split.
  { eexists. split; [reflexivity|]. split; [reflexivity|].
    eexists 13, _. repeat split; try reflexivity; lia. }
  split; [|exact I].
  eexists. split; [reflexivity|]. split; [reflexivity|].
  split; [reflexivity|]. eexists _, _. split; reflexivity.
Qed.

Ltac in_cases H :=
  cbn in H;
  repeat (destruct H as [<-|H]; [try (split; [reflexivity|discriminate]); try reflexivity|]);
  try contradiction.

Lemma clone_case_plain : plain_data (heap clone_case) clone_case_data.
Proof.
  cbn [plain_data clone_case_data all_fields].
  split; [intros k H; in_cases H|]. split; [reflexivity|].
  split; [left; cbn; intuition discriminate|].
  split; [exact I|]. split; [|repeat split].
  split; [intros k H; in_cases H|].
  split; [intros k H; in_cases H|]. split; [reflexivity|].
  split; [left; cbn; intuition discriminate|].
  split; [exact I|]. split; [|exact I].
  split; [intros k H; in_cases H|]. split; [reflexivity|].
  split; [left; cbn; intuition discriminate|]. split; exact I.
Qed.

Lemma clone_copies_witness :
  exists fuel, forall n, fuel <= n ->
    exists v' s',
      clone sample_call sample_construct n (VRef 9) clone_case = Ok v' s'
      /\ repr (length (heap clone_case)) (heap s') v' clone_case_data
      /\ extends (heap clone_case) (heap s')
      /\ calls s' = calls clone_case
      /\ (forall w, clone_case_data = DLeaf w -> v' = VRef 9).
Proof.
  apply (clone_copies sample_call sample_construct clone_case (VRef 9)
           clone_case_data clone_case_realm clone_case_repr clone_case_plain).
Defined.

(** C4, as stated, fails on a plain object with a truthy [nodeType] and a
    [cloneNode] that is no function, which [clone] takes for a DOM node
    and on which it throws, and on an array whose last indices are holes,
    whose copy is shorter. *)
Lemma clone_not_always_a_copy :
  (forall n, clone sample_call sample_construct (S n) (VRef 9) node_like_case
             = Throw TypeError node_like_case)
  /\ (forall n, exists s',
        clone sample_call sample_construct (S (S n)) (VRef 9) sparse_case
        = Ok (VRef 10) s'
        /\ heap s' !! 9
           = Some (mkObject (KArray 3) (Some ArrayPrototype) [("0", shown (VNum 7))])
        /\ heap s' !! 10
           = Some (mkObject (KArray 1) (Some ArrayPrototype) [("0", shown (VNum 7))])).
Proof.
  split.
  - intros n. reflexivity.
  - intros n. eexists. split; [reflexivity|]. split; reflexivity.
Qed.

(** ** [deepUpdate] on trees *)

Lemma tree_induction (P : tree -> Prop) :
  (forall v, P (TLeaf v)) ->
  (forall l kids, all_fields (fun _ t => P t) kids -> P (TNode l kids)) ->
  forall t, P t.
Proof.
  intros Hleaf Hnode.
  fix IH 1. intros [v|l kids]; [apply Hleaf|]. apply Hnode.
  induction kids as [|[k t] kids IHk]; cbn [all_fields]; [exact I|].
  split; [apply IH|exact IHk].
Qed.

Lemma frame_refl (m : list loc) (h : list object) : frame m h h.
Proof. intros l o Ho. exists o. auto. Qed.

Lemma frame_trans (m m' : list loc) (h1 h2 h3 : list object) :
  (forall l, In l m' -> In l m) ->
  frame m h1 h2 -> frame m' h2 h3 -> frame m h1 h3.
Proof.
  intros Hsub H12 H23 l o Ho.
  destruct (H12 l o Ho) as (o2 & Ho2 & Hk2 & He2).
  destruct (H23 l o2 Ho2) as (o3 & Ho3 & Hk3 & He3).
  exists o3. split; [exact Ho3|]. split; [congruence|].
  intros Hn. rewrite He3, He2; auto.
Qed.

Lemma frame_insert (h : list object) (l : loc) (o o' : object) :
  h !! l = Some o -> kind o' = kind o -> frame [l] h (<[l := o']> h).
Proof.
  intros Ho Hk l1 o1 Ho1. destruct (decide (l1 = l)) as [->|Hne].
  - exists o'. rewrite list_lookup_insert_eq by (eapply lookup_lt_Some; exact Ho).
    split; [reflexivity|]. split; [congruence|].
    intros Hn. exfalso. apply Hn. left. reflexivity.
  - exists o1. rewrite list_lookup_insert_ne by congruence. auto.
Qed.

Lemma shaped_frame (m : list loc) (h h' : list object) (t : tree) :
  frame m h h' -> shaped h t -> (forall l, In l (locs t) -> ~ In l m) ->
  shaped h' t.
Proof.
  intros Hf. induction t as [v|l kids IH] using tree_induction; intros Hs Hd.
  - destruct v as [| | | | |lf]; try exact I.
    destruct Hs as (o & f & Ho & Hk).
    destruct (Hf lf o Ho) as (o' & Ho' & Hk' & _).
    exists o', f. split; [exact Ho'|congruence].
  - cbn [shaped] in *. destruct Hs as (Ho & Hnd & Hkids).
    destruct (Hf l _ Ho) as (o' & Ho' & _ & He).
    rewrite He in Ho' by (apply Hd; left; reflexivity).
    split; [exact Ho'|]. split; [exact Hnd|].
    apply all_fields_intro. intros k t Hin.
    apply (all_fields_in _ _ _ _ IH Hin).
    + apply (all_fields_in _ _ _ _ Hkids Hin).
    + intros l1 Hl1. apply Hd. cbn [locs]. right.
      apply in_flat_map. exists (k, t). split; [exact Hin|exact Hl1].
Qed.

Section KeyedLists.
Context {V : Type}.
Implicit Types (l : list (string * V)) (k : string).

Lemma assoc_in k (v : V) l : assoc k l = Some v -> In (k, v) l.
Proof.
  induction l as [|[k0 v0] l IH]; [discriminate|]. cbn [assoc].
  destruct (String.eqb k k0) eqn:E.
  - apply String.eqb_eq in E. intros [= ->]. left. congruence.
  - intros H. right. apply IH. exact H.
Qed.

Lemma assoc_none_keys k l : assoc k l = None -> ~ In k (map fst l).
Proof.
  induction l as [|[k0 v0] l IH]; [intros _ []|]. cbn [assoc map fst].
  destruct (String.eqb k k0) eqn:E; [discriminate|].
  apply String.eqb_neq in E. intros H [Heq|Hin]; [congruence|].
  apply IH; assumption.
Qed.

Lemma assoc_in_nodup k (v : V) l :
  List.NoDup (map fst l) -> In (k, v) l -> assoc k l = Some v.
Proof.
  induction l as [|[k0 v0] l IH]; [intros _ []|]. cbn [assoc map fst].
  intros Hnd [Heq|Hin].
  - injection Heq as -> ->. rewrite String.eqb_refl. reflexivity.
  - destruct (String.eqb k k0) eqn:E.
    + apply String.eqb_eq in E. subst k0. exfalso.
      apply NoDup_cons_iff in Hnd. apply (proj1 Hnd).
      apply (in_map fst) in Hin. exact Hin.
    + apply IH; [|exact Hin]. apply NoDup_cons_iff in Hnd. apply Hnd.
Qed.

Lemma in_replace k (v : V) l (x : string * V) :
  In x (replace_assoc k (fun _ => v) l) -> x = (k, v) \/ In x l.
Proof.
  induction l as [|[k0 v0] l IH]; [intros []|]. cbn [replace_assoc].
  destruct (String.eqb k k0) eqn:E.
  - apply String.eqb_eq in E. subst k0. intros [<-|Hin]; [left; reflexivity|].
    right. right. exact Hin.
  - intros [<-|Hin]; [right; left; reflexivity|].
    destruct (IH Hin) as [Hx|Hx]; [left; exact Hx|right; right; exact Hx].
Qed.

Lemma in_insert k (v : V) l (x : string * V) :
  In x (insert_new k v l) <-> x = (k, v) \/ In x l.
Proof.
  induction l as [|[k0 v0] l IH]; cbn [insert_new].
  - cbn. intuition congruence.
  - destruct (array_index k) as [n|], (array_index k0) as [n0|];
      try destruct (n <? n0)%N; cbn [In]; rewrite ?IH; cbn [In];
      intuition congruence.
Qed.

Lemma in_put k (v : V) l (x : string * V) :
  In x (put k v (fun _ => v) l) -> x = (k, v) \/ In x l.
Proof.
  unfold put. destruct (assoc k l); [apply in_replace|apply in_insert].
Qed.

Lemma in_keys_insert k k' (v : V) l :
  In k' (map fst (insert_new k v l)) <-> k' = k \/ In k' (map fst l).
Proof.
  rewrite !in_map_iff. split.
  - intros ([k1 v1] & <- & Hin). apply in_insert in Hin.
    destruct Hin as [[= -> ->]|Hin]; [left; reflexivity|].
    right. exists (k1, v1). auto.
  - intros [->|([k1 v1] & <- & Hin)].
    + exists (k, v). split; [reflexivity|]. apply in_insert. left. reflexivity.
    + exists (k1, v1). split; [reflexivity|]. apply in_insert. right. exact Hin.
Qed.

Lemma nodup_insert k (v : V) l :
  ~ In k (map fst l) -> List.NoDup (map fst l) -> List.NoDup (map fst (insert_new k v l)).
Proof.
  induction l as [|[k0 v0] l IH]; intros Hk Hnd; cbn [insert_new].
  - cbn. constructor; [intros []|constructor].
  - assert (Hcons : List.NoDup (k :: map fst ((k0, v0) :: l)))
      by (constructor; assumption).
    assert (Hrec : List.NoDup (k0 :: map fst (insert_new k v l))).
    { cbn [map fst] in *. apply NoDup_cons_iff in Hnd. destruct Hnd as [H0 Hnd].
      constructor.
      - rewrite in_keys_insert. intros [->|Hin]; [|exact (H0 Hin)].
        apply Hk. left. reflexivity.
      - apply IH; [|exact Hnd]. intros Hin. apply Hk. right. exact Hin. }
    destruct (array_index k) as [n|], (array_index k0) as [n0|];
      try destruct (n <? n0)%N; assumption.
Qed.

Lemma nodup_put k (v : V) (upd : V -> V) l :
  List.NoDup (map fst l) -> List.NoDup (map fst (put k v upd l)).
Proof.
  intros Hnd. unfold put. destruct (assoc k l) eqn:E.
  - rewrite keys_replace. exact Hnd.
  - apply nodup_insert; [apply assoc_none_keys; exact E|exact Hnd].
Qed.
End KeyedLists.

Lemma assoc_entry (k : string) (kids : list (string * tree)) :
  assoc k (map entry kids) = option_map (fun t => mkProp (root t) true) (assoc k kids).
Proof.
  induction kids as [|[k0 t0] kids IH]; [reflexivity|].
  cbn [map entry assoc fst snd]. destruct (String.eqb k k0); [reflexivity|exact IH].
Qed.

Lemma entry_put (k : string) (t : tree) (kids : list (string * tree)) :
  map entry (put k t (fun _ => t) kids)
  = put k (mkProp (root t) true) (fun p => mkProp (root t) (penum p))
        (map entry kids).
Proof.
  unfold put. rewrite assoc_entry. destruct (assoc k kids) as [t0|]; cbn [option_map].
  - clear t0. induction kids as [|[k0 t0] kids IH]; [reflexivity|].
    cbn [replace_assoc map entry fst snd].
    destruct (String.eqb k k0); cbn [map entry fst snd]; [reflexivity|].
    rewrite IH. reflexivity.
  - induction kids as [|[k0 t0] kids IH]; [reflexivity|].
    cbn [insert_new map entry fst snd].
    destruct (array_index k) as [n|], (array_index k0) as [n0|];
      try destruct (n <? n0)%N; cbn [map entry fst snd]; rewrite ?IH; reflexivity.
Qed.

Lemma entry_put_root (k : string) (t t0 : tree) (kids : list (string * tree)) :
  assoc k kids = Some t0 -> root t = root t0 ->
  map entry (put k t (fun _ => t) kids) = map entry kids.
Proof.
  intros Ha Hr. unfold put. rewrite Ha. revert Ha.
  induction kids as [|[k1 t1] kids IH]; [discriminate|].
  cbn [assoc replace_assoc]. destruct (String.eqb k k1) eqn:E.
  - intros [= ->]. cbn [map]. unfold entry at 1 3. cbn [fst snd]. rewrite Hr.
    reflexivity.
  - intros Ha. cbn [map]. rewrite (IH Ha). reflexivity.
Qed.

Lemma keys_entry (kids : list (string * tree)) :
  own_enumerable_keys (mkObject KPlain (Some ObjectPrototype) (map entry kids))
  = map fst kids.
Proof.
  unfold own_enumerable_keys. cbn [props].
  induction kids as [|[k t] kids IH]; [reflexivity|].
  cbn [map List.filter entry fst snd shown penum]. cbn [map fst]. f_equal. exact IH.
Qed.

Lemma typeof_root (h : list object) (t : tree) :
  shaped h t -> String.eqb (typeof h (root t)) "object" = object_typed t.
Proof.
  destruct t as [v|l kids]; cbn [shaped root object_typed typeof].
  - destruct v as [| | | | |lf]; try reflexivity.
    intros (o & f & Ho & Hk). cbn [is_leaf typeof]. rewrite Ho. unfold typeof_obj.
    rewrite Hk. reflexivity.
  - intros (Ho & _). rewrite Ho. reflexivity.
Qed.

Lemma undefined_root (t : tree) : is_undefined (root t) = undefined_tree t.
Proof. destruct t as [[| | | | |]|]; reflexivity. Qed.

Lemma find_prop_node (h : list object) (op : object) (l : loc) (k : string)
      (kids : list (string * tree)) :
  h !! ObjectPrototype = Some op -> proto op = None -> own_prop op k = None ->
  h !! l = Some (mkObject KPlain (Some ObjectPrototype) (map entry kids)) ->
  find_prop h l k = option_map (fun t => mkProp (root t) true) (assoc k kids).
Proof.
  intros Hop Hp Hk Hl. rewrite <- assoc_entry.
  rewrite (find_prop_own h l ObjectPrototype _ k Hl eq_refl); [reflexivity|].
  unfold find_prop. assert (Hlt : ObjectPrototype < length h)
    by (eapply lookup_lt_Some; exact Hop).
  destruct (length h) as [|n]; [lia|]. cbn [chain_prop].
  rewrite Hop, Hk, Hp. reflexivity.
Qed.

Lemma merge_node (la lb : loc) (akids bkids : list (string * tree)) :
  merge (TNode la akids) (TNode lb bkids)
  = option_map (TNode la) (merge_kids merge akids bkids).
Proof.
  cbn [merge]. f_equal. revert akids.
  induction bkids as [|[k tb] bkids IH]; intros akids; [reflexivity|].
  cbn [merge_kids].
  change (merge_key (fun ta _ => merge ta tb) akids k tb)
    with (merge_key merge akids k tb).
  destruct (merge_key merge akids k tb) as [kids'|]; [apply IH|reflexivity].
Qed.

Lemma depth_kid (k : string) (t : tree) (l : loc) (kids : list (string * tree)) :
  In (k, t) kids -> depth t < depth (TNode l kids).
Proof.
  cbn [depth]. induction kids as [|[k0 t0] kids IH]; [intros []|].
  cbn [fold_right snd]. intros [[= -> ->]|Hin]; [lia|]. specialize (IH Hin). lia.
Qed.

Lemma shaped_not_proto (h : list object) (op : object) (t : tree) :
  h !! ObjectPrototype = Some op -> proto op = None -> shaped h t ->
  ~ In ObjectPrototype (locs t).
Proof.
  intros Hop Hp. induction t as [v|l kids IH] using tree_induction; [intros _ []|].
  intros (Hl & _ & Hk) [->|Hin].
  - rewrite Hop in Hl. injection Hl as ->. discriminate Hp.
  - apply in_flat_map in Hin. destruct Hin as ([k t] & Hin & Hlt).
    exact (all_fields_in _ _ _ _ IH Hin (all_fields_in _ _ _ _ Hk Hin) Hlt).
Qed.

Lemma nodup_app_apart {A} (l l' : list A) (a : A) :
  List.NoDup (l ++ l') -> In a l -> ~ In a l'.
Proof.
  induction l as [|x l IH]; [intros _ []|]. cbn [app]. intros Hnd [->|Hin] Ha.
  - apply NoDup_cons_iff in Hnd. apply (proj1 Hnd). apply in_or_app. right. exact Ha.
  - apply NoDup_cons_iff in Hnd. exact (IH (proj2 Hnd) Hin Ha).
Qed.

Lemma nodup_flat_map_in {A B} (f : A -> list B) (l : list A) (x : A) :
  List.NoDup (flat_map f l) -> In x l -> List.NoDup (f x).
Proof.
  induction l as [|z l IH]; [intros _ []|]. cbn [flat_map]. intros Hnd [->|Hin].
  - exact (NoDup_app_remove_r _ _ Hnd).
  - exact (IH (NoDup_app_remove_l _ _ Hnd) Hin).
Qed.

Lemma nodup_flat_map_apart {A B} (f : A -> list B) (l : list A) (x y : A) (b : B) :
  List.NoDup (flat_map f l) -> In x l -> In y l -> x <> y ->
  In b (f x) -> ~ In b (f y).
Proof.
  induction l as [|z l IH]; [intros _ []|]. cbn [flat_map].
  intros Hnd [->|Hx] [->|Hy] Hne Hbx Hby.
  - congruence.
  - apply (nodup_app_apart _ _ b Hnd Hbx). apply in_flat_map. exists y. auto.
  - apply (nodup_app_apart _ _ b Hnd Hby). apply in_flat_map. exists x. auto.
  - exact (IH (NoDup_app_remove_l _ _ Hnd) Hx Hy Hne Hbx Hby).
Qed.

Lemma put_same {V} (k : string) (v : V) (l : list (string * V)) :
  assoc k l = Some v -> put k v (fun _ => v) l = l.
Proof.
  intros Ha. unfold put. rewrite Ha. revert Ha.
  induction l as [|[k0 v0] l IH]; [discriminate|]. cbn [assoc replace_assoc].
  destruct (String.eqb k k0); [intros [= ->]; reflexivity|].
  intros Ha. rewrite (IH Ha). reflexivity.
Qed.

Lemma in_put_nodup {V} (k : string) (v : V) (l : list (string * V))
      (x : string * V) :
  List.NoDup (map fst l) -> In x (put k v (fun _ => v) l) ->
  x = (k, v) \/ (In x l /\ fst x <> k).
Proof.
  intros Hnd. unfold put. destruct (assoc k l) as [old|] eqn:E.
  - clear old E. induction l as [|[k0 v0] l IH]; [intros []|]. cbn [replace_assoc].
    cbn [map fst] in Hnd. apply NoDup_cons_iff in Hnd. destruct Hnd as [H0 Hnd].
    destruct (String.eqb k k0) eqn:E.
    + apply String.eqb_eq in E. subst k0. intros [<-|Hin]; [left; reflexivity|].
      right. split; [right; exact Hin|]. intros Heq. apply H0. rewrite <- Heq.
      apply in_map. exact Hin.
    + apply String.eqb_neq in E. intros [<-|Hin].
      * right. split; [left; reflexivity|]. cbn [fst]. congruence.
      * destruct (IH Hnd Hin) as [Hx|[Hx Hk]]; [left; exact Hx|].
        right. split; [right; exact Hx|exact Hk].
  - intros Hin. apply in_insert in Hin. destruct Hin as [Hx|Hx]; [left; exact Hx|].
    right. split; [exact Hx|]. intros Heq. apply (assoc_none_keys _ _ E).
    rewrite <- Heq. apply in_map. exact Hx.
Qed.

Lemma and_then_ok (m1 m2 : M bool) (s : state) (b1 b2 : bool) :
  m1 s = Ok b1 s -> m2 s = Ok b2 s -> (m1 &&& m2) s = Ok (b1 && b2) s.
Proof.
  intros H1 H2. unfold and_then, bind. rewrite H1. destruct b1; [exact H2|reflexivity].
Qed.

Lemma or_else_ok (m1 m2 : M bool) (s : state) (b1 b2 : bool) :
  m1 s = Ok b1 s -> m2 s = Ok b2 s -> (m1 ||| m2) s = Ok (b1 || b2) s.
Proof.
  intros H1 H2. unfold or_else, bind. rewrite H1. destruct b1; [reflexivity|exact H2].
Qed.

Lemma kid_locs (k : string) (t : tree) (l : loc) (kids : list (string * tree))
      (l0 : loc) :
  In (k, t) kids -> In l (locs t) -> In l (locs (TNode l0 kids)).
Proof.
  intros Hin Hl. cbn [locs]. right. apply in_flat_map. exists (k, t). auto.
Qed.

Section DeepUpdateTrees.
Variables (op : object) (la lb : loc) (akids bkids : list (string * tree)).
Variable s0 : state.
Variable recur : value -> value -> M value.
Hypothesis Hapart : apart op (TNode la akids) (TNode lb bkids) s0.
Hypothesis Hrecur : forall k tb, In (k, tb) bkids ->
  forall ta t s, apart op ta tb s -> merge ta tb = Some t ->
    wp False (recur (root ta) (root tb)) (merged ta tb t s) s.

Local Abbreviation ta0 := (TNode la akids).
Local Abbreviation tb0 := (TNode lb bkids).

Lemma updating_skip (x : string * tree) (acc rest : list (string * tree))
      (s : state) :
  updating op la akids tb0 s0 acc (x :: rest) s ->
  updating op la akids tb0 s0 acc rest s.
Proof.
  intros (Hop & Hla & Hnd & Hacc & Hlocs & Hrest & Hframe & Hcalls).
  repeat (split; [assumption|]). split; [|split; assumption].
  intros k Hk. apply Hrest. right. exact Hk.
Qed.

Lemma kid_not_root (k : string) (t : tree) :
  In (k, t) akids -> ~ In la (locs t).
Proof.
  intros Hin Hl. destruct Hapart as (_ & _ & _ & _ & _ & Hnda & _).
  cbn [locs] in Hnda. apply NoDup_cons_iff in Hnda. apply (proj1 Hnda).
  apply in_flat_map. exists (k, t). auto.
Qed.

Lemma entry_not_root (acc rest : list (string * tree)) (s : state) (k : string)
      (t : tree) :
  updating op la akids tb0 s0 acc rest s -> In (k, t) acc -> ~ In la (locs t).
Proof.
  intros (_ & _ & _ & _ & Hlocs & _) Hin Hl.
  destruct Hapart as (_ & _ & _ & _ & _ & _ & Hdis).
  destruct (Hlocs k t la Hin Hl) as [Hb|(t0 & Hin0 & Hl0)].
  - apply (Hdis la); [left; reflexivity|exact Hb].
  - exact (kid_not_root k t0 Hin0 Hl0).
Qed.

Lemma update_set (k : string) (tb : tree) (acc rest : list (string * tree))
      (s : state) :
  In (k, tb) bkids -> ~ In k (map fst rest) ->
  updating op la akids tb0 s0 acc ((k, tb) :: rest) s ->
  wp False (set (VRef la) k (root tb))
     (fun _ s' => updating op la akids tb0 s0 (put k tb (fun _ => tb) acc) rest s')
     s.
Proof.
  intros Hin Hfresh Hup.
  pose proof Hup as (Hop & Hla & Hnd & Hacc & Hlocs & Hrest & Hframe & Hcalls).
  destruct Hapart as (Hop0 & Hproto & Hkeys & Hsa & Hsb & Hnda & Hdis).
  pose proof (shaped_not_proto _ _ _ Hop0 Hproto Hsa) as Hnop.
  unfold wp, set. rewrite Hla. unfold assign. cbn [kind proto props].
  rewrite <- entry_put.
  set (o' := mkObject KPlain (Some ObjectPrototype)
                      (map entry (put k tb (fun _ => tb) acc))).
  assert (Hf : frame [la] (heap s) (<[la := o']> (heap s))).
  { eapply frame_insert; [exact Hla|reflexivity]. }
  assert (Hlt : la < length (heap s)) by (eapply lookup_lt_Some; exact Hla).
  assert (Hstb : shaped (heap s) tb).
  { assert (Hsb' : shaped (heap s) tb0).
    { eapply shaped_frame; [exact Hframe|exact Hsb|].
      intros l Hl Hl'. exact (Hdis l Hl' Hl). }
    destruct Hsb' as (_ & _ & Hk). exact (all_fields_in _ _ _ _ Hk Hin). }
  assert (Hlb : ~ In la (locs tb)).
  { intros Hl. apply (Hdis la); [left; reflexivity|].
    eapply kid_locs; [exact Hin|exact Hl]. }
  unfold updating. cbn [heap calls]. split; [|split; [|split; [|split; [|split;
    [|split; [|split]]]]]].
  - rewrite list_lookup_insert_ne; [exact Hop|].
    intros Heq. apply Hnop. left. exact Heq.
  - apply list_lookup_insert_eq. exact Hlt.
  - apply nodup_put. exact Hnd.
  - apply all_fields_intro. intros k1 t1 Hin1.
    apply in_put in Hin1. destruct Hin1 as [[= -> ->]|Hin1].
    + eapply shaped_frame; [exact Hf|exact Hstb|].
      intros l Hl [<-|[]]. exact (Hlb Hl).
    + eapply shaped_frame; [exact Hf|exact (all_fields_in _ _ _ _ Hacc Hin1)|].
      intros l Hl [<-|[]]. exact (entry_not_root _ _ _ _ _ Hup Hin1 Hl).
  - intros k1 t1 l Hin1 Hl. apply in_put in Hin1.
    destruct Hin1 as [[= -> ->]|Hin1].
    + left. eapply kid_locs; [exact Hin|exact Hl].
    + exact (Hlocs k1 t1 l Hin1 Hl).
  - intros k1 Hk1. rewrite assoc_put_other.
    + apply Hrest. right. exact Hk1.
    + intros ->. exact (Hfresh Hk1).
  - eapply frame_trans; [|exact Hframe|exact Hf].
    intros l [<-|[]]. left. reflexivity.
  - exact Hcalls.
Qed.

Lemma update_recur (k : string) (tb ta t : tree)
      (acc rest : list (string * tree)) (s : state) :
  In (k, tb) bkids -> ~ In k (map fst rest) ->
  updating op la akids tb0 s0 acc ((k, tb) :: rest) s ->
  assoc k acc = Some ta -> merge ta tb = Some t ->
  wp False (recur (root ta) (root tb))
     (fun _ s' => updating op la akids tb0 s0 (put k t (fun _ => t) acc) rest s')
     s.
Proof.
  intros Hin Hfresh Hup Ha Hm.
  pose proof Hup as (Hop & Hla & Hnd & Hacc & Hlocs & Hrest & Hframe & Hcalls).
  destruct Hapart as (Hop0 & Hproto & Hkeys & Hsa & Hsb & Hnda & Hdis).
  pose proof (shaped_not_proto _ _ _ Hop0 Hproto Hsa) as Hnop.
  assert (Hsb' : shaped (heap s) tb0).
  { eapply shaped_frame; [exact Hframe|exact Hsb|].
    intros l Hl Hl'. exact (Hdis l Hl' Hl). }
  assert (Hstb : shaped (heap s) tb).
  { destruct Hsb' as (_ & _ & Hk). exact (all_fields_in _ _ _ _ Hk Hin). }
  assert (Hina : In (k, ta) akids).
  { apply assoc_in. rewrite <- Hrest; [exact Ha|left; reflexivity]. }
  assert (Hsub : forall l, In l (locs ta) -> In l (locs ta0)).
  { intros l Hl. eapply kid_locs; [exact Hina|exact Hl]. }
  assert (Hsta : shaped (heap s) ta).
  { exact (all_fields_in _ _ _ _ Hacc (assoc_in _ _ _ Ha)). }
  assert (Hnda' : List.NoDup (flat_map (fun kt => locs (snd kt)) akids)).
  { cbn [locs] in Hnda. apply NoDup_cons_iff in Hnda. apply Hnda. }
  assert (Hpre : apart op ta tb s).
  { unfold apart. repeat split; try assumption.
    - intros k1 Hk1. apply Hkeys. cbn [tree_keys]. apply in_flat_map.
      exists (k, tb). split; [exact Hin|right; exact Hk1].
    - exact (nodup_flat_map_in _ _ (k, ta) Hnda' Hina).
    - intros l Hl Hl'. apply (Hdis l (Hsub l Hl)).
      eapply kid_locs; [exact Hin|exact Hl']. }
  eapply wp_mono; [|exact (Hrecur k tb Hin ta t s Hpre Hm)].
  intros v s' (_ & Hroot & Hst & Hlt & Hf & Hc).
  assert (Hother : forall k1 t1, In (k1, t1) acc -> k1 <> k ->
            forall l, In l (locs t1) -> ~ In l (locs ta)).
  { intros k1 t1 Hin1 Hne l Hl Hl'.
    destruct (Hlocs k1 t1 l Hin1 Hl) as [Hb|(t0 & Hin0 & Hl0)].
    - exact (Hdis l (Hsub l Hl') Hb).
    - apply (nodup_flat_map_apart _ _ (k1, t0) (k, ta) l Hnda' Hin0 Hina);
        [congruence|exact Hl0|exact Hl']. }
  unfold updating. split; [|split; [|split; [|split; [|split;
    [|split; [|split]]]]]].
  - destruct (Hf _ _ Hop) as (o' & Ho' & _ & He).
    rewrite He in Ho'; [exact Ho'|]. intros Hl. apply Hnop. apply Hsub. exact Hl.
  - destruct (Hf _ _ Hla) as (o' & Ho' & _ & He).
    rewrite He in Ho' by exact (kid_not_root k ta Hina).
    rewrite (entry_put_root k t ta acc Ha Hroot). exact Ho'.
  - apply nodup_put. exact Hnd.
  - apply all_fields_intro. intros k1 t1 Hin1.
    apply (in_put_nodup _ _ _ _ Hnd) in Hin1.
    destruct Hin1 as [[= -> ->]|[Hin1 Hne]]; [exact Hst|].
    eapply shaped_frame; [exact Hf|exact (all_fields_in _ _ _ _ Hacc Hin1)|].
    exact (Hother k1 t1 Hin1 Hne).
  - intros k1 t1 l Hin1 Hl. apply in_put in Hin1.
    destruct Hin1 as [[= -> ->]|Hin1]; [|exact (Hlocs k1 t1 l Hin1 Hl)].
    destruct (Hlt l Hl) as [Hl'|Hl'].
    + right. exists ta. auto.
    + left. eapply kid_locs; [exact Hin|exact Hl'].
  - intros k1 Hk1. rewrite assoc_put_other.
    + apply Hrest. right. exact Hk1.
    + intros ->. exact (Hfresh Hk1).
  - eapply frame_trans; [exact Hsub|exact Hframe|exact Hf].
  - congruence.
Qed.

Lemma update_step (k : string) (tb : tree) (acc rest acc' : list (string * tree))
      (s : state) :
  In (k, tb) bkids -> ~ In k (map fst rest) ->
  updating op la akids tb0 s0 acc ((k, tb) :: rest) s ->
  merge_key merge acc k tb = Some acc' ->
  wp False (deepUpdate_body recur (VRef la) (VRef lb) k)
     (fun _ s' => updating op la akids tb0 s0 acc' rest s') s.
Proof.
  intros Hin Hfresh Hup Hm.
  pose proof Hup as (Hop & Hla & Hnd & Hacc & Hlocs & Hrest & Hframe & Hcalls).
  destruct Hapart as (Hop0 & Hproto & Hkeys & Hsa & Hsb & Hnda & Hdis).
  pose proof (shaped_not_proto _ _ _ Hop0 Hproto Hsa) as Hnop.
  assert (Hsb' : shaped (heap s) tb0).
  { eapply shaped_frame; [exact Hframe|exact Hsb|].
    intros l Hl Hl'. exact (Hdis l Hl' Hl). }
  assert (Hstb : shaped (heap s) tb).
  { cbn [shaped] in Hsb'. destruct Hsb' as (_ & _ & Hk).
    exact (all_fields_in _ _ _ _ Hk Hin). }
  assert (Hkey : own_prop op k = None).
  { apply Hkeys. cbn [tree_keys]. apply in_flat_map. exists (k, tb).
    split; [exact Hin|left; reflexivity]. }
  assert (Hfb : find_prop (heap s) lb k = Some (mkProp (root tb) true)).
  { destruct Hsb' as (Hlb & Hndb & _).
    rewrite (find_prop_node _ op lb k bkids Hop Hproto Hkey Hlb).
    rewrite (assoc_in_nodup k tb bkids Hndb Hin). reflexivity. }
  assert (Hfa : find_prop (heap s) la k
                = option_map (fun t => mkProp (root t) true) (assoc k acc)).
  { apply (find_prop_node _ op la k acc Hop Hproto Hkey Hla). }
  assert (Hgb : get (VRef lb) k s = Ok (root tb) s).
  { unfold get. rewrite Hfb. reflexivity. }
  assert (Htb : typeof_is (get (VRef lb) k) "object" s = Ok (object_typed tb) s).
  { unfold typeof_is. rewrite Hgb, typeof_root by exact Hstb. reflexivity. }
  assert (Hnb : not_undef (get (VRef lb) k) s = Ok (negb (undefined_tree tb)) s).
  { unfold not_undef, bind, ret. rewrite Hgb, undefined_root. reflexivity. }
  unfold merge_key, overlay in Hm. unfold deepUpdate_body.
  destruct (assoc k acc) as [ta|] eqn:Ha; cbn [option_map] in Hfa.
  - assert (Hsta : shaped (heap s) ta).
    { exact (all_fields_in _ _ _ _ Hacc (assoc_in _ _ _ Ha)). }
    assert (Hha : has_property k (VRef la) s = Ok true s).
    { unfold has_property. rewrite Hfa. reflexivity. }
    assert (Hga : get (VRef la) k s = Ok (root ta) s).
    { unfold get. rewrite Hfa. reflexivity. }
    assert (Hta : typeof_is (get (VRef la) k) "object" s = Ok (object_typed ta) s).
    { unfold typeof_is. rewrite Hga, typeof_root by exact Hsta. reflexivity. }
    assert (Hua : is_undef (get (VRef la) k) s = Ok (undefined_tree ta) s).
    { unfold is_undef, bind, ret. rewrite Hga, undefined_root. reflexivity. }
    pose proof (and_then_ok _ _ s _ _ (and_then_ok _ _ s _ _ Hha Htb) Hta) as Hc.
    cbn [andb] in Hc. rewrite andb_comm in Hc. wp_step Hc.
    destruct (object_typed ta && object_typed tb) eqn:Hobj.
    + wp_step Hga. wp_step Hgb.
      destruct (merge ta tb) as [t|] eqn:Hmt; [|discriminate].
      injection Hm as <-. apply wp_bind.
      eapply wp_mono; [|exact (update_recur k tb ta t acc rest s Hin Hfresh Hup Ha Hmt)].
      intros v s' Hup'. exact Hup'.
    + pose proof (or_else_ok _ _ s _ _ Hua Hnb) as Hc'. wp_step Hc'.
      destruct (undefined_tree ta || negb (undefined_tree tb)).
      * injection Hm as <-. wp_step Hgb.
        exact (update_set k tb acc rest s Hin Hfresh Hup).
      * injection Hm as <-. apply wp_ret. rewrite (put_same k ta acc Ha).
        exact (updating_skip _ _ _ _ Hup).
  - assert (Hha : has_property k (VRef la) s = Ok false s).
    { unfold has_property. rewrite Hfa. reflexivity. }
    assert (Hc : (has_property k (VRef la)
                  &&& typeof_is (get (VRef lb) k) "object"
                  &&& typeof_is (get (VRef la) k) "object") s = Ok false s).
    { unfold and_then at 1. unfold bind. unfold and_then, bind. rewrite Hha.
      reflexivity. }
    wp_step Hc.
    assert (Hua : is_undef (get (VRef la) k) s = Ok true s).
    { unfold is_undef, bind, ret, get. rewrite Hfa. reflexivity. }
    assert (Hc' : (is_undef (get (VRef la) k) ||| not_undef (get (VRef lb) k)) s
                  = Ok true s).
    { unfold or_else, bind. rewrite Hua. reflexivity. }
    wp_step Hc'. injection Hm as <-. wp_step Hgb.
    exact (update_set k tb acc rest s Hin Hfresh Hup).
Qed.

Lemma update_loop (rest : list (string * tree)) :
  forall (acc acc' : list (string * tree)) (s : state),
  (forall x, In x rest -> In x bkids) -> List.NoDup (map fst rest) ->
  updating op la akids tb0 s0 acc rest s ->
  merge_kids merge acc rest = Some acc' ->
  wp False (for_of (map fst rest) (deepUpdate_body recur (VRef la) (VRef lb)))
     (fun _ s' => updating op la akids tb0 s0 acc' [] s') s.
Proof.
  induction rest as [|[k tb] rest IH]; intros acc acc' s Hsub Hnd Hup Hm.
  - cbn [merge_kids] in Hm. injection Hm as <-. exact Hup.
  - cbn [merge_kids] in Hm. cbn [map fst for_of]. cbn [map fst] in Hnd.
    apply NoDup_cons_iff in Hnd. destruct Hnd as [Hfresh Hnd].
    destruct (merge_key merge acc k tb) as [acc1|] eqn:Hk; [|discriminate].
    apply wp_bind.
    eapply wp_mono;
      [|exact (update_step k tb acc rest acc1 s (Hsub _ (or_introl eq_refl))
                           Hfresh Hup Hk)].
    intros v s' Hup'. apply (IH acc1 acc' s'); try assumption.
    intros x Hx. apply Hsub. right. exact Hx.
Qed.
End DeepUpdateTrees.

Lemma deepUpdate_tree (op : object) (tb : tree) :
  forall (n : nat) (ta t : tree) (s : state),
  depth tb < n -> apart op ta tb s -> merge ta tb = Some t ->
  wp False (deepUpdate n (root ta) (root tb)) (merged ta tb t s) s.
Proof.
  induction tb as [v|lb bkids IH] using tree_induction;
    intros n ta t s Hn Hap Hm; [destruct ta; discriminate|].
  destruct n as [|n]; [lia|].
  pose proof Hap as (Hop & Hproto & Hkeys & Hsa & Hsb & Hnda & Hdis).
  pose proof Hsb as (Hlb & Hndb & Hkb).
  assert (Hks : object_keys (VRef lb) s = Ok (map fst bkids) s).
  { unfold object_keys. rewrite Hlb, keys_entry. reflexivity. }
  cbn [deepUpdate root]. wp_step Hks.
  destruct ta as [v|la akids].
  - destruct v; try discriminate. destruct bkids as [|x bkids]; [|discriminate].
    injection Hm as <-. cbn [map for_of]. apply wp_bind, wp_ret, wp_ret.
    unfold merged. cbn [root locs shaped is_leaf].
    repeat split; auto using frame_refl.
  - rewrite merge_node in Hm.
    destruct (merge_kids merge akids bkids) as [acc'|] eqn:Hmk; [|discriminate].
    injection Hm as <-. cbn [root]. apply wp_bind.
    pose proof Hsa as (Hla & Hnda' & Hka).
    eapply wp_mono;
      [|apply (update_loop op la lb akids bkids s (deepUpdate n) Hap)
          with (rest := bkids) (acc := akids) (acc' := acc')].
    + intros u s' (Hop' & Hla' & Hnd' & Hacc' & Hlocs' & _ & Hframe' & Hcalls').
      apply wp_ret. unfold merged. cbn [root shaped].
      split; [reflexivity|]. split; [reflexivity|]. split; [auto|].
      split; [|split; assumption].
      intros l [<-|Hl]; [left; left; reflexivity|].
      apply in_flat_map in Hl. destruct Hl as ([k1 t1] & Hin1 & Hl1).
      destruct (Hlocs' k1 t1 l Hin1 Hl1) as [Hb|(t0 & Hin0 & Hl0)];
        [right; exact Hb|left].
      eapply kid_locs; [exact Hin0|exact Hl0].
    + intros k tb Hin ta1 t1 s1 Hap1 Hm1.
      apply (all_fields_in _ _ _ _ IH Hin); [|exact Hap1|exact Hm1].
      pose proof (depth_kid k tb lb bkids Hin). lia.
    + intros x Hx. exact Hx.
    + exact Hndb.
    + unfold updating. repeat split; try assumption.
      * intros k1 t1 l Hin1 Hl1. right. exists t1. auto.
      * apply frame_refl.
    + exact Hmk.
Qed.

Lemma merge_kids_keys (bkids : list (string * tree)) :
  forall akids kids : list (string * tree),
  List.NoDup (map fst bkids) -> merge_kids merge akids bkids = Some kids ->
  (forall k, ~ In k (map fst bkids) -> assoc k kids = assoc k akids)
  /\ (forall k tb, In (k, tb) bkids ->
        assoc k kids = overlay merge (assoc k akids) tb).
Proof.
  induction bkids as [|[k0 tb0] bkids IH]; intros akids kids Hnd Hm.
  - injection Hm as <-. split; [reflexivity|intros k tb []].
  - cbn [merge_kids] in Hm. cbn [map fst] in Hnd.
    apply NoDup_cons_iff in Hnd. destruct Hnd as [Hfresh Hnd].
    destruct (merge_key merge akids k0 tb0) as [acc|] eqn:Hk; [|discriminate].
    unfold merge_key in Hk.
    destruct (overlay merge (assoc k0 akids) tb0) as [t0|] eqn:Ho; [|discriminate].
    injection Hk as <-.
    destruct (IH _ _ Hnd Hm) as [Hout Hin]. split.
    + intros k Hk. rewrite Hout by (intros H; apply Hk; right; exact H).
      apply assoc_put_other. intros ->. apply Hk. left. reflexivity.
    + intros k tb [[= -> ->]|Hin'].
      * rewrite (Hout k Hfresh), assoc_put_same, Ho.
        destruct (assoc k akids); reflexivity.
      * rewrite (Hin k tb Hin'), assoc_put_other; [reflexivity|].
        intros ->. apply Hfresh. apply (in_map fst) in Hin'. exact Hin'.
Qed.

(** C1 (amended).  Let [a] and [b] be the roots of two trees of plain
    objects that share no object, none occurring twice in [a]'s tree and
    no key of [b]'s tree naming a property of [Object.prototype], and let
    the merge rule have an answer [t] for them: the recursion never
    enters [null] with something to enumerate.  Then
    [deepUpdate(a, b)], given enough fuel, returns [a], whose tree has
    become [t] in place: under each key of [b] lies what the rule says
    (the merge of the two values when the key is present in [a] and both
    are object-typed, otherwise the value of [b] exactly when that of [a]
    is undefined or that of [b] is not), the keys of [a] absent from [b]
    hold what they held, [b] and every object outside [a]'s tree are as
    they were, and no function has been called. *)
Theorem deepUpdate_merges (op : object) (s : state) (la lb : loc)
        (akids bkids : list (string * tree)) (t : tree) :
  apart op (TNode la akids) (TNode lb bkids) s ->
  merge (TNode la akids) (TNode lb bkids) = Some t ->
  exists kids,
    t = TNode la kids
    /\ (forall k tb, In (k, tb) bkids ->
          assoc k kids = overlay merge (assoc k akids) tb)
    /\ (forall k, ~ In k (map fst bkids) -> assoc k kids = assoc k akids)
    /\ exists fuel, forall n, fuel <= n ->
         exists s',
           deepUpdate n (VRef la) (VRef lb) s = Ok (VRef la) s'
           /\ shaped (heap s') t
           /\ shaped (heap s') (TNode lb bkids)
           /\ frame (locs (TNode la akids)) (heap s) (heap s')
           /\ calls s' = calls s.
Proof.
  intros Hap Hm. pose proof Hm as Hm'. rewrite merge_node in Hm'.
  destruct (merge_kids merge akids bkids) as [kids|] eqn:Hmk; [|discriminate].
  injection Hm' as <-. exists kids. split; [reflexivity|].
  pose proof Hap as (_ & _ & _ & _ & Hsb & _ & Hdis).
  destruct (merge_kids_keys bkids akids kids (proj1 (proj2 Hsb)) Hmk) as [Hout Hin].
  split; [exact Hin|]. split; [exact Hout|].
  exists (S (depth (TNode lb bkids))). intros n Hn.
  assert (Hd : depth (TNode lb bkids) < n) by lia.
  pose proof (deepUpdate_tree op _ n _ _ s Hd Hap Hm) as Hwp.
  unfold wp in Hwp. cbn [root] in Hwp.
  destruct (deepUpdate n (VRef la) (VRef lb) s) as [v s'|e s'|]; [|destruct Hwp..].
  destruct Hwp as (-> & _ & Hst & _ & Hf & Hc).
  exists s'. split; [reflexivity|]. split; [exact Hst|].
  split; [|split; assumption].
  eapply shaped_frame; [exact Hf|exact Hsb|].
  intros l Hl Hl'. exact (Hdis l Hl' Hl).
Qed.

Ltac distinct :=
  cbn [map fst]; repeat (apply List.NoDup_cons; [cbn; intuition discriminate|]);
  apply List.NoDup_nil.

Lemma merge_case_apart :
  apart (mkObject KPlain None
           [("constructor", hidden (VRef ObjectConstructor));
            ("toString", hidden (VRef 6));
            ("valueOf", hidden (VRef 7));
            ("hasOwnProperty", hidden (VRef 8))])
        merge_case_a merge_case_b merge_case.
Proof.
  unfold apart. split; [reflexivity|]. split; [reflexivity|]. split.
  { intros k Hk. cbn in Hk. intuition (subst; reflexivity). }
  split.
  { cbn [shaped merge_case_a all_fields is_leaf].
    repeat split; try reflexivity; distinct. }
  split.
  { cbn [shaped merge_case_b all_fields is_leaf].
    repeat split; try reflexivity; distinct. }
  split; [cbn; distinct|]. cbn. intuition (subst; discriminate).
Qed.

Lemma deepUpdate_merges_witness :
  merge merge_case_a merge_case_b = Some merge_case_result
  /\ exists fuel s',
       deepUpdate fuel (VRef 9) (VRef 11) merge_case = Ok (VRef 9) s'
       /\ shaped (heap s') merge_case_result
       /\ shaped (heap s') merge_case_b.
Proof.
  split; [reflexivity|].
  destruct (deepUpdate_merges _ _ _ _ _ _ _ merge_case_apart
              (eq_refl : merge merge_case_a merge_case_b = Some merge_case_result))
    as (kids & _ & _ & _ & fuel & Hrun).
  destruct (Hrun fuel (le_n fuel)) as (s' & Hok & Hs & Hb & _).
  exists fuel, s'. auto.
Defined.

(** ** The [create] command *)

Section CreateFacts.
Import Create.

Variable FS : Type.
Variable mkdir : string -> FS -> option FS.
Variable readdir : string -> FS -> option (list string).
Variable fetch : string -> option response.

Local Abbreviation run := (Create.run FS mkdir readdir fetch).
Local Abbreviation checkPath := (Create.checkPath FS readdir).
Local Abbreviation fetchGithubVersions := (Create.fetchGithubVersions FS fetch).
Local Abbreviation getTagOrLatest := (Create.getTagOrLatest FS fetch).

Lemma world_eta (w : world FS) : mkWorld (fs w) (requests w) (output w) = w.
Proof. destruct w; reflexivity. Qed.

Lemma filter_twice {A} (p q : A -> bool) (l : list A) :
  List.filter q (List.filter p l) = List.filter (fun x => p x && q x) l.
Proof.
  induction l as [|x l IH]; simpl; [reflexivity|].
  destruct (p x); simpl; [destruct (q x)|]; rewrite IH; reflexivity.
Qed.

Lemma filter_nil_iff {A} (p : A -> bool) (l : list A) :
  List.filter p l = [] <-> (forall x, In x l -> p x = false).
Proof.
  induction l as [|y l IH]; simpl.
  - split; [intros _ x []|reflexivity].
  - destruct (p y) eqn:Hy; split.
    + discriminate.
    + intros H. specialize (H y (or_introl eq_refl)). congruence.
    + intros H x [<-|Hx]; [assumption|]. apply IH; assumption.
    + intros H. apply IH. intros x Hx. apply H. right; assumption.
Qed.

Lemma fetchGithubVersions_eq (w : world FS) (r : response)
      (rs : list GithubRelease) :
  fetch releases_url = Some r -> ok r = true -> json r = Some rs ->
  fetchGithubVersions w =
  Returned (match List.filter web_release rs with
            | [] => rs
            | _ :: _ => List.filter web_release rs
            end)
           (mkWorld (fs w) (requests w ++ [releases_url]) (output w)).
Proof.
  intros Hf Hok Hj.
  unfold Create.fetchGithubVersions, cbind, do_fetch.
  rewrite Hf. rewrite Hok. simpl. rewrite Hj. unfold creturn.
  rewrite filter_twice.
  rewrite (List.filter_ext _ web_release).
  2:{ intros x. unfold web_release. destruct (prerelease x); reflexivity. }
  destruct (List.filter web_release rs); reflexivity.
Qed.

(** C10. When the release listing is fetched, [fetchGithubVersions]
    returns exactly the releases that are not prereleases and whose tag
    starts with [@gmod/jbrowse-web], in the order of the listing, as soon
    as there is one; otherwise it returns the whole listing, prereleases
    and other families included. *)
Theorem fetchGithubVersions_selection (w : world FS) (r : response)
        (rs : list GithubRelease) :
  fetch releases_url = Some r -> ok r = true -> json r = Some rs ->
  exists versions,
    fetchGithubVersions w =
    Returned versions (mkWorld (fs w) (requests w ++ [releases_url]) (output w))
    /\ ((exists x, In x rs /\ web_release x = true) ->
        versions = List.filter web_release rs
        /\ (forall x, In x versions <-> In x rs /\ web_release x = true))
    /\ ((forall x, In x rs -> web_release x = false) -> versions = rs).
Proof.
  intros Hf Hok Hj. eexists. split; [eapply fetchGithubVersions_eq; eassumption|].
  split.
  - intros (x & Hx & Hweb).
    destruct (List.filter web_release rs) as [|y l] eqn:E.
    + exfalso. pose proof (proj1 (filter_nil_iff _ _) E x Hx). congruence.
    + split; [reflexivity|]. intros z. rewrite <- E. apply List.filter_In.
  - intros Hnone. apply filter_nil_iff in Hnone. rewrite Hnone. reflexivity.
Qed.

(** What [getTagOrLatest] does once the versions are known. *)
Lemma getTagOrLatest_eq (w w' : world FS) (t : option string)
      (rs : list GithubRelease) :
  fetchGithubVersions w = Returned rs w' ->
  getTagOrLatest t w =
  match (if given t
         then List.find (fun version =>
                      String.eqb (tag_name version)
                                 (match t with Some t => t | None => "" end)) rs
         else nth_error rs 0) with
  | Some v =>
      match assets v with
      | a :: _ => Returned (browser_download_url a) w'
      | [] => Exited Uncaught None w'
      end
  | None =>
      Exited (ExitCode 40)
             (Some "Could not find version specified. Use --listVersions to see all available versions")
             w'
  end.
Proof.
  intros H. unfold Create.getTagOrLatest, cbind. rewrite H.
  destruct (if given t then _ else _) as [v|]; [|reflexivity].
  destruct (assets v); reflexivity.
Qed.

Lemma find_first {A} (p : A -> bool) (pre post : list A) (x : A) :
  (forall y, In y pre -> p y = false) -> p x = true ->
  List.find p (pre ++ x :: post) = Some x.
Proof.
  intros Hpre Hx. induction pre as [|y pre IH]; simpl.
  - rewrite Hx. reflexivity.
  - rewrite (Hpre y (or_introl eq_refl)). apply IH.
    intros z Hz. apply Hpre. right; assumption.
Qed.

Lemma find_none {A} (p : A -> bool) (l : list A) :
  (forall y, In y l -> p y = false) -> List.find p l = None.
Proof.
  intros H. induction l as [|y l IH]; simpl; [reflexivity|].
  rewrite (H y (or_introl eq_refl)). apply IH.
  intros z Hz. apply H. right; assumption.
Qed.

(** C7 (amended). Let the release listing be fetched, and let the
    versions be what [fetchGithubVersions] selects from it: its
    jbrowse-web releases that are no prereleases, or the whole listing
    when it has none.  With a non-empty tag, [getTagOrLatest] exits
    with code 40 when none of the versions carries exactly that tag,
    and otherwise returns the first asset's URL of the first version
    that carries it; with no tag or an empty tag it returns the first
    asset's URL of the first version. *)
Theorem getTagOrLatest_resolution (w : world FS) (r : response)
        (rs : list GithubRelease) :
  fetch releases_url = Some r -> ok r = true -> json r = Some rs ->
  let versions := match List.filter web_release rs with
                  | [] => rs
                  | _ :: _ => List.filter web_release rs
                  end in
  let w' := mkWorld (fs w) (requests w ++ [releases_url]) (output w) in
  (forall t, t <> "" ->
     (forall v, In v versions -> tag_name v <> t) ->
     exists msg, getTagOrLatest (Some t) w = Exited (ExitCode 40) msg w')
  /\ (forall t pre v post a others, t <> "" ->
        versions = pre ++ v :: post ->
        (forall v', In v' pre -> tag_name v' <> t) ->
        tag_name v = t -> assets v = a :: others ->
        getTagOrLatest (Some t) w = Returned (browser_download_url a) w')
  /\ (forall t v rest a others, given t = false ->
        versions = v :: rest -> assets v = a :: others ->
        getTagOrLatest t w = Returned (browser_download_url a) w').
Proof.
  intros Hf Hok Hj versions w'.
  pose proof (fetchGithubVersions_eq w r rs Hf Hok Hj) as H.
  fold versions in H. fold w' in H.
  split; [|split].
  - intros t Ht Hnone. rewrite (getTagOrLatest_eq _ _ _ _ H).
    simpl. apply String.eqb_neq in Ht. rewrite Ht. simpl.
    rewrite find_none; [eexists; reflexivity|].
    intros y Hy. apply String.eqb_neq. apply Hnone; assumption.
  - intros t pre v post a others Ht Hv Hpre Hr Ha.
    rewrite (getTagOrLatest_eq _ _ _ _ H). rewrite Hv.
    simpl. apply String.eqb_neq in Ht. rewrite Ht. simpl.
    rewrite (find_first _ pre post v).
    + rewrite Ha. reflexivity.
    + intros y Hy. apply String.eqb_neq. apply Hpre; assumption.
    + apply String.eqb_eq. assumption.
  - intros t v rest a others Hg Hv Ha.
    rewrite (getTagOrLatest_eq _ _ _ _ H). rewrite Hg, Hv. simpl.
    rewrite Ha. reflexivity.
Qed.



(** The validation of the path looks at the directory [mkdir] left. *)
Lemma run_unreadable (argsPath : string) (fl : flags) (w : world FS) (fs1 : FS) :
  force fl = false -> listVersions fl = false ->
  mkdir argsPath (fs w) = Some fs1 -> readdir argsPath fs1 = None ->
  run argsPath fl w =
  Exited (ExitCode 20) (Some "Directory does not exist")
         (mkWorld fs1 (requests w) (output w)).
Proof.
  intros Hf Hl Hm Hr.
  unfold Create.run, cbind, try_or_error, do_mkdir, creturn.
  rewrite Hl, Hm, Hf. simpl.
  unfold Create.checkPath, cbind, try_catch, do_readdir. simpl.
  rewrite Hr. reflexivity.
Qed.

Lemma run_nonempty (argsPath : string) (fl : flags) (w : world FS) (fs1 : FS)
      (x : string) (l : list string) :
  force fl = false -> listVersions fl = false ->
  mkdir argsPath (fs w) = Some fs1 -> readdir argsPath fs1 = Some (x :: l) ->
  run argsPath fl w =
  Exited (ExitCode 10) (Some (nonempty_message argsPath))
         (mkWorld fs1 (requests w) (output w)).
Proof.
  intros Hf Hl Hm Hr.
  unfold Create.run, cbind, try_or_error, do_mkdir, creturn.
  rewrite Hl, Hm, Hf. simpl.
  unfold Create.checkPath, cbind, try_catch, do_readdir. simpl.
  rewrite Hr. reflexivity.
Qed.

(** C6 (amended). Without [--force] (and without [--listVersions], which
    ends the command before any validation) the path is validated once
    [mkdir] has run, on the file system [mkdir] left: [run] exits with
    code 20 when the target directory cannot be read there, and with
    code 10 when it holds at least one entry.  In both cases the list of
    requests is what it was, so nothing was fetched, and the file system
    is the one [mkdir] left. *)
Theorem run_checkPath_exit (argsPath : string) (fl : flags) (w : world FS)
        (fs1 : FS) :
  force fl = false -> listVersions fl = false ->
  mkdir argsPath (fs w) = Some fs1 ->
  (readdir argsPath fs1 = None ->
     run argsPath fl w =
     Exited (ExitCode 20) (Some "Directory does not exist")
            (mkWorld fs1 (requests w) (output w)))
  /\ (forall x l, readdir argsPath fs1 = Some (x :: l) ->
        run argsPath fl w =
        Exited (ExitCode 10) (Some (nonempty_message argsPath))
               (mkWorld fs1 (requests w) (output w))).
Proof.
  intros Hf Hl Hm. split.
  - intros Hr. apply run_unreadable; assumption.
  - intros x l Hr. apply (run_nonempty argsPath fl w fs1 x l); assumption.
Qed.


End CreateFacts.

Lemma fetchGithubVersions_selection_witness :
  exists versions,
    Create.fetchGithubVersions Disk.disk (Disk.serve Disk.listing) (Disk.start []) =
    Create.Returned versions
      (Create.mkWorld [] ([] ++ [Create.releases_url]) [])
    /\ ((exists x, In x Disk.listing /\ Create.web_release x = true) ->
        versions = List.filter Create.web_release Disk.listing
        /\ (forall x, In x versions <->
                      In x Disk.listing /\ Create.web_release x = true))
    /\ ((forall x, In x Disk.listing -> Create.web_release x = false) ->
        versions = Disk.listing).
Proof.
  apply (fetchGithubVersions_selection Disk.disk (Disk.serve Disk.listing)
           (Disk.start [])
           (Create.mkResponse true (Some "application/json") (Some Disk.listing))
           Disk.listing); reflexivity.
Defined.

(** In the fallback case a release of another family is listed and is
    resolved by its tag. *)
Example fallback_surfaces_other_family :
  Create.fetchGithubVersions Disk.disk (Disk.serve Disk.early_listing) (Disk.start [])
  = Create.Returned Disk.early_listing
      (Create.mkWorld [] [Create.releases_url] [])
  /\ Create.getTagOrLatest Disk.disk (Disk.serve Disk.early_listing)
       (Some "@gmod/jbrowse-desktop@v0.0.1") (Disk.start [])
     = Create.Returned "https://example.org/desktop-0.0.1.zip"
         (Create.mkWorld [] [Create.releases_url] []).
Proof. split; reflexivity. Qed.

Lemma getTagOrLatest_resolution_witness :
  Create.getTagOrLatest Disk.disk (Disk.serve Disk.listing)
    (Some "@gmod/jbrowse-web@v0.0.1") (Disk.start [])
  = Create.Returned "https://example.org/web-0.0.1.zip"
      (Create.mkWorld [] [Create.releases_url] [])
  /\ (exists msg,
        Create.getTagOrLatest Disk.disk (Disk.serve Disk.listing)
          (Some "@gmod/jbrowse-desktop@v0.0.2") (Disk.start [])
        = Create.Exited (Create.ExitCode 40) msg
            (Create.mkWorld [] [Create.releases_url] []))
  /\ Create.getTagOrLatest Disk.disk (Disk.serve Disk.listing) (Some "")
       (Disk.start [])
     = Create.Returned "https://example.org/web-0.0.2.zip"
         (Create.mkWorld [] [Create.releases_url] []).
Proof.
  pose proof (getTagOrLatest_resolution Disk.disk (Disk.serve Disk.listing)
                (Disk.start [])
                (Create.mkResponse true (Some "application/json")
                                   (Some Disk.listing))
                Disk.listing eq_refl eq_refl eq_refl) as H.
  cbv zeta in H. destruct H as (Hnone & Hfound & Hfirst).
  split; [|split].
  - apply (Hfound "@gmod/jbrowse-web@v0.0.1"
             [Disk.release "@gmod/jbrowse-web@v0.0.2" false
                           "https://example.org/web-0.0.2.zip"]
             (Disk.release "@gmod/jbrowse-web@v0.0.1" false
                           "https://example.org/web-0.0.1.zip")
             [] (Create.mkAsset "https://example.org/web-0.0.1.zip") []).
    + discriminate.
    + reflexivity.
    + intros r' [<-|[]]. discriminate.
    + reflexivity.
    + reflexivity.
  - apply Hnone.
    + discriminate.
    + intros r [<-|[<-|[]]]; discriminate.
  - apply (Hfirst (Some "")
             (Disk.release "@gmod/jbrowse-web@v0.0.2" false
                           "https://example.org/web-0.0.2.zip")
             [Disk.release "@gmod/jbrowse-web@v0.0.1" false
                           "https://example.org/web-0.0.1.zip"]
             (Create.mkAsset "https://example.org/web-0.0.2.zip") []);
      reflexivity.
Defined.

(** C7, as stated, fails for the empty tag: no listed version has the
    empty tag, yet the command does not exit with code 40 and returns the
    URL of the first listed version. *)
Lemma getTagOrLatest_empty_tag :
  (forall r, In r (List.filter Create.web_release Disk.listing) ->
             Create.tag_name r <> "")
  /\ Create.getTagOrLatest Disk.disk (Disk.serve Disk.listing) (Some "")
       (Disk.start [])
     = Create.Returned "https://example.org/web-0.0.2.zip"
         (Create.mkWorld [] [Create.releases_url] []).
Proof.
  split; [|reflexivity].
  intros r [<-|[<-|[]]]; discriminate.
Qed.

Lemma run_checkPath_exit_witness :
  Create.run Disk.disk Disk.mkdir Disk.readdir (Disk.serve Disk.listing)
    "/srv/jbrowse" (Create.mkFlags false false None None)
    (Disk.start [("/srv/jbrowse", Disk.Locked)])
  = Create.Exited (Create.ExitCode 20) (Some "Directory does not exist")
      (Disk.start [("/srv/jbrowse", Disk.Locked)])
  /\ Create.run Disk.disk Disk.mkdir Disk.readdir (Disk.serve Disk.listing)
       "/srv/jbrowse" (Create.mkFlags false false None None)
       (Disk.start [("/srv/jbrowse", Disk.Dir ["config.json"])])
     = Create.Exited (Create.ExitCode 10)
         (Some (Create.nonempty_message "/srv/jbrowse"))
         (Disk.start [("/srv/jbrowse", Disk.Dir ["config.json"])]).
Proof.
  split.
  - apply (proj1 (run_checkPath_exit Disk.disk Disk.mkdir Disk.readdir
                    (Disk.serve Disk.listing)
                    "/srv/jbrowse" (Create.mkFlags false false None None)
                    (Disk.start [("/srv/jbrowse", Disk.Locked)])
                    [("/srv/jbrowse", Disk.Locked)]
                    eq_refl eq_refl eq_refl)); reflexivity.
  - apply (proj2 (run_checkPath_exit Disk.disk Disk.mkdir Disk.readdir
                    (Disk.serve Disk.listing)
                    "/srv/jbrowse" (Create.mkFlags false false None None)
                    (Disk.start [("/srv/jbrowse", Disk.Dir ["config.json"])])
                    [("/srv/jbrowse", Disk.Dir ["config.json"])]
                    eq_refl eq_refl eq_refl)
             "config.json" []); reflexivity.
Defined.

(** C6, as stated, fails for the missing directory: [mkdir] creates it
    before the validation reads it, so the command does not exit with
    code 20; it goes on, fetches the listing and the archive and
    returns. *)
Lemma missing_directory_is_created :
  Disk.readdir "/srv/jbrowse" [] = None
  /\ Create.run Disk.disk Disk.mkdir Disk.readdir (Disk.serve Disk.listing)
       "/srv/jbrowse" (Create.mkFlags false false None None) (Disk.start [])
     = Create.Returned tt
         (Create.mkWorld [("/srv/jbrowse", Disk.Dir [])]
            [Create.releases_url; "https://example.org/web-0.0.2.zip"] []).
Proof. split; reflexivity. Qed.



(** * Further properties *)

(** ** isTrack and isSource *)

(** What [arg && arg[k] && typeof arg[k] === 'string'] comes to. *)
Lemma string_property_test (k : string) (arg : value) (s : state) :
  exists v,
    (if truthy arg then
       x <- get arg k ;;
       if truthy x then
         b <- typeof_is (get arg k) "string" ;;
         ret (VBool b)
       else ret x
     else ret arg) s = Ok v s
    /\ (v = VBool true \/ truthy v = false)
    /\ (v = VBool true <->
        exists str, str <> "" /\ get arg k s = Ok (VStr str) s).
Proof.
  destruct (truthy arg) eqn:Harg.
  - assert (Hget : exists x, get arg k s = Ok x s).
    { destruct arg; try discriminate Harg; cbn; eauto. }
    destruct Hget as (x & Hget). unfold bind at 1. rewrite Hget.
    destruct (truthy x) eqn:Hx.
    + unfold bind, typeof_is, ret. rewrite Hget.
      exists (VBool (String.eqb (typeof (heap s) x) "string")).
      split; [reflexivity|]. split.
      * destruct (String.eqb _ _); [left; reflexivity|right; reflexivity].
      * split.
        -- intros [= Hty]. destruct x as [| | | |str|l]; try discriminate Hty.
           ++ exists str. split; [|reflexivity]. intros ->. discriminate Hx.
           ++ cbn in Hty. destruct (heap s !! l) as [o|]; [|discriminate Hty].
              unfold typeof_obj in Hty. destruct (kind o); discriminate Hty.
        -- intros (str & _ & [= ->]). reflexivity.
    + exists x. split; [reflexivity|]. split; [right; exact Hx|]. split.
      * intros ->. discriminate Hx.
      * intros (str & Hne & [= ->]). cbn in Hx. apply negb_false_iff in Hx.
        apply String.eqb_eq in Hx. contradiction.
  - exists arg. split; [reflexivity|]. split; [right; exact Harg|]. split.
    + intros ->. discriminate Harg.
    + intros (str & _ & Hget). destruct arg as [| |b|n|str'|l];
        try discriminate Hget; try discriminate Harg.
      cbn in Harg. apply negb_false_iff, String.eqb_eq in Harg. subst str'.
      cbn [get] in Hget. unfold string_get in Hget.
      destruct (array_index k) as [i|];
        [cbn in Hget|destruct (String.eqb k "length")]; discriminate Hget.
Qed.

(** X1. [isTrack] never throws, whatever it is given, and changes nothing.
    It answers [true] exactly when [arg.label] is a non-empty string; any
    other answer is falsy, but need not be [false]: it is [arg] itself or
    [arg.label] when one of them is falsy. *)
Theorem isTrack_true_or_falsy (arg : value) (s : state) :
  exists v,
    isTrack arg s = Ok v s
    /\ (v = VBool true \/ truthy v = false)
    /\ (v = VBool true <->
        exists str, str <> "" /\ get arg "label" s = Ok (VStr str) s)
    /\ (truthy arg = false -> v = arg).
Proof.
  destruct (string_property_test "label" arg s) as (v & Hrun & Hv & Hiff).
  exists v. split; [exact Hrun|]. split; [exact Hv|]. split; [exact Hiff|].
  intros Harg. unfold isTrack in Hrun. rewrite Harg in Hrun.
  injection Hrun as <-. reflexivity.
Qed.

(** X2. [isSource] never throws and changes nothing.  It answers [true]
    exactly when [arg.url] is a non-empty string; any other answer is
    falsy, but need not be [false]. *)
Theorem isSource_true_or_falsy (arg : value) (s : state) :
  exists v,
    isSource arg s = Ok v s
    /\ (v = VBool true \/ truthy v = false)
    /\ (v = VBool true <->
        exists str, str <> "" /\ get arg "url" s = Ok (VStr str) s)
    /\ (truthy arg = false -> v = arg).
Proof.
  destruct (string_property_test "url" arg s) as (v & Hrun & Hv & Hiff).
  exists v. split; [exact Hrun|]. split; [exact Hv|]. split; [exact Hiff|].
  intros Harg. unfold isSource in Hrun. rewrite Harg in Hrun.
  injection Hrun as <-. reflexivity.
Qed.

(** ** More on fillTemplate *)

Lemma match_placeholder_brace (c : ascii) (s : string) :
  c <> "{"%char -> match_placeholder (String c s) = None.
Proof.
  intros Hc. unfold match_placeholder.
  destruct c as [[] [] [] [] [] [] [] []]; try reflexivity.
  exfalso. apply Hc. reflexivity.
Qed.

Lemma replace_from_plain (replacer : string -> string -> M string) (n : nat)
      (t : string) (s : state) :
  String.length t < n -> ~ In "{"%char (list_ascii_of_string t) ->
  replace_from n replacer t s = Ok t s.
Proof.
  revert t. induction n as [|n IH]; intros t Hlen Hno; [lia|].
  destruct t as [|c t]; [reflexivity|]. cbn [replace_from].
  rewrite match_placeholder_brace
    by (intros ->; apply Hno; left; reflexivity).
  unfold bind. rewrite IH; [reflexivity|cbn in Hlen; lia|].
  intros Hin. apply Hno. right. exact Hin.
Qed.

Section FillTemplateMore.

Variable call_fn : func -> value -> list value -> M value.
Variable host_to_string : value -> M string.
Variable getValue : list object -> value -> string -> value.

Local Abbreviation fillTemplate' := (fillTemplate call_fn host_to_string getValue).
Local Abbreviation fill_placeholder' := (fill_placeholder call_fn host_to_string getValue).

(** X6. A template without an opening brace comes back as it is, in the
    state it was given, whatever [fillWith] is, [undefined] included:
    [fillWith] is not looked at. *)
Theorem fillTemplate_without_brace (template : string) (fillWith : value)
        (s : state) :
  ~ In "{"%char (list_ascii_of_string template) ->
  fillTemplate' template fillWith s = Ok template s.
Proof.
  intros Hno. unfold fillTemplate, replace_placeholders.
  apply replace_from_plain; [lia|exact Hno].
Qed.

(** X7. With [undefined] for [fillWith], whose lookups yield
    [undefined], and a template that has a placeholder, [fillTemplate]
    throws a [TypeError] at the first placeholder, where it reads
    [fillWith.callback]. *)
Theorem fillTemplate_undefined_mapping_throws (template : string) (s : state) :
  (forall name, getValue (heap s) VUndef name = VUndef) ->
  holes template <> [] ->
  fillTemplate' template VUndef s = Throw TypeError s.
Proof.
  intros Hget. rewrite fillTemplate_pieces. unfold holes.
  induction (pieces template) as [|p ps IH]; [intros H; contradiction|].
  destruct p as [c|var].
  - cbn [flat_map app]. intros Hne. cbn [fill_pieces]. unfold bind.
    rewrite (IH Hne). reflexivity.
  - intros _. cbn [fill_pieces]. unfold bind at 1.
    assert (Hthrow : fill_placeholder' VUndef (piece_text (Hole var)) var s
                     = Throw TypeError s).
    { unfold fill_placeholder. rewrite Hget. reflexivity. }
    rewrite Hthrow. reflexivity.
Qed.

End FillTemplateMore.

Lemma fillTemplate_without_brace_witness :
  fillTemplate sample_call sample_to_string dotted_get
    "http://foo/bar}?arg=baz" VUndef fill_case
  = Ok "http://foo/bar}?arg=baz" fill_case.
Proof.
  apply (fillTemplate_without_brace sample_call sample_to_string dotted_get).
  cbn. intuition discriminate.
Defined.

Lemma fillTemplate_undefined_mapping_throws_witness :
  fillTemplate sample_call sample_to_string dotted_get
    "http://foo/{bar}" VUndef fill_case
  = Throw TypeError fill_case.
Proof.
  apply (fillTemplate_undefined_mapping_throws sample_call sample_to_string
           dotted_get).
  - intros name. unfold dotted_get. generalize EmptyString.
    induction name as [|c name IH]; intros seg; cbn [dotted_from]; [reflexivity|].
    destruct (Ascii.eqb c "."); [reflexivity|apply IH].
  - discriminate.
Defined.

(** ** deepUpdate where the merge has no answer *)

Section DeepUpdateThrows.
Variables (op : object) (la lb : loc) (akids bkids : list (string * tree)).
Variable s0 : state.
Variable recur : value -> value -> M value.
Hypothesis Hapart : apart op (TNode la akids) (TNode lb bkids) s0.
Hypothesis Hrecur : forall k tb, In (k, tb) bkids ->
  forall ta t s, apart op ta tb s -> merge ta tb = Some t ->
    wp False (recur (root ta) (root tb)) (merged ta tb t s) s.
Hypothesis Hthrows : forall k tb, In (k, tb) bkids ->
  forall ta s, apart op ta tb s ->
    object_typed ta = true -> object_typed tb = true -> merge ta tb = None ->
    exists s', recur (root ta) (root tb) s = Throw TypeError s'
               /\ frame (locs ta) (heap s) (heap s').

Local Abbreviation ta0 := (TNode la akids).
Local Abbreviation tb0 := (TNode lb bkids).

Lemma update_step_throws (k : string) (tb ta : tree)
      (acc rest : list (string * tree)) (s : state) :
  In (k, tb) bkids ->
  updating op la akids tb0 s0 acc ((k, tb) :: rest) s ->
  assoc k acc = Some ta ->
  object_typed ta && object_typed tb = true -> merge ta tb = None ->
  exists s', deepUpdate_body recur (VRef la) (VRef lb) k s = Throw TypeError s'
             /\ frame (locs ta0) (heap s0) (heap s').
Proof.
  intros Hin Hup Ha Hobj Hm.
  pose proof Hup as (Hop & Hla & Hnd & Hacc & Hlocs & Hrest & Hframe & Hcalls).
  destruct Hapart as (Hop0 & Hproto & Hkeys & Hsa & Hsb & Hnda & Hdis).
  assert (Hsb' : shaped (heap s) tb0).
  { eapply shaped_frame; [exact Hframe|exact Hsb|].
    intros l Hl Hl'. exact (Hdis l Hl' Hl). }
  assert (Hstb : shaped (heap s) tb).
  { destruct Hsb' as (_ & _ & Hk). exact (all_fields_in _ _ _ _ Hk Hin). }
  assert (Hkey : own_prop op k = None).
  { apply Hkeys. cbn [tree_keys]. apply in_flat_map. exists (k, tb).
    split; [exact Hin|left; reflexivity]. }
  assert (Hfb : find_prop (heap s) lb k = Some (mkProp (root tb) true)).
  { destruct Hsb' as (Hlb & Hndb & _).
    rewrite (find_prop_node _ op lb k bkids Hop Hproto Hkey Hlb).
    rewrite (assoc_in_nodup k tb bkids Hndb Hin). reflexivity. }
  assert (Hfa : find_prop (heap s) la k = Some (mkProp (root ta) true)).
  { rewrite (find_prop_node _ op la k acc Hop Hproto Hkey Hla), Ha. reflexivity. }
  assert (Hsta : shaped (heap s) ta).
  { exact (all_fields_in _ _ _ _ Hacc (assoc_in _ _ _ Ha)). }
  assert (Hgb : get (VRef lb) k s = Ok (root tb) s).
  { unfold get. rewrite Hfb. reflexivity. }
  assert (Hga : get (VRef la) k s = Ok (root ta) s).
  { unfold get. rewrite Hfa. reflexivity. }
  assert (Htb : typeof_is (get (VRef lb) k) "object" s = Ok (object_typed tb) s).
  { unfold typeof_is. rewrite Hgb, typeof_root by exact Hstb. reflexivity. }
  assert (Hta : typeof_is (get (VRef la) k) "object" s = Ok (object_typed ta) s).
  { unfold typeof_is. rewrite Hga, typeof_root by exact Hsta. reflexivity. }
  assert (Hha : has_property k (VRef la) s = Ok true s).
  { unfold has_property. rewrite Hfa. reflexivity. }
  pose proof (and_then_ok _ _ s _ _ (and_then_ok _ _ s _ _ Hha Htb) Hta) as Hc.
  cbn [andb] in Hc. rewrite andb_comm, Hobj in Hc.
  apply andb_true_iff in Hobj. destruct Hobj as [Hoa Hob].
  assert (Hina : In (k, ta) akids).
  { apply assoc_in. rewrite <- Hrest; [exact Ha|left; reflexivity]. }
  assert (Hsub : forall l, In l (locs ta) -> In l (locs ta0)).
  { intros l Hl. eapply kid_locs; [exact Hina|exact Hl]. }
  assert (Hnda' : List.NoDup (flat_map (fun kt => locs (snd kt)) akids)).
  { cbn [locs] in Hnda. apply NoDup_cons_iff in Hnda. apply Hnda. }
  assert (Hpre : apart op ta tb s).
  { unfold apart. repeat split; try assumption.
    - intros k1 Hk1. apply Hkeys. cbn [tree_keys]. apply in_flat_map.
      exists (k, tb). split; [exact Hin|right; exact Hk1].
    - exact (nodup_flat_map_in _ _ (k, ta) Hnda' Hina).
    - intros l Hl Hl'. apply (Hdis l (Hsub l Hl)).
      eapply kid_locs; [exact Hin|exact Hl']. }
  destruct (Hthrows k tb Hin ta s Hpre Hoa Hob Hm) as (s' & Hrun & Hf).
  exists s'. split.
  - unfold deepUpdate_body. rewrite (bind_ok _ _ _ _ _ Hc).
    rewrite (bind_ok _ _ _ _ _ Hga), (bind_ok _ _ _ _ _ Hgb).
    apply bind_throw. exact Hrun.
  - eapply frame_trans; [exact Hsub|exact Hframe|exact Hf].
Qed.

Lemma update_loop_throws (rest : list (string * tree)) :
  forall (acc : list (string * tree)) (s : state),
  (forall x, In x rest -> In x bkids) -> List.NoDup (map fst rest) ->
  updating op la akids tb0 s0 acc rest s ->
  merge_kids merge acc rest = None ->
  exists s',
    for_of (map fst rest) (deepUpdate_body recur (VRef la) (VRef lb)) s
    = Throw TypeError s'
    /\ frame (locs ta0) (heap s0) (heap s').
Proof.
  induction rest as [|[k tb] rest IH]; intros acc s Hsub Hnd Hup Hm;
    [discriminate|].
  cbn [merge_kids] in Hm. cbn [map fst for_of]. cbn [map fst] in Hnd.
  apply NoDup_cons_iff in Hnd. destruct Hnd as [Hfresh Hnd].
  assert (Hin : In (k, tb) bkids) by (apply Hsub; left; reflexivity).
  destruct (merge_key merge acc k tb) as [acc1|] eqn:Hk.
  - pose proof (update_step op la lb akids bkids s0 recur Hapart Hrecur
                  k tb acc rest acc1 s Hin Hfresh Hup Hk) as Hstep.
    unfold wp in Hstep.
    destruct (deepUpdate_body recur (VRef la) (VRef lb) k s) as [u s1| |] eqn:Hb;
      [|destruct Hstep..].
    destruct (IH acc1 s1) as (s' & Hrun & Hf); try assumption.
    { intros x Hx. apply Hsub. right. exact Hx. }
    exists s'. split; [|exact Hf]. unfold bind. rewrite Hb. exact Hrun.
  - unfold merge_key, overlay in Hk.
    destruct (assoc k acc) as [ta|] eqn:Ha; [|discriminate].
    destruct (object_typed ta && object_typed tb) eqn:Hobj.
    + destruct (merge ta tb) as [t|] eqn:Hmt; [discriminate|].
      destruct (update_step_throws k tb ta acc rest s Hin Hup Ha Hobj Hmt)
        as (s' & Hrun & Hf).
      exists s'. split; [|exact Hf]. apply bind_throw. exact Hrun.
    + destruct (undefined_tree ta || negb (undefined_tree tb)); discriminate.
Qed.
End DeepUpdateThrows.

Lemma deepUpdate_tree_throws (op : object) (tb : tree) :
  forall (n : nat) (ta : tree) (s : state),
  depth tb < n -> apart op ta tb s ->
  object_typed ta = true -> object_typed tb = true -> merge ta tb = None ->
  exists s', deepUpdate n (root ta) (root tb) s = Throw TypeError s'
             /\ frame (locs ta) (heap s) (heap s').
Proof.
  induction tb as [v|lb bkids IH] using tree_induction;
    intros n ta s Hn Hap Hoa Hob Hm.
  - destruct n as [|n]; [cbn in Hn; lia|].
    destruct v; try discriminate Hob. exists s. split; [|apply frame_refl].
    reflexivity.
  - destruct n as [|n]; [lia|].
    pose proof Hap as (Hop & Hproto & Hkeys & Hsa & Hsb & Hnda & Hdis).
    pose proof Hsb as (Hlb & Hndb & Hkb).
    assert (Hks : object_keys (VRef lb) s = Ok (map fst bkids) s).
    { unfold object_keys. rewrite Hlb, keys_entry. reflexivity. }
    cbn [deepUpdate root]. rewrite (bind_ok _ _ _ _ _ Hks).
    destruct ta as [v|la akids].
    + destruct v; try discriminate Hoa.
      destruct bkids as [|[k tb] bkids]; [discriminate Hm|].
      exists s. split; [|apply frame_refl]. reflexivity.
    + rewrite merge_node in Hm.
      destruct (merge_kids merge akids bkids) as [acc'|] eqn:Hmk; [discriminate|].
      pose proof Hsa as (Hla & Hnda' & Hka).
      destruct (update_loop_throws op la lb akids bkids s (deepUpdate n) Hap)
        with (rest := bkids) (acc := akids) (s := s) as (s' & Hrun & Hf).
      * intros k tb Hin ta1 t1 s1 Hap1 Hm1.
        apply (deepUpdate_tree op); [|exact Hap1|exact Hm1].
        pose proof (depth_kid k tb lb bkids Hin). lia.
      * intros k tb Hin ta1 s1 Hap1 Hoa1 Hob1 Hm1.
        apply (all_fields_in _ _ _ _ IH Hin); try assumption.
        pose proof (depth_kid k tb lb bkids Hin). lia.
      * intros x Hx. exact Hx.
      * exact Hndb.
      * unfold updating. repeat split; try assumption.
        -- intros k1 t1 l Hin1 Hl1. right. exists t1. auto.
        -- apply frame_refl.
      * exact Hmk.
      * exists s'. split; [|exact Hf]. cbn [root].
        apply bind_throw. exact Hrun.
Qed.

(** X3. On two trees of plain objects that share no object, when the merge
    rule has no answer - the recursion would enter [null] with something
    to enumerate - [deepUpdate], given enough fuel, throws a [TypeError];
    until then it has changed objects of [a]'s tree only, and [b] is as
    it was. *)
Theorem deepUpdate_throws_without_answer (op : object) (s : state)
        (la lb : loc) (akids bkids : list (string * tree)) :
  apart op (TNode la akids) (TNode lb bkids) s ->
  merge (TNode la akids) (TNode lb bkids) = None ->
  exists fuel, forall n, fuel <= n ->
    exists s',
      deepUpdate n (VRef la) (VRef lb) s = Throw TypeError s'
      /\ frame (locs (TNode la akids)) (heap s) (heap s')
      /\ shaped (heap s') (TNode lb bkids).
Proof.
  intros Hap Hm. exists (S (depth (TNode lb bkids))). intros n Hn.
  assert (Hd : depth (TNode lb bkids) < n) by lia.
  destruct (deepUpdate_tree_throws op _ n _ s Hd Hap eq_refl eq_refl Hm)
    as (s' & Hrun & Hf).
  exists s'. split; [exact Hrun|]. split; [exact Hf|].
  pose proof Hap as (_ & _ & _ & _ & Hsb & _ & Hdis).
  eapply shaped_frame; [exact Hf|exact Hsb|].
  intros l Hl Hl'. exact (Hdis l Hl' Hl).
Qed.

Lemma null_case_apart :
  apart (mkObject KPlain None
           [("constructor", hidden (VRef ObjectConstructor));
            ("toString", hidden (VRef 6));
            ("valueOf", hidden (VRef 7));
            ("hasOwnProperty", hidden (VRef 8))])
        null_case_a null_case_b null_case.
Proof.
  unfold apart. split; [reflexivity|]. split; [reflexivity|]. split.
  { intros k Hk. cbn in Hk. intuition (subst; reflexivity). }
  split.
  { cbn [shaped null_case_a all_fields is_leaf].
    repeat split; try reflexivity; distinct. }
  split.
  { cbn [shaped null_case_b all_fields is_leaf].
    repeat split; try reflexivity; distinct. }
  split; [cbn; distinct|]. cbn. intuition (subst; discriminate).
Qed.

Lemma deepUpdate_throws_without_answer_witness :
  merge null_case_a null_case_b = None
  /\ exists fuel s',
       deepUpdate fuel (VRef 9) (VRef 11) null_case = Throw TypeError s'
       /\ shaped (heap s') null_case_b.
Proof.
  split; [reflexivity|].
  destruct (deepUpdate_throws_without_answer _ _ _ _ _ _ null_case_apart
              (eq_refl : merge null_case_a null_case_b = None))
    as (fuel & Hrun).
  destruct (Hrun fuel (le_n fuel)) as (s' & Hthrow & _ & Hb).
  exists fuel, s'. auto.
Defined.

(** X4. [deepUpdate] copies nothing: where the value of [a] is overwritten
    or added - the key is absent from [a], or its value there is not
    object-typed and the value of [b] is not [undefined] - [a] and [b]
    hold the very same value afterwards, for an object the same object,
    so that a later change of it through [b] shows through [a]. *)
Theorem deepUpdate_shares_values (op : object) (s : state) (la lb : loc)
        (akids bkids : list (string * tree)) (t : tree) (k : string)
        (tb : tree) :
  apart op (TNode la akids) (TNode lb bkids) s ->
  merge (TNode la akids) (TNode lb bkids) = Some t ->
  In (k, tb) bkids ->
  (forall ta, assoc k akids = Some ta ->
              object_typed ta = false /\ undefined_tree tb = false) ->
  exists fuel, forall n, fuel <= n ->
    exists s',
      deepUpdate n (VRef la) (VRef lb) s = Ok (VRef la) s'
      /\ get (VRef la) k s' = Ok (root tb) s'
      /\ get (VRef lb) k s' = Ok (root tb) s'.
Proof.
  intros Hap Hm Hin Hk. pose proof Hm as Hm'. rewrite merge_node in Hm'.
  destruct (merge_kids merge akids bkids) as [kids|] eqn:Hmk; [|discriminate].
  injection Hm' as <-.
  pose proof Hap as (Hop & Hproto & Hkeys & Hsa & Hsb & _ & Hdis).
  destruct (merge_kids_keys bkids akids kids (proj1 (proj2 Hsb)) Hmk) as [_ Hrule].
  assert (Hnew : assoc k kids = Some tb).
  { rewrite (Hrule k tb Hin). unfold overlay.
    destruct (assoc k akids) as [ta|]; [|reflexivity].
    destruct (Hk ta eq_refl) as [Hta Htb]. rewrite Hta, Htb.
    cbn [andb negb]. rewrite orb_true_r. reflexivity. }
  exists (S (depth (TNode lb bkids))). intros n Hn.
  assert (Hd : depth (TNode lb bkids) < n) by lia.
  pose proof (deepUpdate_tree op _ n _ _ s Hd Hap Hm) as Hwp.
  unfold wp in Hwp. cbn [root] in Hwp.
  destruct (deepUpdate n (VRef la) (VRef lb) s) as [v s'|e s'|]; [|destruct Hwp..].
  destruct Hwp as (-> & _ & Hst & _ & Hf & _).
  exists s'. split; [reflexivity|].
  assert (Hop' : heap s' !! ObjectPrototype = Some op).
  { destruct (Hf _ _ Hop) as (o' & Ho' & _ & He). rewrite He in Ho'; [exact Ho'|].
    exact (shaped_not_proto _ _ _ Hop Hproto Hsa). }
  assert (Hkey : own_prop op k = None).
  { apply Hkeys. cbn [tree_keys]. apply in_flat_map. exists (k, tb).
    split; [exact Hin|left; reflexivity]. }
  assert (Hsb' : shaped (heap s') (TNode lb bkids)).
  { eapply shaped_frame; [exact Hf|exact Hsb|].
    intros l Hl Hl'. exact (Hdis l Hl' Hl). }
  split.
  - unfold get. destruct Hst as (Hla & _).
    rewrite (find_prop_node _ op la k kids Hop' Hproto Hkey Hla), Hnew.
    reflexivity.
  - unfold get. destruct Hsb' as (Hlb & Hndb & _).
    rewrite (find_prop_node _ op lb k bkids Hop' Hproto Hkey Hlb).
    rewrite (assoc_in_nodup k tb bkids Hndb Hin). reflexivity.
Qed.

Lemma deepUpdate_shares_values_witness :
  exists fuel s',
    deepUpdate fuel (VRef 9) (VRef 11) merge_case = Ok (VRef 9) s'
    /\ get (VRef 9) "y" s' = Ok (VRef 13) s'
    /\ get (VRef 11) "y" s' = Ok (VRef 13) s'.
Proof.
  destruct (deepUpdate_shares_values _ _ _ _ _ _ _ "y"
              (TNode 13 [("z", TLeaf (VNum 1))]) merge_case_apart
              (eq_refl : merge merge_case_a merge_case_b = Some merge_case_result))
    as (fuel & Hrun).
  - right. right. right. left. reflexivity.
  - intros ta [=].
  - destruct (Hrun fuel (le_n fuel)) as (s' & H). exists fuel, s'. exact H.
Defined.

(** ** More on the [create] command *)

Section CreateMore.
Import Create.

Variable FS : Type.
Variable mkdir : string -> FS -> option FS.
Variable readdir : string -> FS -> option (list string).
Variable fetch : string -> option response.

Local Abbreviation run := (Create.run FS mkdir readdir fetch).
Local Abbreviation fetchGithubVersions := (Create.fetchGithubVersions FS fetch).
Local Abbreviation getTagOrLatest := (Create.getTagOrLatest FS fetch).
Local Abbreviation catch := (Create.catch FS fetch).

(** The world once the release listing has been requested. *)
Local Abbreviation asked w :=
  (mkWorld (fs w) (requests w ++ [releases_url]) (output w)).

(** [fetchGithubVersions] makes one request and touches nothing else. *)
Lemma fetchGithubVersions_final (w : world FS) :
  (exists rs, fetchGithubVersions w = Returned rs (asked w))
  \/ (exists e msg, fetchGithubVersions w = Exited e msg (asked w)
                    /\ (e = Uncaught \/ e = ErrorDefault)).
Proof.
  unfold Create.fetchGithubVersions, cbind, do_fetch.
  destruct (fetch releases_url) as [r|]; [|right; eauto].
  destruct (ok r); cbn [negb]; [|right; unfold error; eauto].
  destruct (json r) as [rs|]; [|right; unfold uncaught; eauto].
  left. unfold creturn. eauto.
Qed.

Lemma getTagOrLatest_final (t : option string) (w : world FS) :
  final (getTagOrLatest t w) = asked w.
Proof.
  unfold Create.getTagOrLatest, cbind.
  destruct (fetchGithubVersions_final w) as [(rs & ->)|(e & msg & -> & _)];
    [|reflexivity].
  destruct (if given t then _ else _) as [v|]; [|reflexivity].
  destruct (assets v); reflexivity.
Qed.

(** X8. With [--listVersions] the command stops after the listing: it never
    returns, the directory is neither created nor read, nothing is
    downloaded, the one request goes to the release listing, and when the
    listing loads one line with the tags of the versions is printed. *)
Theorem run_listVersions_only_lists (argsPath : string) (fl : flags)
        (w : world FS) :
  listVersions fl = true ->
  exists e msg out,
    run argsPath fl w
    = Exited e msg (mkWorld (fs w) (requests w ++ [releases_url]) out)
    /\ (forall r rs,
          fetch releases_url = Some r -> ok r = true -> json r = Some rs ->
          out = output w
                ++ ["All JBrowse versions: "
                    +:+ String.concat ", "
                          (map tag_name
                               (match List.filter web_release rs with
                                | [] => rs
                                | _ :: _ => List.filter web_release rs
                                end))])
    /\ (fetch releases_url = None -> out = output w).
Proof.
  intros Hl. unfold Create.run. rewrite Hl.
  unfold cbind at 1. unfold try_or_error.
  destruct (fetch releases_url) as [r|] eqn:Hf.
  - destruct (ok r) eqn:Hok.
    + destruct (json r) as [rs|] eqn:Hj.
      * unfold cbind at 1. rewrite (fetchGithubVersions_eq FS fetch w r rs Hf Hok Hj).
        unfold cbind, log, exit0. cbn [fs requests output].
        do 3 eexists. split; [reflexivity|]. split; [|discriminate].
        intros r' rs' [= <-] _ Hj'. rewrite Hj in Hj'. injection Hj' as <-.
        reflexivity.
      * unfold Create.fetchGithubVersions, cbind, do_fetch.
        rewrite Hf, Hok, Hj. cbn [negb]. unfold creturn, uncaught.
        do 3 eexists. split; [reflexivity|]. split; [|discriminate].
        intros r' rs' [= <-] _ Hj'. congruence.
    + unfold Create.fetchGithubVersions, cbind, do_fetch.
      rewrite Hf, Hok. cbn [negb]. unfold error.
      do 3 eexists. split; [reflexivity|]. split; [|discriminate].
      intros r' rs' [= <-] Hok'. congruence.
  - unfold Create.fetchGithubVersions, cbind, do_fetch. rewrite Hf.
    do 3 eexists. split; [reflexivity|]. split; [discriminate|reflexivity].
Qed.

(** X9. A direct URL overrides the tag: the run is the same whatever the
    tag, the release listing is never requested, and the only request
    that can be made is the one to the URL. *)
Theorem run_url_overrides_tag (argsPath : string) (fl : flags) (u : string)
        (w : world FS) :
  listVersions fl = false -> url fl = Some u -> u <> "" ->
  (forall t, run argsPath (mkFlags (force fl) false (Some u) t) w
             = run argsPath fl w)
  /\ (requests (final (run argsPath fl w)) = requests w
      \/ requests (final (run argsPath fl w)) = requests w ++ [u]).
Proof.
  intros Hl Hu Hne. split.
  - intros t. destruct fl as [f l u' t']. cbn in Hl, Hu. subst l u'.
    unfold Create.run. cbn [listVersions force url tag].
    apply String.eqb_neq in Hne. unfold given. rewrite Hne. reflexivity.
  - unfold Create.run, cbind, creturn, try_or_error, do_mkdir, do_fetch,
      error_exit, error, Create.checkPath, try_catch, do_readdir.
    unfold cbind, creturn, error_exit.
    rewrite Hl, Hu. unfold given.
    apply String.eqb_neq in Hne. rewrite Hne. cbn [negb andb].
    destruct (mkdir argsPath (fs w)) as [fs1|]; [|left; reflexivity].
    cbn [fs requests output].
    assert (Hdl : forall w1 : world FS, requests w1 = requests w ->
              let o := match
                  match fetch u with
                  | Some r => Returned r (mkWorld (fs w1) (requests w1 ++ [u]) (output w1))
                  | None => Exited Uncaught None
                              (mkWorld (fs w1) (requests w1 ++ [u]) (output w1))
                  end
                with
                | Returned a w' => Returned a w'
                | Exited _ _ w' => @Exited FS response ErrorDefault None w'
                end in
              forall k : response -> world FS -> outcome FS unit,
                (forall r w', requests (final (k r w')) = requests w') ->
                requests (final match o with
                                | Returned a w' => k a w'
                                | Exited e m w' => Exited e m w'
                                end) = requests w ++ [u]).
    { intros w1 Hw1 o k Hk. subst o. destruct (fetch u) as [r|].
      - rewrite Hk. cbn. rewrite Hw1. reflexivity.
      - cbn. rewrite Hw1. reflexivity. }
    destruct (force fl); cbn [negb].
    + right. apply (Hdl (mkWorld fs1 (requests w) (output w)) eq_refl).
      intros r w'. destruct (ok r); cbn [negb]; [|reflexivity].
      destruct (_ && _); reflexivity.
    + cbn [fs requests output].
      destruct (readdir argsPath fs1) as [ls|]; [|left; reflexivity].
      destruct (0 <? length ls)%nat; [left; reflexivity|].
      right. apply (Hdl (mkWorld fs1 (requests w) (output w)) eq_refl).
      intros r w'. destruct (ok r); cbn [negb]; [|reflexivity].
      destruct (_ && _); reflexivity.
Qed.

Lemma getTagOrLatest_exit (t : option string) (w w' : world FS) (n : Z)
      (msg : option string) :
  getTagOrLatest t w = Exited (ExitCode n) msg w' -> n = 40%Z.
Proof.
  unfold Create.getTagOrLatest, cbind.
  destruct (fetchGithubVersions_final w) as [(rs & ->)|(e & m & -> & He)].
  - destruct (if given t then _ else _) as [v|].
    + destruct (assets v); [discriminate|discriminate].
    + unfold error_exit. intros [= <- _ _]. reflexivity.
  - intros [= -> _ _]. destruct He; discriminate.
Qed.

(** X10. With [--force] the directory is never read: the run is the same
    whatever [readdir] would answer, and the only exit codes left are 40
    and 50, so neither 10 nor 20 can come out. *)
Theorem run_force_skips_validation (argsPath : string) (fl : flags)
        (w : world FS) :
  force fl = true -> listVersions fl = false ->
  (forall readdir' : string -> FS -> option (list string),
     Create.run FS mkdir readdir' fetch argsPath fl w = run argsPath fl w)
  /\ (forall n msg w', run argsPath fl w = Exited (ExitCode n) msg w' ->
        n = 40%Z \/ n = 50%Z).
Proof.
  intros Hf Hl. split.
  - intros readdir'. unfold Create.run. rewrite Hf. reflexivity.
  - intros n msg w'. unfold Create.run. rewrite Hf, Hl. cbn [negb].
    unfold cbind at 1. unfold creturn at 1.
    unfold cbind at 1. unfold try_or_error at 1. unfold do_mkdir.
    destruct (mkdir argsPath (fs w)) as [fs1|]; [|discriminate].
    unfold cbind at 1. unfold creturn at 1.
    unfold cbind at 1.
    set (w1 := mkWorld fs1 (requests w) (output w)).
    assert (Hdl : forall (u : string) (w2 : world FS),
              cbind (try_or_error (do_fetch FS fetch u))
                (fun response =>
                   cbind (if negb (ok response)
                          then error_exit "Failed to fetch JBrowse2 from server" 50
                          else creturn tt)
                     (fun _ =>
                        cbind (if given (url fl)
                                  && negb (bool_decide (content_type response
                                                        = Some "application/zip"))
                                  && negb (bool_decide (content_type response
                                                        = Some "application/octet-stream"))
                               then error "The URL provided does not seem to be a JBrowse installation URL"
                               else creturn tt)
                          (fun _ => start_stream FS argsPath response))) w2
              = Exited (ExitCode n) msg w' -> n = 40%Z \/ n = 50%Z).
    { intros u w2. unfold cbind at 1. unfold try_or_error, do_fetch.
      destruct (fetch u) as [r|]; [|discriminate].
      unfold cbind at 1. destruct (ok r); cbn [negb].
      - unfold creturn at 1. unfold cbind.
        destruct (_ && _); [discriminate|]. unfold creturn. discriminate.
      - unfold error_exit. intros [= <- _ _]. right. reflexivity. }
    destruct (given (url fl)).
    + unfold creturn at 1. apply Hdl.
    + destruct (getTagOrLatest (tag fl) w1) as [u w2|e m w2] eqn:Hg.
      * apply Hdl.
      * intros [= -> -> ->]. left. exact (getTagOrLatest_exit _ _ _ _ _ Hg).
Qed.

Lemma filter_head_find {A} (p : A -> bool) (l : list A) :
  hd_error (List.filter p l) = List.find p l.
Proof.
  induction l as [|x l IH]; [reflexivity|]. cbn [List.filter List.find].
  destruct (p x); [reflexivity|exact IH].
Qed.

(** X11. Without a tag the command installs the latest version: the first
    release of the listing, in its order, that belongs to the
    jbrowse-web family and is no prerelease.  The URL is that of its
    first asset; a release without assets ends the command with an
    exception nobody catches, not with code 40. *)
Theorem getTagOrLatest_latest_stable (t : option string) (w : world FS)
        (r : response) (rs : list GithubRelease) (v : GithubRelease) :
  fetch releases_url = Some r -> ok r = true -> json r = Some rs ->
  given t = false -> List.find web_release rs = Some v ->
  getTagOrLatest t w =
  match assets v with
  | a :: _ => Returned (browser_download_url a) (asked w)
  | [] => Exited Uncaught None (asked w)
  end.
Proof.
  intros Hf Hok Hj Hg Hv.
  unfold Create.getTagOrLatest, cbind.
  rewrite (fetchGithubVersions_eq FS fetch w r rs Hf Hok Hj), Hg.
  rewrite <- filter_head_find in Hv.
  destruct (List.filter web_release rs) as [|x l]; [discriminate|].
  cbn in Hv. injection Hv as ->. cbn [nth_error].
  destruct (assets v); reflexivity.
Qed.

(** X12. Without a tag, code 40 means an empty release listing: any listing
    with at least one release, of whatever family, resolves to a
    release. *)
Theorem getTagOrLatest_untagged_not_found (t : option string) (w : world FS)
        (r : response) (rs : list GithubRelease) :
  fetch releases_url = Some r -> ok r = true -> json r = Some rs ->
  given t = false ->
  (exists msg w', getTagOrLatest t w = Exited (ExitCode 40) msg w') <-> rs = [].
Proof.
  intros Hf Hok Hj Hg.
  unfold Create.getTagOrLatest, cbind.
  rewrite (fetchGithubVersions_eq FS fetch w r rs Hf Hok Hj), Hg.
  split.
  - intros (msg & w' & H).
    destruct (List.filter web_release rs) as [|x l].
    + destruct rs as [|y rs]; [reflexivity|]. cbn [nth_error] in H.
      destruct (assets y); discriminate.
    + cbn [nth_error] in H. destruct (assets x); discriminate.
  - intros ->. cbn. unfold error_exit. eauto.
Qed.

(** X13. As soon as the listing has a stable jbrowse-web release, a tag that
    only prereleases or releases of other families carry is reported as
    not found, with code 40, although it is in the listing. *)
Theorem getTagOrLatest_rejects_unstable_tag (t : string) (w : world FS)
        (r : response) (rs : list GithubRelease) :
  fetch releases_url = Some r -> ok r = true -> json r = Some rs ->
  t <> "" ->
  (exists x, In x rs /\ web_release x = true) ->
  (forall x, In x rs -> tag_name x = t -> web_release x = false) ->
  exists msg, getTagOrLatest (Some t) w = Exited (ExitCode 40) msg (asked w).
Proof.
  intros Hf Hok Hj Ht (x & Hx & Hweb) Hun.
  unfold Create.getTagOrLatest, cbind.
  rewrite (fetchGithubVersions_eq FS fetch w r rs Hf Hok Hj).
  apply String.eqb_neq in Ht. unfold given. rewrite Ht. cbn [negb].
  assert (Hnone : List.find (fun version => String.eqb (tag_name version) t)
                            (List.filter web_release rs) = None).
  { apply find_none. intros y Hy. apply List.filter_In in Hy.
    destruct Hy as [Hy Hyw]. apply String.eqb_neq. intros Heq.
    rewrite (Hun y Hy Heq) in Hyw. discriminate. }
  destruct (List.filter web_release rs) as [|y l] eqn:E.
  - exfalso. pose proof (proj1 (filter_nil_iff _ _) E x Hx). congruence.
  - rewrite Hnone. unfold error_exit. eauto.
Qed.

(** X14. [catch] never swallows an error: it always ends the command, and
    leaves the file system alone.  Unless the parsed flags ask for the
    list of versions the error goes on as it came and nothing is
    requested or printed; if they do and the listing loads, the versions
    are printed and the command exits with code 0. *)
Theorem catch_never_returns (error : thrown) (w : world FS) :
  (exists e msg w', catch error w = Exited e msg w' /\ fs w' = fs w)
  /\ (parse_listVersions error <> Some true ->
      catch error w = Exited (status error) (message error) w)
  /\ (forall r rs,
        parse_listVersions error = Some true ->
        fetch releases_url = Some r -> ok r = true -> json r = Some rs ->
        catch error w =
        Exited (ExitCode 0) None
          (mkWorld (fs w) (requests w ++ [releases_url])
             (output w
              ++ ["All JBrowse versions: "
                  +:+ String.concat ", "
                        (map tag_name
                             (match List.filter web_release rs with
                              | [] => rs
                              | _ :: _ => List.filter web_release rs
                              end))]))).
Proof.
  split; [|split].
  - unfold Create.catch.
    destruct (match parse_listVersions error with Some b => b | None => false end).
    + unfold cbind at 1. unfold cbind at 1.
      destruct (fetchGithubVersions_final w) as [(rs & ->)|(e & m & -> & _)].
      * unfold cbind, log, exit0. cbn. eauto.
      * eauto.
    + unfold cbind, creturn. eauto.
  - intros Hn. unfold Create.catch.
    destruct (parse_listVersions error) as [[|]|]; try congruence; reflexivity.
  - intros r rs Hp Hf Hok Hj. unfold Create.catch. rewrite Hp.
    unfold cbind at 1. unfold cbind at 1.
    rewrite (fetchGithubVersions_eq FS fetch w r rs Hf Hok Hj). reflexivity.
Qed.

End CreateMore.

Lemma run_listVersions_only_lists_witness :
  exists e msg,
    Disk.run Disk.listing "/srv/jbrowse" (Create.mkFlags false true None None)
             (Disk.start [])
    = Create.Exited e msg
        (Create.mkWorld [] [Create.releases_url]
           ["All JBrowse versions: @gmod/jbrowse-web@v0.0.2, @gmod/jbrowse-web@v0.0.1"]).
Proof.
  destruct (run_listVersions_only_lists Disk.disk Disk.mkdir Disk.readdir
              (Disk.serve Disk.listing) "/srv/jbrowse"
              (Create.mkFlags false true None None) (Disk.start []) eq_refl)
    as (e & msg & out & Hrun & Hout & _).
  exists e, msg. unfold Disk.run. rewrite Hrun.
  rewrite (Hout _ Disk.listing eq_refl eq_refl eq_refl). reflexivity.
Defined.

Lemma run_url_overrides_tag_witness :
  Disk.run Disk.listing "/srv/jbrowse"
    (Create.mkFlags false false (Some "https://example.org/x.zip")
                    (Some "@gmod/jbrowse-web@v9"))
    (Disk.start [])
  = Disk.run Disk.listing "/srv/jbrowse"
      (Create.mkFlags false false (Some "https://example.org/x.zip") None)
      (Disk.start []).
Proof.
  symmetry.
  apply (proj1 (run_url_overrides_tag Disk.disk Disk.mkdir Disk.readdir
                  (Disk.serve Disk.listing) "/srv/jbrowse"
                  (Create.mkFlags false false (Some "https://example.org/x.zip")
                                  (Some "@gmod/jbrowse-web@v9"))
                  "https://example.org/x.zip" (Disk.start [])
                  eq_refl eq_refl ltac:(discriminate)) None).
Defined.

Lemma run_force_skips_validation_witness :
  Create.run Disk.disk Disk.mkdir (fun _ _ => None) (Disk.serve Disk.listing)
    "/srv/jbrowse" (Create.mkFlags true false None None)
    (Disk.start [("/srv/jbrowse", Disk.Dir ["config.json"])])
  = Disk.run Disk.listing "/srv/jbrowse" (Create.mkFlags true false None None)
      (Disk.start [("/srv/jbrowse", Disk.Dir ["config.json"])]).
Proof.
  apply (proj1 (run_force_skips_validation Disk.disk Disk.mkdir Disk.readdir
                  (Disk.serve Disk.listing) "/srv/jbrowse"
                  (Create.mkFlags true false None None)
                  (Disk.start [("/srv/jbrowse", Disk.Dir ["config.json"])])
                  eq_refl eq_refl)).
Defined.

Lemma getTagOrLatest_latest_stable_witness :
  Create.getTagOrLatest Disk.disk
    (Disk.serve (Disk.release "@gmod/jbrowse-web@v0.0.3-beta" true
                              "https://example.org/web-0.0.3-beta.zip"
                 :: Disk.listing))
    None (Disk.start [])
  = Create.Returned "https://example.org/web-0.0.2.zip"
      (Create.mkWorld [] ([] ++ [Create.releases_url]) []).
Proof.
  apply (getTagOrLatest_latest_stable Disk.disk
           (Disk.serve (Disk.release "@gmod/jbrowse-web@v0.0.3-beta" true
                                     "https://example.org/web-0.0.3-beta.zip"
                        :: Disk.listing))
           None (Disk.start [])
           (Create.mkResponse true (Some "application/json")
              (Some (Disk.release "@gmod/jbrowse-web@v0.0.3-beta" true
                                  "https://example.org/web-0.0.3-beta.zip"
                     :: Disk.listing)))
           (Disk.release "@gmod/jbrowse-web@v0.0.3-beta" true
                         "https://example.org/web-0.0.3-beta.zip"
            :: Disk.listing)
           (Disk.release "@gmod/jbrowse-web@v0.0.2" false
                         "https://example.org/web-0.0.2.zip"));
    reflexivity.
Defined.

Lemma getTagOrLatest_untagged_not_found_witness :
  exists msg w',
    Create.getTagOrLatest Disk.disk (Disk.serve []) None (Disk.start [])
    = Create.Exited (Create.ExitCode 40) msg w'.
Proof.
  apply (proj2 (getTagOrLatest_untagged_not_found Disk.disk (Disk.serve []) None
                  (Disk.start [])
                  (Create.mkResponse true (Some "application/json") (Some []))
                  [] eq_refl eq_refl eq_refl eq_refl)).
  reflexivity.
Defined.

Lemma getTagOrLatest_rejects_unstable_tag_witness :
  exists msg,
    Create.getTagOrLatest Disk.disk (Disk.serve Disk.listing)
      (Some "@gmod/jbrowse-web@v0.0.3-beta") (Disk.start [])
    = Create.Exited (Create.ExitCode 40) msg
        (Create.mkWorld [] ([] ++ [Create.releases_url]) []).
Proof.
  apply (getTagOrLatest_rejects_unstable_tag Disk.disk (Disk.serve Disk.listing)
           "@gmod/jbrowse-web@v0.0.3-beta" (Disk.start [])
           (Create.mkResponse true (Some "application/json") (Some Disk.listing))
           Disk.listing eq_refl eq_refl eq_refl).
  - discriminate.
  - eexists. split; [left; reflexivity|reflexivity].
  - intros x [<-|[<-|[<-|[<-|[]]]]]; intros Ht; try discriminate Ht; reflexivity.
Defined.

Lemma catch_never_returns_witness :
  Create.catch Disk.disk (Disk.serve Disk.listing)
    (Create.mkThrown (Some true) (Create.ExitCode 2) (Some "Missing 1 required arg"))
    (Disk.start [])
  = Create.Exited (Create.ExitCode 0) None
      (Create.mkWorld [] [Create.releases_url]
         ["All JBrowse versions: @gmod/jbrowse-web@v0.0.2, @gmod/jbrowse-web@v0.0.1"]).
Proof.
  apply (proj2 (proj2 (catch_never_returns Disk.disk (Disk.serve Disk.listing)
                         (Create.mkThrown (Some true) (Create.ExitCode 2)
                                          (Some "Missing 1 required arg"))
                         (Disk.start [])))
           (Create.mkResponse true (Some "application/json") (Some Disk.listing))
           Disk.listing eq_refl eq_refl eq_refl eq_refl).
Defined.

(** ** clone on a structure that contains itself *)

Lemma bind_diverge {A B} (m : M A) (f : A -> M B) (s : state) :
  m s = Diverge -> bind m f s = Diverge.
Proof. intros H. unfold bind. rewrite H. reflexivity. Qed.

Lemma filter_all {A} (p : A -> bool) (l : list A) :
  (forall x, In x l -> p x = true) -> List.filter p l = l.
Proof.
  induction l as [|x l IH]; intros H; [reflexivity|]. cbn [List.filter].
  rewrite (H x (or_introl eq_refl)). f_equal. apply IH.
  intros y Hy. apply H. right. exact Hy.
Qed.

Lemma in_put_update {V} (k : string) (fresh : V) (upd : V -> V)
      (l : list (string * V)) (x : string * V) :
  In x (put k fresh upd l) ->
  x = (k, fresh) \/ (exists old, x = (k, upd old)) \/ In x l.
Proof.
  unfold put. destruct (assoc k l) as [v0|].
  - clear v0. induction l as [|[k0 v0] l IH]; [intros []|]. cbn [replace_assoc].
    destruct (String.eqb k k0) eqn:E.
    + apply String.eqb_eq in E. subst k0. intros [<-|Hin].
      * right. left. exists v0. reflexivity.
      * right. right. right. exact Hin.
    + intros [<-|Hin]; [right; right; left; reflexivity|].
      destruct (IH Hin) as [Hx|[Hx|Hx]]; auto. right. right. right. exact Hx.
  - intros Hin. apply in_insert in Hin. destruct Hin; auto.
Qed.

Lemma find_prop_found (h : list object) (l : loc) (o : object) (k : string)
      (p : prop) :
  h !! l = Some o -> own_prop o k = Some p -> find_prop h l k = Some p.
Proof.
  intros Ho Hp. unfold find_prop.
  assert (Hl : l < length h) by (eapply lookup_lt_Some; exact Ho).
  destruct (length h) as [|n]; [lia|]. cbn [chain_prop]. rewrite Ho, Hp.
  reflexivity.
Qed.

Lemma mixin_condition_ok (ld le : loc) (name : string) (v : value) (s : state) :
  exists c,
    (lacks name (VRef ld)
     ||| (differs (get (VRef ld) name) v
          &&& (lacks name (VRef le) ||| differs (get (VRef le) name) v))) s
    = Ok c s.
Proof.
  unfold or_else, and_then, lacks, differs, bind, ret, has_property, get.
  destruct (find_prop (heap s) ld name); cbn [negb]; [|eauto].
  destruct (negb (strict_eq _ v)); [|eauto].
  destruct (find_prop (heap s) le name); cbn [negb]; eauto.
Qed.

Section CloneCycle.

Variable call_fn : func -> value -> list value -> M value.
Variable construct_fn : func -> list value -> M value.

Local Abbreviation clone_body' := (clone_body call_fn construct_fn).
Local Abbreviation clone' := (clone call_fn construct_fn).

Variables (h0 : list object) (l : loc) (o : object).
Variables (pre : list (string * value)) (k : string) (rest : list (string * prop)).

Hypothesis Hrealm : realm_ok h0.
Hypothesis Ho : h0 !! l = Some o.
Hypothesis Hkind : kind o = KPlain.
Hypothesis Hproto : proto o = Some ObjectPrototype.
Hypothesis Hprops :
  props o = map (fun kv => (fst kv, shown (snd kv))) pre
            ++ (k, shown (VRef l)) :: rest.
Hypothesis Hprim : forall kk v, In (kk, v) pre -> forall l', v <> VRef l'.
Hypothesis Hfresh : ~ In k (map fst pre).
Hypothesis HnodeType : assoc "nodeType" (props o) = None.
Hypothesis Hconstructor : assoc "constructor" (props o) = None.
Hypothesis Hkey : find_prop h0 ObjectPrototype k = None.

Lemma cycle_own (name : string) : own_prop o name = assoc name (props o).
Proof. apply own_prop_plain. left. exact Hkind. Qed.

Lemma cycle_self : child h0 l k = VRef l.
Proof.
  unfold child. rewrite (find_prop_found h0 l o k (shown (VRef l)) Ho);
    [reflexivity|].
  rewrite cycle_own, Hprops. clear Hprops Hprim.
  induction pre as [|[k0 v0] pre' IH]; cbn [map app assoc fst snd].
  - rewrite String.eqb_refl. reflexivity.
  - destruct (String.eqb k k0) eqn:E.
    + apply String.eqb_eq in E. exfalso. apply Hfresh. left. symmetry. exact E.
    + apply IH. intros Hin. apply Hfresh. right. exact Hin.
Qed.

Lemma cycle_before (name : string) :
  In name (map fst pre) -> forall l', child h0 l name <> VRef l'.
Proof.
  intros Hin.
  assert (Hfound : exists v, assoc name (props o) = Some (shown v)
                             /\ forall l', v <> VRef l').
  { rewrite Hprops. clear Hprops Hfresh.
    induction pre as [|[k0 v0] pre' IH]; [destruct Hin|].
    cbn [map app assoc fst snd]. destruct (String.eqb name k0) eqn:E.
    - exists v0. split; [reflexivity|]. apply (Hprim k0 v0). left. reflexivity.
    - apply IH.
      + intros kk v Hkv. apply (Hprim kk v). right. exact Hkv.
      + destruct Hin as [Heq|Hin]; [|exact Hin].
        cbn [fst] in Heq. apply String.eqb_neq in E. congruence. }
  destruct Hfound as (v & Hv & Hnot). unfold child.
  rewrite (find_prop_found h0 l o name (shown v) Ho); [exact Hnot|].
  rewrite cycle_own. exact Hv.
Qed.

Lemma cycle_names :
  exists later, chain_keys (length h0) h0 l [] = map fst pre ++ k :: later.
Proof.
  assert (Hl : l < length h0) by (eapply lookup_lt_Some; exact Ho).
  destruct (length h0) as [|n]; [lia|]. cbn [chain_keys]. rewrite Ho.
  rewrite filter_all by reflexivity.
  unfold own_enumerable_keys. rewrite Hprops, List.filter_app, map_app.
  cbn [List.filter snd shown penum map fst].
  rewrite filter_all.
  - rewrite map_map. cbn [fst]. rewrite <- app_assoc. cbn [app]. eauto.
  - intros [k0 p0] Hin. apply in_map_iff in Hin.
    destruct Hin as ([k1 v1] & [= <- <-] & _). reflexivity.
Qed.

(** What [mixin] keeps while it copies into the object at [ld], with the
    empty object of the comparison at [le]. *)
Local Abbreviation cycle_copying ld le s :=
  (extends h0 (heap s)
   /\ heap s !! le = Some empty_object
   /\ exists od, heap s !! ld = Some od
        /\ kind od = KPlain /\ proto od = Some ObjectPrototype
        /\ forall kk p, In (kk, p) (props od) -> forall l', pval p <> VRef l').

Local Abbreviation cycle_step recur ld le :=
  (fun name : string =>
     s <- get (VRef l) name ;;
     c <- lacks name (VRef ld)
          ||| (differs (get (VRef ld) name) s
               &&& (lacks name (VRef le) ||| differs (get (VRef le) name) s)) ;;
     if c then
       v <- recur s ;;
       set (VRef ld) name v
     else ret tt).

Lemma cycle_get (name : string) (s : state) :
  extends h0 (heap s) -> get (VRef l) name s = Ok (child h0 l name) s.
Proof.
  intros Hext. rewrite get_child. f_equal.
  apply child_stable; [apply Hrealm|eapply lookup_lt_Some; exact Ho|exact Hext].
Qed.

Lemma cycle_condition_self (ld le : loc) (s : state) :
  cycle_copying ld le s ->
  (lacks k (VRef ld)
   ||| (differs (get (VRef ld) k) (VRef l)
        &&& (lacks k (VRef le) ||| differs (get (VRef le) k) (VRef l)))) s
  = Ok true s.
Proof.
  intros (Hext & Hle & od & Hld & Hkd & Hpd & Hvals).
  assert (HP : find_prop (heap s) ObjectPrototype k = None).
  { rewrite (find_prop_stable h0 (heap s)); [exact Hkey|apply Hrealm| |exact Hext].
    destruct Hrealm as (_ & (op & Hop & _) & _). eapply lookup_lt_Some. exact Hop. }
  assert (Hempty : find_prop (heap s) le k = None).
  { rewrite (find_prop_own (heap s) le ObjectPrototype empty_object k Hle eq_refl HP).
    reflexivity. }
  assert (Hdest : find_prop (heap s) ld k = assoc k (props od)).
  { rewrite (find_prop_own (heap s) ld ObjectPrototype od k Hld Hpd HP).
    apply own_prop_plain. left. exact Hkd. }
  assert (Hlacks : lacks k (VRef le) s = Ok true s).
  { unfold lacks, bind, has_property, ret. rewrite Hempty. reflexivity. }
  destruct (assoc k (props od)) as [p|] eqn:Hp.
  - assert (Hne : strict_eq (pval p) (VRef l) = false).
    { pose proof (Hvals k p (assoc_in _ _ _ Hp)) as Hnot.
      destruct (pval p) as [| | | | |l']; try reflexivity.
      exfalso. eapply Hnot. reflexivity. }
    rewrite (or_else_false _ _ s s).
    + rewrite (and_then_true _ _ s s).
      * apply or_else_true. exact Hlacks.
      * unfold differs, bind, get, ret. rewrite Hdest, Hne. reflexivity.
    + unfold lacks, bind, has_property, ret. rewrite Hdest. reflexivity.
  - apply or_else_true. unfold lacks, bind, has_property, ret. rewrite Hdest.
    reflexivity.
Qed.

Lemma cycle_set (ld le : loc) (name : string) (v : value) (s : state) :
  length h0 <= ld -> ld <> le -> cycle_copying ld le s ->
  (forall l', v <> VRef l') ->
  exists s', set (VRef ld) name v s = Ok tt s' /\ cycle_copying ld le s'.
Proof.
  intros Hge Hne (Hext & Hle & od & Hld & Hkd & Hpd & Hvals) Hv.
  unfold set, assign. rewrite Hld, Hkd. eexists. split; [reflexivity|].
  assert (Hlt : ld < length (heap s)) by (eapply lookup_lt_Some; exact Hld).
  split; [apply extends_insert; assumption|]. cbn [heap]. split.
  - rewrite list_lookup_insert_ne by exact Hne. exact Hle.
  - eexists. split; [apply list_lookup_insert_eq; exact Hlt|].
    split; [reflexivity|]. split; [exact Hpd|]. cbn [props].
    intros kk p Hin. apply in_put_update in Hin.
    destruct Hin as [[= -> ->]|[(old & [= -> ->])|Hin]]; [exact Hv|exact Hv|].
    exact (Hvals kk p Hin).
Qed.

Lemma cycle_loop (recur : value -> M value) (ld le : loc)
      (names later : list string) :
  length h0 <= ld -> ld <> le ->
  (forall v s, (forall l', v <> VRef l') ->
               recur v s = Ok v s \/ recur v s = Diverge) ->
  (forall s, extends h0 (heap s) -> recur (VRef l) s = Diverge) ->
  (forall name, In name names -> forall l', child h0 l name <> VRef l') ->
  forall s, cycle_copying ld le s ->
  for_of (names ++ k :: later) (cycle_step recur ld le) s = Diverge.
Proof.
  intros Hge Hne Hleaf Hself.
  induction names as [|name names IH]; intros Hnames s Hinv.
  - cbn [app for_of]. apply bind_diverge.
    rewrite (bind_ok _ _ _ _ _ (cycle_get k s (proj1 Hinv))), cycle_self.
    rewrite (bind_ok _ _ _ _ _ (cycle_condition_self ld le s Hinv)).
    apply bind_diverge. apply Hself. exact (proj1 Hinv).
  - cbn [app for_of].
    assert (Hv : forall l', child h0 l name <> VRef l')
      by (apply Hnames; left; reflexivity).
    assert (Hrest : forall name', In name' names ->
                      forall l', child h0 l name' <> VRef l')
      by (intros name' Hin; apply Hnames; right; exact Hin).
    unfold bind at 1.
    rewrite (bind_ok _ _ _ _ _ (cycle_get name s (proj1 Hinv))).
    destruct (mixin_condition_ok ld le name (child h0 l name) s) as [c Hc].
    rewrite (bind_ok _ _ _ _ _ Hc). destruct c.
    + destruct (Hleaf (child h0 l name) s Hv) as [Hok|Hdiv].
      * rewrite (bind_ok _ _ _ _ _ Hok).
        destruct (cycle_set ld le name (child h0 l name) s Hge Hne Hinv Hv)
          as (s' & Hset & Hinv').
        rewrite Hset. exact (IH Hrest s' Hinv').
      * rewrite (bind_diverge _ _ _ Hdiv). reflexivity.
    + exact (IH Hrest s Hinv).
Qed.

Lemma cycle_constructor (s : state) :
  extends h0 (heap s) ->
  get (VRef l) "constructor" s = Ok (VRef ObjectConstructor) s.
Proof.
  intros Hext. rewrite (cycle_get _ s Hext). f_equal. unfold child.
  pose proof Hrealm as (_ & (op & Hop & Hpop & _) & _ & _ & _ & _
                        & (p & Hctor & Hval) & _).
  unfold find_prop in *.
  assert (Hlen : 2 <= length h0).
  { destruct Hrealm as (_ & _ & _ & _ & _ & (oc & Hoc & _) & _).
    apply lookup_lt_Some in Hoc. unfold ObjectConstructor in Hoc. lia. }
  destruct (length h0) as [|[|n]]; try lia.
  cbn [chain_prop] in *. rewrite Ho, cycle_own, Hconstructor, Hproto.
  rewrite Hop in *. rewrite Hpop in *.
  destruct (own_prop op "constructor") as [pc|]; [|discriminate].
  injection Hctor as ->. exact Hval.
Qed.

Lemma clone_cycle (n : nat) :
  forall s, extends h0 (heap s) -> clone' n (VRef l) s = Diverge.
Proof.
  induction n as [|n IH]; intros s Hext; [reflexivity|].
  cbn [clone].
  assert (Hnode : exists nodeType,
             get (VRef l) "nodeType" s = Ok nodeType s
             /\ (ret (truthy nodeType) &&& has_property "cloneNode" (VRef l)) s
                = Ok false s).
  { apply (not_taken_for_node h0 l ObjectPrototype o s Hrealm Hext Ho Hproto).
    - apply Hrealm.
    - left. rewrite cycle_own. exact HnodeType. }
  rewrite (clone_body_rest call_fn construct_fn (clone' n) h0 l ObjectPrototype o s
             Hrealm Hext Ho Hproto);
    [|intros f; rewrite Hkind; discriminate|left; reflexivity|exact Hnode].
  assert (Harr : is_array (VRef l) s = Ok false s).
  { unfold is_array. rewrite (Hext _ _ Ho), Hkind. reflexivity. }
  rewrite (bind_ok _ _ _ _ _ Harr). cbv beta iota.
  set (s1 := mkState (heap s ++ [empty_object]) (calls s)).
  assert (Hnew : (ctor <- get (VRef l) "constructor" ;;
                  if truthy ctor then
                    ctor' <- get (VRef l) "constructor" ;;
                    construct construct_fn ctor' []
                  else alloc empty_object) s
                 = Ok (VRef (length (heap s))) s1).
  { rewrite (bind_ok _ _ _ _ _ (cycle_constructor s Hext)). cbn [truthy].
    rewrite (bind_ok _ _ _ _ _ (cycle_constructor s Hext)).
    destruct Hrealm as (_ & _ & _ & _ & _ & (oc & Hoc & Hkoc) & _).
    unfold construct. rewrite (Hext _ _ Hoc), Hkoc. reflexivity. }
  rewrite (bind_ok _ _ _ _ _ Hnew). unfold mixin.
  set (s2 := mkState (heap s1 ++ [empty_object]) (calls s1)).
  assert (Halloc : alloc empty_object s1 = Ok (VRef (length (heap s1))) s2)
    by reflexivity.
  rewrite (bind_ok _ _ _ _ _ Halloc).
  assert (Hext2 : extends h0 (heap s2)).
  { eapply extends_trans; [exact Hext|].
    eapply extends_trans; apply extends_alloc. }
  destruct cycle_names as [later Hnames].
  assert (Hkeys : for_in_keys (VRef l) s2
                  = Ok (map fst pre ++ k :: later) s2).
  { unfold for_in_keys. rewrite <- Hnames. f_equal.
    apply for_in_keys_stable;
      [apply Hrealm|eapply lookup_lt_Some; exact Ho|exact Hext2]. }
  rewrite (bind_ok _ _ _ _ _ Hkeys). apply bind_diverge.
  apply (cycle_loop (clone' n) (length (heap s)) (length (heap s1))
                    (map fst pre) later).
  - apply extends_length. exact Hext.
  - subst s1. cbn [heap]. rewrite length_app. cbn. lia.
  - intros v s' Hv. destruct n as [|n']; [right; reflexivity|left].
    cbn [clone]. unfold clone_body.
    rewrite (bind_ok _ _ _ _ _ (leaf_condition v s' Hv)). reflexivity.
  - exact IH.
  - exact cycle_before.
  - split; [exact Hext2|]. split.
    + subst s2. cbn [heap]. apply list_lookup_middle. reflexivity.
    + exists empty_object. split.
      * subst s2 s1. cbn [heap]. apply lookup_app_l_Some.
        apply list_lookup_middle. reflexivity.
      * split; [reflexivity|]. split; [reflexivity|]. intros kk p [].
Qed.

End CloneCycle.

Section CloneMore.

Variable call_fn : func -> value -> list value -> M value.
Variable construct_fn : func -> list value -> M value.

Local Abbreviation clone' := (clone call_fn construct_fn).

(** X18. "Warning: do not clone cyclic structures": on a plain object that
    holds itself under an enumerable key, the properties before it
    holding primitive values, [clone] never returns, whatever the fuel.
    The object has no [nodeType] and no [constructor] of its own, and
    the key is not a property of [Object.prototype]. *)
Theorem clone_never_returns_on_itself (s : state) (l : loc) (o : object)
        (pre : list (string * value)) (k : string) (rest : list (string * prop)) :
  realm_ok (heap s) ->
  heap s !! l = Some o -> kind o = KPlain -> proto o = Some ObjectPrototype ->
  props o = map (fun kv => (fst kv, shown (snd kv))) pre
            ++ (k, shown (VRef l)) :: rest ->
  (forall kk v, In (kk, v) pre -> forall l', v <> VRef l') ->
  ~ In k (map fst pre) ->
  assoc "nodeType" (props o) = None ->
  assoc "constructor" (props o) = None ->
  find_prop (heap s) ObjectPrototype k = None ->
  forall n, clone' n (VRef l) s = Diverge.
Proof.
  intros Hr Ho Hk Hp Hprops Hprim Hfresh Hnode Hctor Hkey n.
  apply (clone_cycle call_fn construct_fn (heap s) l o pre k rest Hr Ho Hk Hp
           Hprops Hprim Hfresh Hnode Hctor Hkey n s).
  apply extends_refl.
Qed.

(** X19. The test for a DOM node comes first: any object that is no function,
    has a truthy [nodeType] and has a [cloneNode], a date or an array
    included, is handed to its [cloneNode] with the argument [true];
    nothing of it is copied by [clone] itself, and what [cloneNode]
    does, a [TypeError] when it is no function included, is what [clone]
    does. *)
Theorem clone_hands_nodes_to_cloneNode (n : nat) (s : state) (l : loc)
        (o : object) (pn pc : prop) :
  heap s !! l = Some o -> (forall f, kind o <> KFunction f) ->
  find_prop (heap s) l "nodeType" = Some pn -> truthy (pval pn) = true ->
  find_prop (heap s) l "cloneNode" = Some pc ->
  clone' (S n) (VRef l) s
  = call_function call_fn (pval pc) (VRef l) [VBool true] s.
Proof.
  intros Ho Hk Hn Ht Hc. cbn [clone]. unfold clone_body.
  rewrite (bind_ok _ _ _ _ _ (node_condition l o s Ho Hk)).
  assert (Hget : get (VRef l) "nodeType" s = Ok (pval pn) s).
  { unfold get. rewrite Hn. reflexivity. }
  rewrite (bind_ok _ _ _ _ _ Hget).
  assert (Hnode : (ret (truthy (pval pn)) &&& has_property "cloneNode" (VRef l)) s
                  = Ok true s).
  { rewrite (and_then_true _ _ s s) by (unfold ret; rewrite Ht; reflexivity).
    unfold has_property. rewrite Hc. reflexivity. }
  rewrite (bind_ok _ _ _ _ _ Hnode).
  assert (Hcn : get (VRef l) "cloneNode" s = Ok (pval pc) s).
  { unfold get. rewrite Hc. reflexivity. }
  rewrite (bind_ok _ _ _ _ _ Hcn). reflexivity.
Qed.

End CloneMore.

(** ** mixin and the extensions of Object.prototype *)

Lemma strict_eq_refl (v : value) : strict_eq v v = true.
Proof.
  destruct v as [| |b|n|str|l]; cbn [strict_eq]; try reflexivity.
  - destruct b; reflexivity.
  - apply Z.eqb_refl.
  - apply String.eqb_refl.
  - apply Nat.eqb_refl.
Qed.

Lemma find_prop_inherited (h : list object) (l : loc) (o op : object)
      (k : string) (p : prop) :
  h !! l = Some o -> proto o = Some ObjectPrototype -> own_prop o k = None ->
  h !! ObjectPrototype = Some op -> own_prop op k = Some p ->
  find_prop h l k = Some p.
Proof.
  intros Ho Hp Hown Hop Hk. unfold find_prop.
  assert (Hl : l < length h) by (eapply lookup_lt_Some; exact Ho).
  assert (H0 : ObjectPrototype < length h) by (eapply lookup_lt_Some; exact Hop).
  assert (Hne : l <> ObjectPrototype).
  { intros ->. rewrite Hop in Ho. injection Ho as ->. congruence. }
  unfold ObjectPrototype in *.
  destruct (length h) as [|[|n]]; try lia.
  cbn [chain_prop]. rewrite Ho, Hown, Hp, Hop, Hk. reflexivity.
Qed.

Section MixinFacts.

Variable copyFunc : option (value -> M value).

(** The copy function, if there is one, returns and leaves the objects
    that exist as they are. *)
Hypothesis copy_ok :
  forall f, copyFunc = Some f ->
    forall v s, wp False (f v) (fun _ s' => extends (heap s) (heap s')) s.

Variables (op os od : object) (ls ld : loc) (k : string) (p : prop).
Variable s0 : state.
Hypothesis Hop : heap s0 !! ObjectPrototype = Some op.
Hypothesis Hpp : proto op = None.
Hypothesis Hk : own_prop op k = Some p.
Hypothesis Hs : heap s0 !! ls = Some os.
Hypothesis Hsp : proto os = Some ObjectPrototype.
Hypothesis Hsk : own_prop os k = None.
Hypothesis Hd : heap s0 !! ld = Some od.
Hypothesis Hdk : kind od = KPlain.
Hypothesis Hdp : proto od = Some ObjectPrototype.
Hypothesis Hne : ld <> ls.

Local Abbreviation le := (length (heap s0)).

(** What [mixin] keeps while it runs. *)
Local Abbreviation mixing s :=
  (heap s !! ObjectPrototype = Some op
   /\ heap s !! ls = Some os
   /\ heap s !! le = Some empty_object
   /\ exists od', heap s !! ld = Some od'
        /\ kind od' = KPlain /\ proto od' = Some ObjectPrototype
        /\ assoc k (props od') = assoc k (props od)).

Lemma mixin_dest_apart : ld <> ObjectPrototype /\ ld <> le.
Proof.
  split.
  - intros ->. rewrite Hop in Hd. injection Hd as ->. congruence.
  - apply lookup_lt_Some in Hd. lia.
Qed.

Lemma mixin_extended (s s' : state) :
  mixing s -> extends (heap s) (heap s') -> mixing s'.
Proof.
  intros (H1 & H2 & H3 & od' & H4 & H5) Hext.
  split; [apply Hext; exact H1|]. split; [apply Hext; exact H2|].
  split; [apply Hext; exact H3|]. exists od'. split; [apply Hext; exact H4|exact H5].
Qed.

Lemma mixin_set (name : string) (v : value) (s : state) :
  name <> k -> mixing s ->
  wp False (set (VRef ld) name v) (fun _ s' => mixing s') s.
Proof.
  intros Hname (H1 & H2 & H3 & od' & H4 & H5 & H6 & H7).
  destruct mixin_dest_apart as [Hd0 Hdle].
  unfold wp, set, assign. rewrite H4, H5. cbn [heap].
  assert (Hlt : ld < length (heap s)) by (eapply lookup_lt_Some; exact H4).
  split; [rewrite list_lookup_insert_ne by exact Hd0; exact H1|].
  split; [rewrite list_lookup_insert_ne by exact Hne; exact H2|].
  split; [rewrite list_lookup_insert_ne by exact Hdle; exact H3|].
  eexists. split; [apply list_lookup_insert_eq; exact Hlt|].
  split; [reflexivity|]. split; [exact H6|]. cbn [props].
  rewrite assoc_put_other by congruence. exact H7.
Qed.

Lemma mixin_step (name : string) (s : state) :
  mixing s ->
  wp False
    (x <- get (VRef ls) name ;;
     c <- lacks name (VRef ld)
          ||| (differs (get (VRef ld) name) x
               &&& (lacks name (VRef le) ||| differs (get (VRef le) name) x)) ;;
     if c then
       v <- match copyFunc with
            | Some f => f x
            | None => ret x
            end ;;
       set (VRef ld) name v
     else ret tt)
    (fun _ s' => mixing s') s.
Proof.
  intros Hinv.
  pose proof Hinv as (Hop' & Hs' & Hle & od' & Hd' & Hdk' & Hdp' & Hkeep).
  wp_step (get_child ls name s).
  destruct (String.eqb name k) eqn:E.
  - apply String.eqb_eq in E. subst name.
    assert (Hsrc : child (heap s) ls k = pval p).
    { unfold child.
      rewrite (find_prop_inherited (heap s) ls os op k p Hs' Hsp Hsk Hop' Hk).
      reflexivity. }
    rewrite Hsrc.
    assert (Hempty : find_prop (heap s) le k = Some p).
    { apply (find_prop_inherited (heap s) le empty_object op k p Hle eq_refl
               eq_refl Hop' Hk). }
    assert (Hdest : exists q, find_prop (heap s) ld k = Some q).
    { destruct (own_prop od' k) as [q|] eqn:Hq.
      - exists q. exact (find_prop_found _ _ _ _ _ Hd' Hq).
      - exists p. exact (find_prop_inherited _ _ _ _ _ _ Hd' Hdp' Hq Hop' Hk). }
    destruct Hdest as [q Hq].
    assert (Hc : (lacks k (VRef ld)
                  ||| (differs (get (VRef ld) k) (pval p)
                       &&& (lacks k (VRef le)
                            ||| differs (get (VRef le) k) (pval p)))) s
                 = Ok false s).
    { rewrite (or_else_false _ _ s s).
      2:{ unfold lacks, bind, has_property, ret. rewrite Hq. reflexivity. }
      destruct (strict_eq (pval q) (pval p)) eqn:Heq.
      - apply and_then_false. unfold differs, bind, get, ret.
        rewrite Hq, Heq. reflexivity.
      - rewrite (and_then_true _ _ s s).
        2:{ unfold differs, bind, get, ret. rewrite Hq, Heq. reflexivity. }
        rewrite (or_else_false _ _ s s).
        2:{ unfold lacks, bind, has_property, ret. rewrite Hempty. reflexivity. }
        unfold differs, bind, get, ret. rewrite Hempty, strict_eq_refl.
        reflexivity. }
    wp_step Hc. apply wp_ret. exact Hinv.
  - apply String.eqb_neq in E.
    destruct (mixin_condition_ok ld le name (child (heap s) ls name) s) as [c Hc].
    wp_step Hc. destruct c; [|apply wp_ret; exact Hinv].
    apply wp_bind. destruct copyFunc as [f|] eqn:Hf.
    + eapply wp_mono; [|exact (copy_ok f eq_refl (child (heap s) ls name) s)].
      intros v s' Hext. apply mixin_set; [exact E|].
      exact (mixin_extended s s' Hinv Hext).
    + apply wp_ret. apply mixin_set; [exact E|exact Hinv].
Qed.

(** X21. A property that [source] has from [Object.prototype] alone is not
    copied: once [mixin] is done, the object [dest], a plain object that
    inherits from [Object.prototype] too, has under that name what it
    had of its own, or still nothing of its own.  [mixin] returns [dest];
    the copy function, if there is one, is taken to return and to leave
    the existing objects alone. *)
Theorem mixin_skips_prototype_extension :
  exists s' od',
    mixin (VRef ld) (VRef ls) copyFunc s0 = Ok (VRef ld) s'
    /\ heap s' !! ld = Some od'
    /\ own_prop od' k = own_prop od k.
Proof.
  assert (Hwp : wp False (mixin (VRef ld) (VRef ls) copyFunc)
                   (fun v s' => v = VRef ld /\ mixing s') s0).
  { unfold mixin. apply wp_bind, wp_alloc. apply wp_bind.
    set (s1 := mkState (heap s0 ++ [empty_object]) (calls s0)).
    assert (Hinv : mixing s1).
    { subst s1. cbn [heap].
      split; [apply lookup_app_l_Some; exact Hop|].
      split; [apply lookup_app_l_Some; exact Hs|].
      split; [apply list_lookup_middle; reflexivity|].
      exists od. split; [apply lookup_app_l_Some; exact Hd|]. auto. }
    unfold wp at 1. unfold for_in_keys. cbv beta iota. apply wp_bind.
    eapply wp_mono; [|apply (wp_for_of False (fun s => mixing s))].
    - intros u s' Hinv'. apply wp_ret. split; [reflexivity|exact Hinv'].
    - exact Hinv.
    - intros name s _ Hinv'. apply mixin_step. exact Hinv'. }
  unfold wp in Hwp.
  destruct (mixin (VRef ld) (VRef ls) copyFunc s0) as [v s'| |];
    [|destruct Hwp..].
  destruct Hwp as (-> & _ & _ & _ & od' & Hd' & Hdk' & _ & Hkeep).
  exists s', od'. split; [reflexivity|]. split; [exact Hd'|].
  rewrite !own_prop_plain by (left; assumption). exact Hkeep.
Qed.

End MixinFacts.

(** ** deepUpdate with a flat second argument *)










(** ** Witnesses *)

Lemma cyclic_case_realm : realm_ok (heap cyclic_case).
Proof.
  split; [apply protos_check_ok; reflexivity|].
  repeat split; try (eexists; repeat split; reflexivity).
Qed.

Lemma clone_never_returns_on_itself_witness :
  clone sample_call sample_construct 7 (VRef 9) cyclic_case = Diverge.
Proof.
  refine (clone_never_returns_on_itself sample_call sample_construct cyclic_case 9
            (plain [("name", VStr "a"); ("self", VRef 9)])
            [("name", VStr "a")] "self" [] cyclic_case_realm
            eq_refl eq_refl eq_refl eq_refl _ _ eq_refl eq_refl eq_refl 7).
  - intros kk v [[= <- <-]|[]] l'. discriminate.
  - intros [H|[]]. discriminate H.
Defined.

Lemma clone_hands_nodes_to_cloneNode_witness :
  clone sample_call sample_construct 1 (VRef 9) node_date_case
  = Ok VUndef (mkState (heap node_date_case) [mkCall 10 (VRef 9) [VBool true]]).
Proof.
  rewrite (clone_hands_nodes_to_cloneNode sample_call sample_construct 0
             node_date_case 9
             (mkObject (KDate 5) (Some DatePrototype)
                       [("nodeType", shown (VNum 1)); ("cloneNode", shown (VRef 10))])
             (shown (VNum 1)) (shown (VRef 10)) eq_refl);
    try reflexivity.
  intros f. discriminate.
Defined.

Lemma mixin_skips_prototype_extension_witness :
  exists s' od',
    mixin (VRef 10) (VRef 9) None extended_case = Ok (VRef 10) s'
    /\ heap s' !! 10 = Some od'
    /\ own_prop od' "each" = Some (shown (VNum 2)).
Proof.
  destruct (mixin_skips_prototype_extension None
              ltac:(intros f [=])
              (mkObject KPlain None
                 [("constructor", hidden (VRef ObjectConstructor));
                  ("each", shown (VNum 1))])
              (plain [("a", VNum 1)]) (plain [("each", VNum 2)]) 9 10 "each"
              (shown (VNum 1)) extended_case
              eq_refl eq_refl eq_refl eq_refl eq_refl eq_refl eq_refl eq_refl
              eq_refl ltac:(discriminate))
    as (s' & od' & Hrun & Hd & Hown).
  exists s', od'. split; [exact Hrun|]. split; [exact Hd|]. exact Hown.
Defined.



(** ** What clone never does *)

Section CloneKeeps.

Variable call_fn : func -> value -> list value -> M value.
Variable construct_fn : func -> list value -> M value.

Local Abbreviation clone_body' := (clone_body call_fn construct_fn).
Local Abbreviation clone' := (clone call_fn construct_fn).

(** The outcome of [m] in [s]: [Q] when it returns, the objects of [hb]
    untouched when it throws. *)
Local Abbreviation sp hb m Q s :=
  (match m s with
   | Ok a s' => Q a s'
   | Throw _ s' => extends hb (heap s')
   | Diverge => True
   end).

(** The functions of the heap leave the objects that exist as they are,
    however they end; a constructor returns a new object. *)
Hypothesis call_fn_safe :
  forall f this args s,
    sp (heap s) (call_fn f this args) (fun _ s' => extends (heap s) (heap s')) s.
Hypothesis construct_fn_safe :
  forall f args s,
    sp (heap s) (construct_fn f args)
       (fun v s' => extends (heap s) (heap s')
                    /\ exists l, v = VRef l /\ length (heap s) <= l) s.

Lemma sp_bind {A B} (hb : list object) (m : M A) (f : A -> M B)
      (Q : B -> state -> Prop) (s : state) :
  sp hb m (fun a s' => sp hb (f a) Q s') s -> sp hb (bind m f) Q s.
Proof. unfold bind. destruct (m s) as [a s'| |]; exact id. Qed.

Lemma sp_mono {A} (hb hb' : list object) (m : M A)
      (Q Q' : A -> state -> Prop) (s : state) :
  (forall a s', Q a s' -> Q' a s') ->
  (forall s', extends hb (heap s') -> extends hb' (heap s')) ->
  sp hb m Q s -> sp hb' m Q' s.
Proof.
  intros HQ Hb. destruct (m s) as [a s'|e s'|]; [apply HQ|apply Hb|exact id].
Qed.

Lemma sp_quiet {A} (hb : list object) (m : M A) (Q : A -> state -> Prop)
      (s : state) :
  quiet m -> extends hb (heap s) -> (forall a, m s = Ok a s -> Q a s) ->
  sp hb m Q s.
Proof.
  intros Hq Hs HQ. destruct (Hq s) as [[a Ha]|[e He]].
  - rewrite Ha. apply HQ. exact Ha.
  - rewrite He. exact Hs.
Qed.

Lemma sp_for_of {A} (hb : list object) (I : state -> Prop) (xs : list A)
      (body : A -> M unit) (s : state) :
  I s ->
  (forall x s, I s -> sp hb (body x) (fun _ s' => I s') s) ->
  sp hb (for_of xs body) (fun _ s' => I s') s.
Proof.
  revert s. induction xs as [|x xs IH]; intros s HI Hbody; [exact HI|].
  cbn [for_of]. apply sp_bind.
  eapply sp_mono; [| |apply (Hbody x s HI)]; [|exact (fun _ H => H)].
  intros a s' HI'. apply IH; assumption.
Qed.

Lemma sp_set (hb : list object) (a : value) (k : string) (x : value)
      (s : state) :
  (forall l, a = VRef l -> length hb <= l) -> extends hb (heap s) ->
  sp hb (set a k x) (fun _ s' => extends hb (heap s')) s.
Proof.
  intros Hl Hs. unfold set. destruct a as [| | | | |l]; try exact Hs.
  destruct (heap s !! l) as [o|]; [|exact Hs].
  destruct (assign o k x); [|exact Hs].
  cbn [heap]. apply extends_insert; [apply Hl; reflexivity|exact Hs].
Qed.

Lemma sp_call_function (f this : value) (args : list value) (s : state) :
  sp (heap s) (call_function call_fn f this args)
     (fun _ s' => extends (heap s) (heap s')) s.
Proof.
  unfold call_function. destruct f; try apply extends_refl.
  destruct (heap s !! l) as [o|]; [|apply extends_refl].
  destruct (kind o); try apply extends_refl.
  apply (call_fn_safe f this args
           (mkState (heap s) (calls s ++ [mkCall l this args]))).
Qed.

Lemma sp_construct (f : value) (args : list value) (s : state) :
  sp (heap s) (construct construct_fn f args)
     (fun v s' => extends (heap s) (heap s')
                  /\ exists l, v = VRef l /\ length (heap s) <= l) s.
Proof.
  unfold construct. destruct f; try apply extends_refl.
  destruct (heap s !! l) as [o|]; [|apply extends_refl].
  destruct (kind o) as [| | | |fn]; try apply extends_refl.
  assert (Hfresh : sp (heap s) (alloc empty_object)
                      (fun v s' => extends (heap s) (heap s')
                                   /\ exists l, v = VRef l /\ length (heap s) <= l) s).
  { cbn. split; [apply extends_alloc|]. eexists. split; [reflexivity|lia]. }
  destruct fn, args; first [exact Hfresh | apply construct_fn_safe].
Qed.

Section Body.
Variable recur : value -> M value.
Hypothesis recur_safe :
  forall x s, sp (heap s) (recur x) (fun _ s' => extends (heap s) (heap s')) s.

Lemma sp_recur (hb : list object) (x : value) (s : state) :
  extends hb (heap s) ->
  sp hb (recur x) (fun _ s' => extends hb (heap s')) s.
Proof.
  intros Hs. eapply sp_mono; [| |apply recur_safe].
  - intros a s' H. eapply extends_trans; eassumption.
  - intros s' H. eapply extends_trans; eassumption.
Qed.

Lemma sp_mixin (hb : list object) (src : value) (ld : loc) (s : state) :
  length hb <= ld -> extends hb (heap s) ->
  sp hb (mixin (VRef ld) src (Some recur)) (fun _ s' => extends hb (heap s')) s.
Proof.
  intros Hld Hs. unfold mixin. apply sp_bind. cbn [alloc].
  set (s1 := mkState (heap s ++ [empty_object]) (calls s)).
  assert (Hs1 : extends hb (heap s1))
    by (eapply extends_trans; [exact Hs|apply extends_alloc]).
  apply sp_bind. apply sp_quiet; [apply quiet_for_in_keys|exact Hs1|].
  intros names _. apply sp_bind.
  eapply sp_mono;
    [| |apply (sp_for_of hb (fun s' => extends hb (heap s')))];
    [intros a s' H; exact H|exact (fun _ H => H)|exact Hs1|].
  intros name s' Hs'. apply sp_bind.
  apply sp_quiet; [apply quiet_get|exact Hs'|]. intros x _.
  apply sp_bind. apply sp_quiet; [|exact Hs'|].
  { apply quiet_or_else; [apply quiet_lacks|].
    apply quiet_and_then; [apply quiet_differs, quiet_get|].
    apply quiet_or_else; [apply quiet_lacks|apply quiet_differs, quiet_get]. }
  intros [|] _; [|exact Hs'].
  apply sp_bind.
  eapply sp_mono; [| |apply (sp_recur hb x s' Hs')]; [|exact (fun _ H => H)].
  intros v s'' Hs''. apply sp_set; [|exact Hs''].
  intros l [= <-]. exact Hld.
Qed.

Lemma sp_clone_elements (hb : list object) (src : value) (ld : loc)
      (len : value) (s : state) :
  length hb <= ld -> extends hb (heap s) ->
  sp hb (clone_elements recur src (VRef ld) len)
     (fun _ s' => extends hb (heap s')) s.
Proof.
  intros Hld Hs. unfold clone_elements. destruct len; try exact Hs.
  apply (sp_for_of hb (fun s' => extends hb (heap s'))); [exact Hs|].
  intros i s' Hs'. apply sp_bind.
  apply sp_quiet; [apply quiet_has_property|exact Hs'|].
  intros [|] _; [|exact Hs'].
  apply sp_bind. apply sp_quiet; [apply quiet_get|exact Hs'|]. intros x _.
  apply sp_bind.
  eapply sp_mono; [| |apply (sp_recur hb x s' Hs')]; [|exact (fun _ H => H)].
  intros v s'' Hs''. apply sp_set; [|exact Hs''].
  intros l [= <-]. exact Hld.
Qed.

Lemma sp_clone_body (src : value) (s : state) :
  sp (heap s) (clone_body' recur src)
     (fun _ s' => extends (heap s) (heap s')) s.
Proof.
  pose proof (extends_refl (heap s)) as Hs.
  unfold clone_body.
  apply sp_bind, sp_quiet; [|exact Hs|].
  { repeat apply quiet_or_else; [apply quiet_ret| |apply quiet_class_is].
    apply quiet_negate, quiet_typeof_is, quiet_ret. }
  intros [|] _; [exact Hs|].
  apply sp_bind, sp_quiet; [apply quiet_get|exact Hs|]. intros nodeType _.
  apply sp_bind, sp_quiet;
    [apply quiet_and_then; [apply quiet_ret|apply quiet_has_property]|exact Hs|].
  intros [|] _.
  { apply sp_bind, sp_quiet; [apply quiet_get|exact Hs|]. intros f _.
    apply sp_call_function. }
  apply sp_bind, sp_quiet; [apply quiet_instanceof|exact Hs|]. intros [|] _.
  { apply sp_bind, sp_quiet; [apply quiet_getTime|exact Hs|]. intros t _.
    destruct t; try exact Hs. cbn. apply extends_alloc. }
  apply sp_bind, sp_quiet; [apply quiet_instanceof|exact Hs|]. intros [|] _.
  { unfold new_RegExp. destruct src as [| | | | |l]; try exact Hs.
    destruct (heap s !! l) as [o|]; [|exact Hs].
    destruct (kind o); try exact Hs. cbn. apply extends_alloc. }
  apply sp_bind, sp_quiet; [apply quiet_is_array|exact Hs|]. intros isArr _.
  apply sp_bind.
  apply (sp_mono (heap s) (heap s) _
           (fun v s' => extends (heap s) (heap s')
                        /\ exists ld, v = VRef ld /\ length (heap s) <= ld));
    [|exact (fun _ H => H)|].
  { intros v s' (Hs' & ld & -> & Hld). apply sp_mixin; assumption. }
  destruct isArr.
  - apply sp_bind. cbn [alloc].
    set (s1 := mkState (heap s ++ [empty_array]) (calls s)).
    assert (Hs1 : extends (heap s) (heap s1)) by apply extends_alloc.
    apply sp_bind. apply sp_quiet; [apply quiet_get|exact Hs1|]. intros len _.
    apply sp_bind.
    eapply sp_mono;
      [| |apply (sp_clone_elements (heap s) src (length (heap s)) len s1
                   (le_n _) Hs1)];
      [|exact (fun _ H => H)].
    intros a s' Hs'. split; [exact Hs'|]. eauto.
  - apply sp_bind, sp_quiet; [apply quiet_get|exact Hs|]. intros ctor _.
    destruct (truthy ctor).
    + apply sp_bind, sp_quiet; [apply quiet_get|exact Hs|]. intros ctor' _.
      apply sp_construct.
    + cbn. split; [apply extends_alloc|]. eauto.
Qed.
End Body.

(** X20. [clone] changes nothing that exists, its argument included: however
    it ends, the objects that were there are as they were, whatever the
    value and the fuel, as long as the functions it calls - [cloneNode]
    and the constructors - leave the existing objects alone and the
    constructors return new objects. *)
Theorem clone_keeps_what_exists (n : nat) (v : value) (s : state) :
  match clone' n v s with
  | Ok _ s' => extends (heap s) (heap s')
  | Throw _ s' => extends (heap s) (heap s')
  | Diverge => True
  end.
Proof.
  revert v s. induction n as [|n IH]; intros v s; [exact I|].
  cbn [clone]. apply (sp_clone_body (clone' n) IH v s).
Qed.

End CloneKeeps.

Lemma sample_call_safe (f : func) (this : value) (args : list value) (s : state) :
  match sample_call f this args s with
  | Ok _ s' => extends (heap s) (heap s')
  | Throw _ s' => extends (heap s) (heap s')
  | Diverge => True
  end.
Proof.
  unfold sample_call. destruct f as [|id]; [apply extends_refl|].
  do 12 (try destruct id as [|id]);
    try destruct args as [|[] args]; cbn;
    try match goal with
        | |- context [String.eqb ?a ?b] => destruct (String.eqb a b)
        end;
    apply extends_refl.
Qed.

Lemma clone_keeps_what_exists_witness :
  match clone sample_call sample_construct 5 (VRef 9) cyclic_case with
  | Ok _ s' => extends (heap cyclic_case) (heap s')
  | Throw _ s' => extends (heap cyclic_case) (heap s')
  | Diverge => True
  end
  /\ match clone sample_call sample_construct 5 (VRef 9) clone_case with
     | Ok _ s' => extends (heap clone_case) (heap s')
     | Throw _ s' => extends (heap clone_case) (heap s')
     | Diverge => True
     end.
Proof.
  split;
    apply (clone_keeps_what_exists sample_call sample_construct sample_call_safe
             (fun f args s => extends_refl (heap s))).
Defined.

Section CreateInstall.
Import Create.

Variable FS : Type.
Variable mkdir : string -> FS -> option FS.
Variable readdir : string -> FS -> option (list string).
Variable fetch : string -> option response.
Variable unlink : string -> FS -> FS.

Local Abbreviation run := (Create.run FS mkdir readdir fetch).
Local Abbreviation on_close := (Create.on_close FS).
Local Abbreviation on_error := (Create.on_error FS unlink).

(** X22. The plain installation: without [--listVersions], [--url] and
    [--tag], once [mkdir] has succeeded and the directory is empty or
    [--force] is given, [run] asks for the release listing, then for the
    first asset of the first stable jbrowse-web release of the listing,
    its content type unexamined, and returns.  These are the only two
    requests; when [run] returns the file system is the one [mkdir]
    left, nothing of the archive being unpacked yet, and nothing has
    been printed.  The line that reports the installation is printed by
    the handler of the stream's end, and the handler of a stream error
    ends with a message and no exit code. *)
Theorem run_installs_latest (argsPath : string) (fl : flags) (w : world FS)
        (fs1 : FS) (listing : response) (rs : list GithubRelease)
        (v : GithubRelease) (a : asset) (others : list asset) (r : response) :
  listVersions fl = false -> given (url fl) = false -> given (tag fl) = false ->
  mkdir argsPath (fs w) = Some fs1 ->
  force fl = true \/ readdir argsPath fs1 = Some [] ->
  fetch releases_url = Some listing -> ok listing = true ->
  json listing = Some rs ->
  List.find web_release rs = Some v -> assets v = a :: others ->
  fetch (browser_download_url a) = Some r -> ok r = true ->
  let asked := requests w ++ [releases_url; browser_download_url a] in
  run argsPath fl w = Returned tt (mkWorld fs1 asked (output w))
  /\ on_close argsPath (mkWorld fs1 asked (output w))
     = Returned tt
         (mkWorld fs1 asked
            (output w ++ ["Your JBrowse 2 setup has been created at " +:+ argsPath]))
  /\ (forall err,
        on_error argsPath err (mkWorld fs1 asked (output w))
        = Exited Uncaught
            (Some ("Failed to download JBrowse 2 with " +:+ err
                   +:+ ". Please try again later"))
            (mkWorld (unlink argsPath fs1) asked (output w))).
Proof.
  intros Hl Hu Ht Hm Hpass Hf Hok Hj Hv Ha Hfr Hokr asked.
  split; [|split; [reflexivity|intros err; reflexivity]].
  set (w1 := mkWorld fs1 (requests w) (output w)).
  assert (Hcheck : (if negb (force fl)
                    then Create.checkPath FS readdir argsPath
                    else creturn tt) w1 = Returned tt w1).
  { destruct Hpass as [Hforce|Hr].
    - rewrite Hforce. reflexivity.
    - destruct (force fl); [reflexivity|]. cbn [negb].
      unfold Create.checkPath, cbind, try_catch, do_readdir. subst w1.
      cbn [fs]. rewrite Hr. reflexivity. }
  assert (Hget : Create.getTagOrLatest FS fetch (tag fl) w1
                 = Returned (browser_download_url a)
                     (mkWorld fs1 (requests w ++ [releases_url]) (output w))).
  { unfold Create.getTagOrLatest, cbind.
    rewrite (fetchGithubVersions_eq FS fetch w1 listing rs Hf Hok Hj), Ht.
    rewrite <- filter_head_find in Hv.
    destruct (List.filter web_release rs) as [|x l]; [discriminate|].
    cbn in Hv. injection Hv as ->. cbn [nth_error]. rewrite Ha. reflexivity. }
  unfold Create.run, cbind, try_or_error, do_mkdir.
  rewrite Hl. cbn [creturn]. rewrite Hm. fold w1. rewrite Hcheck, Hu, Hget.
  unfold do_fetch. rewrite Hfr. cbn [fs requests output]. rewrite Hokr.
  cbn [negb andb creturn]. unfold asked. rewrite <- app_assoc. reflexivity.
Qed.

End CreateInstall.

Lemma run_installs_latest_witness :
  Disk.run Disk.listing "/srv/jbrowse" (Create.mkFlags false false None None)
    (Disk.start [])
  = Create.Returned tt
      (Create.mkWorld [("/srv/jbrowse", Disk.Dir [])]
         [Create.releases_url; "https://example.org/web-0.0.2.zip"] []).
Proof.
  apply (run_installs_latest Disk.disk Disk.mkdir Disk.readdir
           (Disk.serve Disk.listing) Disk.unlink "/srv/jbrowse"
           (Create.mkFlags false false None None) (Disk.start [])
           [("/srv/jbrowse", Disk.Dir [])]
           (Create.mkResponse true (Some "application/json") (Some Disk.listing))
           Disk.listing
           (Disk.release "@gmod/jbrowse-web@v0.0.2" false
                         "https://example.org/web-0.0.2.zip")
           (Create.mkAsset "https://example.org/web-0.0.2.zip") []
           (Create.mkResponse true (Some "application/octet-stream") None));
    try reflexivity.
  right. reflexivity.
Defined.
